(** * ffplayer: packet queue serials, clocks and A/V synchronisation

    A shallow embedding of the packet queue, the frame queue, the decoder's
    and the audio output's fetch loops, the clocks, the synchroniser, the
    volume control and the reader's seek step of [src/ffplayer.c], and the
    properties the specification states about them, followed by further
    properties read off the code.

    Conventions of the embedding.
    - A C [int] is a [Z] kept in range by [int32] (two's complement
      wrap-around, what the compiled code does on overflow); [int64_t]
      likewise with [int64].
    - A C [double] is a primitive binary64 [float]: the arithmetic and the
      comparisons are the IEEE 754 ones, NaN included.
    - A singly linked list of [MyAVPacketList] nodes is a [list], head first;
      the array of a frame queue is a [list] of 16 slots and a [Frame *] into
      it is the index of the slot.
    - The mutex of a queue is held for the whole body of each queue
      function, so a function is one atomic state transition; a thread that
      sleeps in [SDL_CondWait] is the result [get_wait] or [peek_wait].
    - What the environment decides is explicit: whether [av_malloc]
      succeeds is an argument of the queue functions; the functions of the
      player state thread a [World] that answers [av_gettime_relative] and
      [av_malloc] and collects what [av_log] is given; the libraries'
      [avformat_seek_file], [log] and [pow] are parameters, and what a
      property needs of them is a hypothesis of that property ([log] and
      [pow] are compared with the real [ln] and [Rpower]). *)

From Stdlib Require Import Reals Lra ZArith Lia List Bool Sorted Floats.
Import ListNotations.

Set Warnings "-inexact-float".
Local Open Scope Z_scope.

(** ** Machine integers *)

Definition wrap (w x : Z) : Z := (x + 2 ^ (w - 1)) mod 2 ^ w - 2 ^ (w - 1).
Definition int32 (x : Z) : Z := wrap 32 x.
Definition int64 (x : Z) : Z := wrap 64 x.
Definition INT_MAX : Z := 2 ^ 31 - 1.
Definition INT_MIN : Z := - 2 ^ 31.

(** [AVERROR(e)] is [-e]; the errno values are those of Linux. *)
Definition AVERROR (e : Z) : Z := - e.
Definition ENOMEM : Z := 12.
Definition ENOSYS : Z := 38.

(** [av_clip] of libavutil. *)
Definition av_clip (a amin amax : Z) : Z :=
  if a <? amin then amin else if a >? amax then amax else a.

(** ** Packets *)

(** The addresses a packet's [data] field can hold: null, the address of
    the global [flush_pkt] (what [main] stores in [flush_pkt.data]), or a
    payload buffer. *)
Inductive data_ptr : Type :=
| NULL
| addr_flush_pkt
| addr_buf (a : Z).

Record AVPacket : Type := mkAVPacket {
  pkt_data : data_ptr;
  pkt_size : Z;
  pkt_duration : Z;
  pkt_stream_index : Z
}.

(** The global [flush_pkt]: zero-initialised, then [data] points at itself. *)
Definition flush_pkt : AVPacket :=
  {| pkt_data := addr_flush_pkt; pkt_size := 0; pkt_duration := 0;
     pkt_stream_index := 0 |}.

(** An [AVPacket *] argument: [&flush_pkt] or the address of some other
    packet, given by its contents. *)
Inductive AVPacket_ref : Type :=
| ref_flush_pkt
| ref_pkt (p : AVPacket).

Definition deref (r : AVPacket_ref) : AVPacket :=
  match r with ref_flush_pkt => flush_pkt | ref_pkt p => p end.

Definition is_flush_ref (r : AVPacket_ref) : bool :=
  match r with ref_flush_pkt => true | ref_pkt _ => false end.

Record MyAVPacketList : Type := mkNode {
  l_pkt : AVPacket;
  l_serial : Z
}.

Record PacketQueue : Type := mkPacketQueue {
  q_pkts : list MyAVPacketList;   (* first_pkt ... last_pkt *)
  q_nb_packets : Z;
  q_size : Z;
  q_duration : Z;
  q_abort_request : Z;
  q_serial : Z
}.

Definition stamps (q : PacketQueue) : list Z := map l_serial (q_pkts q).

(** What [packet_queue_get] hands back: the return value with the node it
    popped, or the thread asleep on the queue's condition. *)
Inductive get_result : Type :=
| get_ret (ret : Z) (out : option MyAVPacketList)
| get_wait.

Section PacketQueueOps.

(** [sizeof(MyAVPacketList)], fixed by the libavcodec headers the player is
    built against. *)
Variable sizeof_MyAVPacketList : Z.

Definition packet_queue_put_private (av_malloc_ok : bool) (q : PacketQueue)
    (pkt : AVPacket_ref) : Z * PacketQueue :=
  if negb (q_abort_request q =? 0) then (-1, q)
  else if negb av_malloc_ok then (-1, q)
  else
    let serial' :=
      if is_flush_ref pkt then int32 (q_serial q + 1) else q_serial q in
    let pkt1 := {| l_pkt := deref pkt; l_serial := serial' |} in
    (0, {| q_pkts := q_pkts q ++ [pkt1];
           q_nb_packets := int32 (q_nb_packets q + 1);
           q_size := int32 (q_size q + (pkt_size (l_pkt pkt1) + sizeof_MyAVPacketList));
           q_duration := int64 (q_duration q + pkt_duration (l_pkt pkt1));
           q_abort_request := q_abort_request q;
           q_serial := serial' |}).

(** On failure [packet_queue_put] also releases the caller's packet
    ([av_packet_unref]) unless it is the sentinel; the queue is what
    [packet_queue_put_private] left. *)
Definition packet_queue_put (av_malloc_ok : bool) (q : PacketQueue)
    (pkt : AVPacket_ref) : Z * PacketQueue :=
  packet_queue_put_private av_malloc_ok q pkt.

(** The local packet of [packet_queue_put_nullpacket] has only [data],
    [size] and [stream_index] assigned ([av_init_packet] is commented out),
    so its [duration] is whatever the stack held: the argument [junk]. *)
Definition packet_queue_put_nullpacket (av_malloc_ok : bool) (q : PacketQueue)
    (stream_index junk : Z) : Z * PacketQueue :=
  packet_queue_put av_malloc_ok q
    (ref_pkt {| pkt_data := NULL; pkt_size := 0; pkt_duration := junk;
                pkt_stream_index := stream_index |}).

Definition packet_queue_zero : PacketQueue :=
  {| q_pkts := []; q_nb_packets := 0; q_size := 0; q_duration := 0;
     q_abort_request := 0; q_serial := 0 |}.

Definition packet_queue_init (mutex_ok cond_ok : bool) : Z * PacketQueue :=
  let q := packet_queue_zero in
  if negb mutex_ok then (AVERROR ENOMEM, q)
  else if negb cond_ok then (AVERROR ENOMEM, q)
  else (0, {| q_pkts := q_pkts q; q_nb_packets := q_nb_packets q;
              q_size := q_size q; q_duration := q_duration q;
              q_abort_request := 1; q_serial := q_serial q |}).

Definition packet_queue_flush (q : PacketQueue) : PacketQueue :=
  {| q_pkts := []; q_nb_packets := 0; q_size := 0; q_duration := 0;
     q_abort_request := q_abort_request q; q_serial := q_serial q |}.

Definition packet_queue_abort (q : PacketQueue) : PacketQueue :=
  {| q_pkts := q_pkts q; q_nb_packets := q_nb_packets q; q_size := q_size q;
     q_duration := q_duration q; q_abort_request := 1;
     q_serial := q_serial q |}.

Definition packet_queue_start (av_malloc_ok : bool) (q : PacketQueue)
    : PacketQueue :=
  let q0 := {| q_pkts := q_pkts q; q_nb_packets := q_nb_packets q;
               q_size := q_size q; q_duration := q_duration q;
               q_abort_request := 0; q_serial := q_serial q |} in
  snd (packet_queue_put_private av_malloc_ok q0 ref_flush_pkt).

Definition packet_queue_get (q : PacketQueue) (block : Z)
    : get_result * PacketQueue :=
  if negb (q_abort_request q =? 0) then (get_ret (-1) None, q)
  else
    match q_pkts q with
    | pkt1 :: rest =>
        (get_ret 1 (Some pkt1),
         {| q_pkts := rest;
            q_nb_packets := int32 (q_nb_packets q - 1);
            q_size := int32 (q_size q - (pkt_size (l_pkt pkt1) + sizeof_MyAVPacketList));
            q_duration := int64 (q_duration q - pkt_duration (l_pkt pkt1));
            q_abort_request := q_abort_request q;
            q_serial := q_serial q |})
    | [] => if block =? 0 then (get_ret 0 None, q) else (get_wait, q)
    end.

(** *** Histories of one queue

    A thread's call on the queue, and what an observer of the queue sees
    of it. *)
Inductive pq_call : Type :=
| call_put (av_malloc_ok : bool) (pkt : AVPacket_ref)
| call_put_nullpacket (av_malloc_ok : bool) (stream_index junk : Z)
| call_get (block : Z)
| call_flush
| call_abort
| call_start (av_malloc_ok : bool).

Inductive pq_event : Type :=
| ev_entered (flush : bool) (node : MyAVPacketList)
| ev_rejected (ret : Z)
| ev_got (node : MyAVPacketList)
| ev_quiet.

(** What an observer sees of a put that returned [ret] and left the queue
    [q']: on success, the node now last in the queue. *)
Definition put_event (flush : bool) (ret : Z) (q' : PacketQueue) : pq_event :=
  if ret =? 0 then
    match last (map Some (q_pkts q')) None with
    | Some node => ev_entered flush node
    | None => ev_rejected ret
    end
  else ev_rejected ret.

Definition exec (c : pq_call) (q : PacketQueue) : pq_event * PacketQueue :=
  match c with
  | call_put ok pkt =>
      let '(ret, q') := packet_queue_put ok q pkt in
      (put_event (is_flush_ref pkt) ret q', q')
  | call_put_nullpacket ok si junk =>
      let '(ret, q') := packet_queue_put_nullpacket ok q si junk in
      (put_event false ret q', q')
  | call_get block =>
      match packet_queue_get q block with
      | (get_ret _ (Some node), q') => (ev_got node, q')
      | (_, q') => (ev_quiet, q')
      end
  | call_flush => (ev_quiet, packet_queue_flush q)
  | call_abort => (ev_quiet, packet_queue_abort q)
  | call_start ok =>
      let q' := packet_queue_start ok q in
      (if ok then put_event true 0 q' else ev_rejected (-1), q')
  end.

Fixpoint run (cs : list pq_call) (q : PacketQueue)
    : list pq_event * PacketQueue :=
  match cs with
  | [] => ([], q)
  | c :: cs' =>
      let '(e, q1) := exec c q in
      let '(es, q2) := run cs' q1 in
      (e :: es, q2)
  end.

End PacketQueueOps.

(** ** Doubles *)

Local Open Scope float_scope.

Definition NAN : float := nan.
Definition isnan (x : float) : bool := is_nan x.
Definition fabs (x : float) : float := abs x.

(** The macros [FFMAX(a,b) = ((a) > (b) ? (a) : (b))] and
    [FFMIN(a,b) = ((a) > (b) ? (b) : (a))] at type [double]. *)
Definition FFMAX (a b : float) : float := if b <? a then a else b.
Definition FFMIN (a b : float) : float := if b <? a then b else a.

(** Conversion of an integer to [double] (round to nearest even). *)
Definition Z2double (z : Z) : float :=
  SF2Prim (binary_normalize prec emax z 0%Z false).

(** The integer part of a finite double, truncated toward zero. *)
Definition double_trunc (x : float) : option Z :=
  match Prim2SF x with
  | S754_zero _ => Some 0%Z
  | S754_finite s m e =>
      Some (cond_Zopp s
              (match e with
               | Zneg p => Z.shiftr (Zpos m) (Zpos p)
               | _ => Z.shiftl (Zpos m) e
               end))
  | _ => None
  end.

(** The cast [(int)x]: truncation; out of range (undefined in C) it is the
    x86 "integer indefinite" value [INT_MIN]. *)
Definition double_to_int (x : float) : Z :=
  match double_trunc x with
  | Some z => if ((INT_MIN <=? z) && (z <=? INT_MAX))%Z then z else INT_MIN
  | None => INT_MIN
  end.

(** A finite double rounded to the nearest integer, ties to even. *)
Definition double_rint (x : float) : option Z :=
  match Prim2SF x with
  | S754_zero _ => Some 0%Z
  | S754_finite s m e =>
      Some (cond_Zopp s
              (match e with
               | Zneg p =>
                   let q := Z.shiftr (Zpos m) (Zpos p) in
                   let r := Z.land (Zpos m) (Z.ones (Zpos p)) in
                   let half := Z.shiftl 1 (Zpos p - 1) in
                   if (r <? half)%Z then q
                   else if (half <? r)%Z then (q + 1)%Z
                   else if Z.even q then q else (q + 1)%Z
               | _ => Z.shiftl (Zpos m) e
               end))
  | _ => None
  end.

(** [lrint] in the default rounding mode, with a 64-bit [long]. *)
Definition lrint (x : float) : Z :=
  match double_rint x with
  | Some z => if ((- 2 ^ 63 <=? z) && (z <? 2 ^ 63))%Z then z else (- 2 ^ 63)%Z
  | None => (- 2 ^ 63)%Z
  end.

(** ** The environment a thread of the player runs in *)

Inductive log_entry : Type :=
| log_seek_error                       (* AV_LOG_ERROR "%s: error while seeking" *)
| log_add_cum (count : Z)              (* AV_LOG_ERROR "add cum: %d" *)
| log_video_delay (delay a_v : float)  (* AV_LOG_TRACE "video: delay=%0.3f A-V=%f" *)
| log_audio_diff (diff adiff : float) (sample_diff : Z) (apts thr : float).
                                       (* AV_LOG_TRACE "diff=%f adiff=%f ..." *)

(** [wall k] is what the [k]-th call of [av_gettime_relative] returns (in
    microseconds), [heap k] whether the [k]-th [av_malloc] succeeds; [reads]
    and [allocs] count the calls made so far and [w_log] collects what
    [av_log] was given. *)
Record World : Type := mkWorld {
  wall : nat -> Z;
  reads : nat;
  heap : nat -> bool;
  allocs : nat;
  w_log : list log_entry
}.

Definition av_gettime_relative (w : World) : Z * World :=
  (wall w (reads w),
   {| wall := wall w; reads := S (reads w); heap := heap w;
      allocs := allocs w; w_log := w_log w |}).

(** The expression [av_gettime_relative() / 1000000.0]. *)
Definition time_now (w : World) : float * World :=
  let '(us, w') := av_gettime_relative w in (Z2double us / 1000000, w').

Definition av_log (e : log_entry) (w : World) : World :=
  {| wall := wall w; reads := reads w; heap := heap w; allocs := allocs w;
     w_log := w_log w ++ [e] |}.

Definition av_malloc (w : World) : bool * World :=
  (heap w (allocs w),
   {| wall := wall w; reads := reads w; heap := heap w;
      allocs := S (allocs w); w_log := w_log w |}).

(** ** Clocks *)

(** The [int] objects a clock's [queue_serial] points to: [stream_open]
    passes [&is->videoq.serial], [&is->audioq.serial] and, for the external
    clock, the clock's own [&is->extclk.serial]. *)
Inductive serial_ptr : Type :=
| p_videoq_serial
| p_audioq_serial
| p_extclk_serial.

Record Clock : Type := mkClock {
  c_pts : float;
  c_pts_drift : float;
  c_last_updated : float;
  c_speed : float;
  c_serial : Z;
  c_paused : Z;
  c_queue_serial : serial_ptr
}.

(** Memory as the clock functions see it: the value of each pointed-to
    serial. *)
Definition serials : Type := serial_ptr -> Z.

Definition get_clock (mem : serials) (c : Clock) (w : World) : float * World :=
  if negb (mem (c_queue_serial c) =? c_serial c)%Z then (NAN, w)
  else if negb (c_paused c =? 0)%Z then (c_pts c, w)
  else
    let '(time, w') := time_now w in
    (c_pts_drift c + time - (time - c_last_updated c) * (1.0 - c_speed c), w').

Definition set_clock_at (c : Clock) (pts : float) (serial : Z) (time : float)
    : Clock :=
  {| c_pts := pts;
     c_pts_drift := pts - time;
     c_last_updated := time;
     c_speed := c_speed c;
     c_serial := serial;
     c_paused := c_paused c;
     c_queue_serial := c_queue_serial c |}.

Definition set_clock (c : Clock) (pts : float) (serial : Z) (w : World)
    : Clock * World :=
  let '(time, w') := time_now w in (set_clock_at c pts serial time, w').

Definition with_speed (c : Clock) (speed : float) : Clock :=
  {| c_pts := c_pts c; c_pts_drift := c_pts_drift c;
     c_last_updated := c_last_updated c; c_speed := speed;
     c_serial := c_serial c; c_paused := c_paused c;
     c_queue_serial := c_queue_serial c |}.

Definition with_paused (c : Clock) (paused : Z) : Clock :=
  {| c_pts := c_pts c; c_pts_drift := c_pts_drift c;
     c_last_updated := c_last_updated c; c_speed := c_speed c;
     c_serial := c_serial c; c_paused := paused;
     c_queue_serial := c_queue_serial c |}.

Definition set_clock_speed (mem : serials) (c : Clock) (speed : float)
    (w : World) : Clock * World :=
  let '(v, w1) := get_clock mem c w in
  let '(c1, w2) := set_clock c v (c_serial c) w1 in
  (with_speed c1 speed, w2).

Definition init_clock (c : Clock) (queue_serial : serial_ptr) (w : World)
    : Clock * World :=
  set_clock
    {| c_pts := c_pts c; c_pts_drift := c_pts_drift c;
       c_last_updated := c_last_updated c; c_speed := 1.0;
       c_serial := c_serial c; c_paused := 0;
       c_queue_serial := queue_serial |}
    NAN (-1) w.

Definition AV_NOSYNC_THRESHOLD : float := 10.0.

Definition sync_clock_to_slave (mem : serials) (c slave : Clock) (w : World)
    : Clock * World :=
  let '(clock, w1) := get_clock mem c w in
  let '(slave_clock, w2) := get_clock mem slave w1 in
  if negb (isnan slave_clock)
     && (isnan clock || (AV_NOSYNC_THRESHOLD <? fabs (clock - slave_clock)))
  then set_clock c slave_clock (c_serial slave) w2
  else (c, w2).

(** ** The player state *)

(** A stream of the container; only its presence and [disposition] matter
    to the functions below. *)
Record AVStream : Type := mkAVStream { disposition : Z }.

(** The fields of [VideoState] the functions below read or write, in the
    order of the C declaration ([audio_src_freq] is [audio_src.freq]). *)
Record VideoState : Type := mkVideoState {
  paused : Z;
  queue_attachments_req : Z;
  seek_req : Z;
  seek_flags : Z;
  seek_pos : Z;
  seek_rel : Z;
  read_pause_return : Z;
  audclk : Clock;
  vidclk : Clock;
  extclk : Clock;
  audio_stream : Z;
  av_sync_type : Z;
  audio_clock : float;
  audio_diff_cum : float;
  audio_diff_avg_coef : float;
  audio_diff_threshold : float;
  audio_diff_avg_count : Z;
  audio_st : option AVStream;
  audioq : PacketQueue;
  audio_volume : Z;
  audio_src_freq : Z;
  subtitle_stream : Z;
  subtitleq : PacketQueue;
  frame_timer : float;
  video_stream : Z;
  video_st : option AVStream;
  videoq : PacketQueue;
  max_frame_duration : float;
  eof : Z;
  step : Z
}.

Definition set_paused (v : Z) (s : VideoState) : VideoState :=
  let '(mkVideoState f0 f1 f2 f3 f4 f5 f6 f7 f8 f9 f10 f11 f12 f13 f14 f15 f16 f17 f18 f19 f20 f21 f22 f23 f24 f25 f26 f27 f28 f29) := s in
  mkVideoState v f1 f2 f3 f4 f5 f6 f7 f8 f9 f10 f11 f12 f13 f14 f15 f16 f17 f18 f19 f20 f21 f22 f23 f24 f25 f26 f27 f28 f29.

Definition set_queue_attachments_req (v : Z) (s : VideoState) : VideoState :=
  let '(mkVideoState f0 f1 f2 f3 f4 f5 f6 f7 f8 f9 f10 f11 f12 f13 f14 f15 f16 f17 f18 f19 f20 f21 f22 f23 f24 f25 f26 f27 f28 f29) := s in
  mkVideoState f0 v f2 f3 f4 f5 f6 f7 f8 f9 f10 f11 f12 f13 f14 f15 f16 f17 f18 f19 f20 f21 f22 f23 f24 f25 f26 f27 f28 f29.

Definition set_seek_req (v : Z) (s : VideoState) : VideoState :=
  let '(mkVideoState f0 f1 f2 f3 f4 f5 f6 f7 f8 f9 f10 f11 f12 f13 f14 f15 f16 f17 f18 f19 f20 f21 f22 f23 f24 f25 f26 f27 f28 f29) := s in
  mkVideoState f0 f1 v f3 f4 f5 f6 f7 f8 f9 f10 f11 f12 f13 f14 f15 f16 f17 f18 f19 f20 f21 f22 f23 f24 f25 f26 f27 f28 f29.

Definition set_audclk (v : Clock) (s : VideoState) : VideoState :=
  let '(mkVideoState f0 f1 f2 f3 f4 f5 f6 f7 f8 f9 f10 f11 f12 f13 f14 f15 f16 f17 f18 f19 f20 f21 f22 f23 f24 f25 f26 f27 f28 f29) := s in
  mkVideoState f0 f1 f2 f3 f4 f5 f6 v f8 f9 f10 f11 f12 f13 f14 f15 f16 f17 f18 f19 f20 f21 f22 f23 f24 f25 f26 f27 f28 f29.

Definition set_vidclk (v : Clock) (s : VideoState) : VideoState :=
  let '(mkVideoState f0 f1 f2 f3 f4 f5 f6 f7 f8 f9 f10 f11 f12 f13 f14 f15 f16 f17 f18 f19 f20 f21 f22 f23 f24 f25 f26 f27 f28 f29) := s in
  mkVideoState f0 f1 f2 f3 f4 f5 f6 f7 v f9 f10 f11 f12 f13 f14 f15 f16 f17 f18 f19 f20 f21 f22 f23 f24 f25 f26 f27 f28 f29.

Definition set_extclk (v : Clock) (s : VideoState) : VideoState :=
  let '(mkVideoState f0 f1 f2 f3 f4 f5 f6 f7 f8 f9 f10 f11 f12 f13 f14 f15 f16 f17 f18 f19 f20 f21 f22 f23 f24 f25 f26 f27 f28 f29) := s in
  mkVideoState f0 f1 f2 f3 f4 f5 f6 f7 f8 v f10 f11 f12 f13 f14 f15 f16 f17 f18 f19 f20 f21 f22 f23 f24 f25 f26 f27 f28 f29.

Definition set_audio_diff_cum (v : float) (s : VideoState) : VideoState :=
  let '(mkVideoState f0 f1 f2 f3 f4 f5 f6 f7 f8 f9 f10 f11 f12 f13 f14 f15 f16 f17 f18 f19 f20 f21 f22 f23 f24 f25 f26 f27 f28 f29) := s in
  mkVideoState f0 f1 f2 f3 f4 f5 f6 f7 f8 f9 f10 f11 f12 v f14 f15 f16 f17 f18 f19 f20 f21 f22 f23 f24 f25 f26 f27 f28 f29.

Definition set_audio_diff_avg_count (v : Z) (s : VideoState) : VideoState :=
  let '(mkVideoState f0 f1 f2 f3 f4 f5 f6 f7 f8 f9 f10 f11 f12 f13 f14 f15 f16 f17 f18 f19 f20 f21 f22 f23 f24 f25 f26 f27 f28 f29) := s in
  mkVideoState f0 f1 f2 f3 f4 f5 f6 f7 f8 f9 f10 f11 f12 f13 f14 f15 v f17 f18 f19 f20 f21 f22 f23 f24 f25 f26 f27 f28 f29.

Definition set_audioq (v : PacketQueue) (s : VideoState) : VideoState :=
  let '(mkVideoState f0 f1 f2 f3 f4 f5 f6 f7 f8 f9 f10 f11 f12 f13 f14 f15 f16 f17 f18 f19 f20 f21 f22 f23 f24 f25 f26 f27 f28 f29) := s in
  mkVideoState f0 f1 f2 f3 f4 f5 f6 f7 f8 f9 f10 f11 f12 f13 f14 f15 f16 f17 v f19 f20 f21 f22 f23 f24 f25 f26 f27 f28 f29.

Definition set_audio_volume (v : Z) (s : VideoState) : VideoState :=
  let '(mkVideoState f0 f1 f2 f3 f4 f5 f6 f7 f8 f9 f10 f11 f12 f13 f14 f15 f16 f17 f18 f19 f20 f21 f22 f23 f24 f25 f26 f27 f28 f29) := s in
  mkVideoState f0 f1 f2 f3 f4 f5 f6 f7 f8 f9 f10 f11 f12 f13 f14 f15 f16 f17 f18 v f20 f21 f22 f23 f24 f25 f26 f27 f28 f29.

Definition set_subtitleq (v : PacketQueue) (s : VideoState) : VideoState :=
  let '(mkVideoState f0 f1 f2 f3 f4 f5 f6 f7 f8 f9 f10 f11 f12 f13 f14 f15 f16 f17 f18 f19 f20 f21 f22 f23 f24 f25 f26 f27 f28 f29) := s in
  mkVideoState f0 f1 f2 f3 f4 f5 f6 f7 f8 f9 f10 f11 f12 f13 f14 f15 f16 f17 f18 f19 f20 f21 v f23 f24 f25 f26 f27 f28 f29.

Definition set_frame_timer (v : float) (s : VideoState) : VideoState :=
  let '(mkVideoState f0 f1 f2 f3 f4 f5 f6 f7 f8 f9 f10 f11 f12 f13 f14 f15 f16 f17 f18 f19 f20 f21 f22 f23 f24 f25 f26 f27 f28 f29) := s in
  mkVideoState f0 f1 f2 f3 f4 f5 f6 f7 f8 f9 f10 f11 f12 f13 f14 f15 f16 f17 f18 f19 f20 f21 f22 v f24 f25 f26 f27 f28 f29.

Definition set_videoq (v : PacketQueue) (s : VideoState) : VideoState :=
  let '(mkVideoState f0 f1 f2 f3 f4 f5 f6 f7 f8 f9 f10 f11 f12 f13 f14 f15 f16 f17 f18 f19 f20 f21 f22 f23 f24 f25 f26 f27 f28 f29) := s in
  mkVideoState f0 f1 f2 f3 f4 f5 f6 f7 f8 f9 f10 f11 f12 f13 f14 f15 f16 f17 f18 f19 f20 f21 f22 f23 f24 f25 v f27 f28 f29.

Definition set_eof (v : Z) (s : VideoState) : VideoState :=
  let '(mkVideoState f0 f1 f2 f3 f4 f5 f6 f7 f8 f9 f10 f11 f12 f13 f14 f15 f16 f17 f18 f19 f20 f21 f22 f23 f24 f25 f26 f27 f28 f29) := s in
  mkVideoState f0 f1 f2 f3 f4 f5 f6 f7 f8 f9 f10 f11 f12 f13 f14 f15 f16 f17 f18 f19 f20 f21 f22 f23 f24 f25 f26 f27 v f29.

Definition set_step (v : Z) (s : VideoState) : VideoState :=
  let '(mkVideoState f0 f1 f2 f3 f4 f5 f6 f7 f8 f9 f10 f11 f12 f13 f14 f15 f16 f17 f18 f19 f20 f21 f22 f23 f24 f25 f26 f27 f28 f29) := s in
  mkVideoState f0 f1 f2 f3 f4 f5 f6 f7 f8 f9 f10 f11 f12 f13 f14 f15 f16 f17 f18 f19 f20 f21 f22 f23 f24 f25 f26 f27 f28 v.

(** What each [queue_serial] pointer reads in the state [s]; the external
    clock's pointer is to its own [serial] field. *)
Definition mem_of (s : VideoState) : serials :=
  fun p =>
    match p with
    | p_videoq_serial => q_serial (videoq s)
    | p_audioq_serial => q_serial (audioq s)
    | p_extclk_serial => c_serial (extclk s)
    end.

Definition AV_SYNC_AUDIO_MASTER : Z := 0.
Definition AV_SYNC_VIDEO_MASTER : Z := 1.
Definition AV_SYNC_EXTERNAL_CLOCK : Z := 2.

Definition is_null {A : Type} (p : option A) : bool :=
  match p with Some _ => false | None => true end.

Definition get_master_sync_type (s : VideoState) : Z :=
  if (av_sync_type s =? AV_SYNC_VIDEO_MASTER)%Z then
    if negb (is_null (video_st s)) then AV_SYNC_VIDEO_MASTER
    else AV_SYNC_AUDIO_MASTER
  else if (av_sync_type s =? AV_SYNC_AUDIO_MASTER)%Z then
    if negb (is_null (audio_st s)) then AV_SYNC_AUDIO_MASTER
    else AV_SYNC_EXTERNAL_CLOCK
  else AV_SYNC_EXTERNAL_CLOCK.

Definition get_master_clock (s : VideoState) (w : World) : float * World :=
  let ty := get_master_sync_type s in
  if (ty =? AV_SYNC_VIDEO_MASTER)%Z then get_clock (mem_of s) (vidclk s) w
  else if (ty =? AV_SYNC_AUDIO_MASTER)%Z then get_clock (mem_of s) (audclk s) w
  else get_clock (mem_of s) (extclk s) w.

(** The logical negation [!x] of an [int]. *)
Definition lnot (x : Z) : Z := if (x =? 0)%Z then 1%Z else 0%Z.

Definition stream_toggle_pause (s : VideoState) (w : World)
    : VideoState * World :=
  let '(s1, w1) :=
    if negb (paused s =? 0)%Z then
      let '(time, wa) := time_now w in
      let sa := set_frame_timer (frame_timer s + (time - c_last_updated (vidclk s))) s in
      let sb :=
        if negb (read_pause_return sa =? AVERROR ENOSYS)%Z
        then set_vidclk (with_paused (vidclk sa) 0) sa else sa in
      let '(v, wb) := get_clock (mem_of sb) (vidclk sb) wa in
      let '(c, wc) := set_clock (vidclk sb) v (c_serial (vidclk sb)) wb in
      (set_vidclk c sb, wc)
    else (s, w) in
  let '(v, w2) := get_clock (mem_of s1) (extclk s1) w1 in
  let '(c, w3) := set_clock (extclk s1) v (c_serial (extclk s1)) w2 in
  let s2 := set_extclk c s1 in
  let p := lnot (paused s2) in
  let s3 := set_extclk (with_paused (extclk s2) p) s2 in
  let s4 := set_vidclk (with_paused (vidclk s3) p) s3 in
  let s5 := set_audclk (with_paused (audclk s4) p) s4 in
  (set_paused p s5, w3).

Definition step_to_next_frame (s : VideoState) (w : World)
    : VideoState * World :=
  let '(s1, w1) :=
    if negb (paused s =? 0)%Z then stream_toggle_pause s w else (s, w) in
  (set_step 1 s1, w1).

Definition AV_SYNC_THRESHOLD_MIN : float := 0.04.
Definition AV_SYNC_THRESHOLD_MAX : float := 0.1.
Definition AV_SYNC_FRAMEDUP_THRESHOLD : float := 0.1.

(** The two operands of [get_clock(&is->vidclk) - get_master_clock(is)]
    are evaluated left to right. *)
Definition compute_target_delay (delay : float) (s : VideoState) (w : World)
    : float * World :=
  let '(delay', diff, w') :=
    if negb (get_master_sync_type s =? AV_SYNC_VIDEO_MASTER)%Z then
      let '(v, w1) := get_clock (mem_of s) (vidclk s) w in
      let '(m, w2) := get_master_clock s w1 in
      let diff := v - m in
      let sync_threshold :=
        FFMAX AV_SYNC_THRESHOLD_MIN (FFMIN AV_SYNC_THRESHOLD_MAX delay) in
      if negb (isnan diff) && (fabs diff <? max_frame_duration s) then
        if diff <=? - sync_threshold then (FFMAX 0 (delay + diff), diff, w2)
        else if (sync_threshold <=? diff) && (AV_SYNC_FRAMEDUP_THRESHOLD <? delay)
        then (delay + diff, diff, w2)
        else if sync_threshold <=? diff then (2 * delay, diff, w2)
        else (delay, diff, w2)
      else (delay, diff, w2)
    else (delay, 0, w) in
  (delay', av_log (log_video_delay delay' (- diff)) w').

Definition AUDIO_DIFF_AVG_NB : Z := 20.
Definition SAMPLE_CORRECTION_PERCENT_MAX : Z := 10.

Definition synchronize_audio (s : VideoState) (nb_samples : Z) (w : World)
    : Z * VideoState * World :=
  if negb (get_master_sync_type s =? AV_SYNC_AUDIO_MASTER)%Z then
    let '(a, w1) := get_clock (mem_of s) (audclk s) w in
    let '(m, w2) := get_master_clock s w1 in
    let diff := a - m in
    if negb (isnan diff) && (fabs diff <? AV_NOSYNC_THRESHOLD) then
      let s1 :=
        set_audio_diff_cum (diff + audio_diff_avg_coef s * audio_diff_cum s) s in
      if (audio_diff_avg_count s1 <? AUDIO_DIFF_AVG_NB)%Z then
        let w3 := av_log (log_add_cum (audio_diff_avg_count s1)) w2 in
        (nb_samples,
         set_audio_diff_avg_count (int32 (audio_diff_avg_count s1 + 1)) s1, w3)
      else
        let avg_diff := audio_diff_cum s1 * (1.0 - audio_diff_avg_coef s1) in
        let wanted_nb_samples :=
          if audio_diff_threshold s1 <=? fabs avg_diff then
            let wanted :=
              int32 (nb_samples
                     + double_to_int (diff * Z2double (audio_src_freq s1))) in
            let min_nb_samples :=
              Z.quot (int32 (nb_samples * (100 - SAMPLE_CORRECTION_PERCENT_MAX))) 100 in
            let max_nb_samples :=
              Z.quot (int32 (nb_samples * (100 + SAMPLE_CORRECTION_PERCENT_MAX))) 100 in
            av_clip wanted min_nb_samples max_nb_samples
          else nb_samples in
        let w3 :=
          av_log (log_audio_diff diff avg_diff
                    (int32 (wanted_nb_samples - nb_samples))
                    (audio_clock s1) (audio_diff_threshold s1)) w2 in
        (wanted_nb_samples, s1, w3)
    else
      (nb_samples, set_audio_diff_cum 0 (set_audio_diff_avg_count 0 s), w2)
  else (nb_samples, s, w).

(** ** Volume *)

Definition SDL_MIX_MAXVOLUME : Z := 128.
Definition SDL_VOLUME_STEP : float := 0.75.

Section Volume.

(** [log] and [pow] of the C library. *)
Variable log : float -> float.
Variable pow : float -> float -> float.

Definition volume_level (volume : Z) : float :=
  if negb (volume =? 0)%Z
  then 20 * log (Z2double volume / Z2double SDL_MIX_MAXVOLUME) / log 10
  else -1000.0.

Definition new_volume (volume sign : Z) (step : float) : Z :=
  int32 (lrint (Z2double SDL_MIX_MAXVOLUME
                * pow 10.0 ((volume_level volume + Z2double sign * step) / 20.0))).

Definition update_volume (s : VideoState) (sign : Z) (step : float)
    : VideoState :=
  let nv := new_volume (audio_volume s) sign step in
  set_audio_volume
    (av_clip (if (audio_volume s =? nv)%Z then int32 (audio_volume s + sign) else nv)
             0 SDL_MIX_MAXVOLUME) s.

End Volume.

(** ** The reader's seek step *)

Definition AVSEEK_FLAG_BYTE : Z := 2.
Definition AV_TIME_BASE : Z := 1000000.
Definition INT64_MIN : Z := - 2 ^ 63.
Definition INT64_MAX : Z := 2 ^ 63 - 1.

Section Reader.

Variable sizeof_MyAVPacketList : Z.

(** [avformat_seek_file(is->ic, stream_index, min_ts, ts, max_ts, flags)] of
    libavformat: its return value. *)
Variable avformat_seek_file : Z -> Z -> Z -> Z -> Z -> Z.

(** [packet_queue_put] as a thread of the player calls it: the allocation
    is asked of the heap only when the queue is not aborted. *)
Definition reader_put (q : PacketQueue) (pkt : AVPacket_ref) (w : World)
    : Z * PacketQueue * World :=
  if negb (q_abort_request q =? 0)%Z then
    (packet_queue_put sizeof_MyAVPacketList true q pkt, w)
  else
    let '(ok, w') := av_malloc w in
    (packet_queue_put sizeof_MyAVPacketList ok q pkt, w').

Definition read_thread_loop_handle_seek (s : VideoState) (w : World)
    : Z * VideoState * World :=
  if negb (seek_req s =? 0)%Z then
    let seek_target := seek_pos s in
    let seek_min :=
      if (seek_rel s >? 0)%Z then int64 (int64 (seek_target - seek_rel s) + 2)
      else INT64_MIN in
    let seek_max :=
      if (seek_rel s <? 0)%Z then int64 (int64 (seek_target - seek_rel s) - 2)
      else INT64_MAX in
    let ret :=
      avformat_seek_file (-1) seek_min seek_target seek_max (seek_flags s) in
    let '(s1, w1) :=
      if (ret <? 0)%Z then (s, av_log log_seek_error w)
      else
        let '(sa, wa) :=
          if (audio_stream s >=? 0)%Z then
            let '(_, q, w') := reader_put (packet_queue_flush (audioq s)) ref_flush_pkt w in
            (set_audioq q s, w')
          else (s, w) in
        let '(sb, wb) :=
          if (subtitle_stream sa >=? 0)%Z then
            let '(_, q, w') := reader_put (packet_queue_flush (subtitleq sa)) ref_flush_pkt wa in
            (set_subtitleq q sa, w')
          else (sa, wa) in
        let '(sc, wc) :=
          if (video_stream sb >=? 0)%Z then
            let '(_, q, w') := reader_put (packet_queue_flush (videoq sb)) ref_flush_pkt wb in
            (set_videoq q sb, w')
          else (sb, wb) in
        let '(c, wd) :=
          if negb (Z.land (seek_flags sc) AVSEEK_FLAG_BYTE =? 0)%Z
          then set_clock (extclk sc) NAN 0 wc
          else set_clock (extclk sc) (Z2double seek_target / Z2double AV_TIME_BASE) 0 wc in
        (set_extclk c sc, wd) in
    let s2 := set_eof 0 (set_queue_attachments_req 1 (set_seek_req 0 s1)) in
    let '(s3, w3) :=
      if negb (paused s2 =? 0)%Z then step_to_next_frame s2 w1 else (s2, w1) in
    (0%Z, s3, w3)
  else (0%Z, s, w).

End Reader.

Local Open Scope Z_scope.

(** ** Integer helpers *)

(** The macros [FFMAX] and [FFMIN] at type [int]. *)
Definition FFMAX_int (a b : Z) : Z := if a >? b then a else b.
Definition FFMIN_int (a b : Z) : Z := if a >? b then b else a.

(** [a % b] of C truncates toward zero ([Z.rem]); it is undefined for
    [b = 0]. *)
Definition compute_mod (a b : Z) : Z :=
  if a <? 0 then int32 (Z.rem a b + b) else Z.rem a b.

(** ** Requesting a seek *)

Definition set_seek_flags (v : Z) (s : VideoState) : VideoState :=
  let '(mkVideoState f0 f1 f2 f3 f4 f5 f6 f7 f8 f9 f10 f11 f12 f13 f14 f15 f16 f17 f18 f19 f20 f21 f22 f23 f24 f25 f26 f27 f28 f29) := s in
  mkVideoState f0 f1 f2 v f4 f5 f6 f7 f8 f9 f10 f11 f12 f13 f14 f15 f16 f17 f18 f19 f20 f21 f22 f23 f24 f25 f26 f27 f28 f29.

Definition set_seek_pos (v : Z) (s : VideoState) : VideoState :=
  let '(mkVideoState f0 f1 f2 f3 f4 f5 f6 f7 f8 f9 f10 f11 f12 f13 f14 f15 f16 f17 f18 f19 f20 f21 f22 f23 f24 f25 f26 f27 f28 f29) := s in
  mkVideoState f0 f1 f2 f3 v f5 f6 f7 f8 f9 f10 f11 f12 f13 f14 f15 f16 f17 f18 f19 f20 f21 f22 f23 f24 f25 f26 f27 f28 f29.

Definition set_seek_rel (v : Z) (s : VideoState) : VideoState :=
  let '(mkVideoState f0 f1 f2 f3 f4 f5 f6 f7 f8 f9 f10 f11 f12 f13 f14 f15 f16 f17 f18 f19 f20 f21 f22 f23 f24 f25 f26 f27 f28 f29) := s in
  mkVideoState f0 f1 f2 f3 f4 v f6 f7 f8 f9 f10 f11 f12 f13 f14 f15 f16 f17 f18 f19 f20 f21 f22 f23 f24 f25 f26 f27 f28 f29.

(** [is->seek_flags &= ~AVSEEK_FLAG_BYTE] and [|= AVSEEK_FLAG_BYTE] are
    the bit operations of [Z] (two's complement); the wake-up of the reader
    ([SDL_CondSignal]) changes no state. *)
Definition stream_seek (s : VideoState) (pos rel seek_by_bytes : Z)
    : VideoState :=
  if seek_req s =? 0 then
    let s1 := set_seek_pos pos s in
    let s2 := set_seek_rel rel s1 in
    let s3 := set_seek_flags (Z.land (seek_flags s2) (Z.lnot AVSEEK_FLAG_BYTE)) s2 in
    let s4 :=
      if negb (seek_by_bytes =? 0)
      then set_seek_flags (Z.lor (seek_flags s3) AVSEEK_FLAG_BYTE) s3
      else s3 in
    set_seek_req 1 s4
  else s.

Definition toggle_pause (s : VideoState) (w : World) : VideoState * World :=
  let '(s1, w1) := stream_toggle_pause s w in (set_step 0 s1, w1).

(** ** The external clock of a realtime source *)

Definition EXTERNAL_CLOCK_MIN_FRAMES : Z := 2.
Definition EXTERNAL_CLOCK_MAX_FRAMES : Z := 10.

Local Open Scope float_scope.

Definition EXTERNAL_CLOCK_SPEED_MIN : float := 0.900.
Definition EXTERNAL_CLOCK_SPEED_MAX : float := 1.010.
Definition EXTERNAL_CLOCK_SPEED_STEP : float := 0.001.

Definition check_external_clock_speed (s : VideoState) (w : World)
    : VideoState * World :=
  if ((video_stream s >=? 0)%Z
      && (q_nb_packets (videoq s) <=? EXTERNAL_CLOCK_MIN_FRAMES)%Z)
     || ((audio_stream s >=? 0)%Z
         && (q_nb_packets (audioq s) <=? EXTERNAL_CLOCK_MIN_FRAMES)%Z)
  then
    let '(c, w') :=
      set_clock_speed (mem_of s) (extclk s)
        (FFMAX EXTERNAL_CLOCK_SPEED_MIN
               (c_speed (extclk s) - EXTERNAL_CLOCK_SPEED_STEP)) w in
    (set_extclk c s, w')
  else if ((video_stream s <? 0)%Z
           || (q_nb_packets (videoq s) >? EXTERNAL_CLOCK_MAX_FRAMES)%Z)
          && ((audio_stream s <? 0)%Z
              || (q_nb_packets (audioq s) >? EXTERNAL_CLOCK_MAX_FRAMES)%Z)
  then
    let '(c, w') :=
      set_clock_speed (mem_of s) (extclk s)
        (FFMIN EXTERNAL_CLOCK_SPEED_MAX
               (c_speed (extclk s) + EXTERNAL_CLOCK_SPEED_STEP)) w in
    (set_extclk c s, w')
  else
    let speed := c_speed (extclk s) in
    if negb (speed =? 1.0) then
      let '(c, w') :=
        set_clock_speed (mem_of s) (extclk s)
          (speed + EXTERNAL_CLOCK_SPEED_STEP * (1.0 - speed) / fabs (1.0 - speed)) w in
      (set_extclk c s, w')
    else (s, w).

Local Open Scope Z_scope.

(** ** Frame queues *)

Definition VIDEO_PICTURE_QUEUE_SIZE : Z := 3.
Definition SUBPICTURE_QUEUE_SIZE : Z := 16.
Definition SAMPLE_QUEUE_SIZE : Z := 9.
Definition FRAME_QUEUE_SIZE : Z :=
  FFMAX_int SAMPLE_QUEUE_SIZE
            (FFMAX_int VIDEO_PICTURE_QUEUE_SIZE SUBPICTURE_QUEUE_SIZE).

Record AVRational : Type := mkAVRational { num : Z; den : Z }.

(** The [AVFrame *frame] of a slot: null, or an allocated frame that holds
    a reference to decoded data (named by a number) or none. *)
Inductive AVFrame_ptr : Type :=
| frame_NULL
| frame_buf (data : option Z).

(** [fr_sub] is the slot's [AVSubtitle]: the decoded subtitle it holds, if
    any. *)
Record Frame : Type := mkFrame {
  fr_frame : AVFrame_ptr;
  fr_sub : option Z;
  fr_serial : Z;
  fr_pts : float;
  fr_duration : float;
  fr_pos : Z;
  fr_width : Z;
  fr_height : Z;
  fr_format : Z;
  fr_sar : AVRational;
  fr_uploaded : Z;
  fr_flip_v : Z
}.

(** The packet queues a frame queue or a decoder can point to. *)
Inductive queue_ptr : Type :=
| p_videoq
| p_subtitleq
| p_audioq.

(** [fq_mutex] and [fq_cond] say whether the SDL object was created;
    [fq_pktq] is the pointer [pktq] (null after [memset]).  The functions
    that dereference [f->pktq] are given the queue it points to. *)
Record FrameQueue : Type := mkFrameQueue {
  fq_queue : list Frame;          (* Frame queue[FRAME_QUEUE_SIZE] *)
  fq_rindex : Z;
  fq_windex : Z;
  fq_size : Z;
  fq_max_size : Z;
  fq_keep_last : Z;
  fq_rindex_shown : Z;
  fq_mutex : bool;
  fq_cond : bool;
  fq_pktq : option queue_ptr
}.

Definition frame_zero : Frame :=
  {| fr_frame := frame_NULL; fr_sub := None; fr_serial := 0; fr_pts := 0%float;
     fr_duration := 0%float; fr_pos := 0; fr_width := 0; fr_height := 0;
     fr_format := 0; fr_sar := {| num := 0; den := 0 |}; fr_uploaded := 0;
     fr_flip_v := 0 |}.

(** [f->queue[i]] read and written; outside the array (undefined in C) a
    read gives [frame_zero] and a write does nothing. *)
Definition frame_at (f : FrameQueue) (i : Z) : Frame :=
  nth (Z.to_nat i) (fq_queue f) frame_zero.

Fixpoint store {A : Type} (l : list A) (n : nat) (x : A) : list A :=
  match l, n with
  | [], _ => []
  | _ :: t, O => x :: t
  | h :: t, S n' => h :: store t n' x
  end.

Definition with_queue (f : FrameQueue) (queue : list Frame) : FrameQueue :=
  {| fq_queue := queue; fq_rindex := fq_rindex f; fq_windex := fq_windex f;
     fq_size := fq_size f; fq_max_size := fq_max_size f;
     fq_keep_last := fq_keep_last f; fq_rindex_shown := fq_rindex_shown f;
     fq_mutex := fq_mutex f; fq_cond := fq_cond f; fq_pktq := fq_pktq f |}.

(** [av_frame_unref] drops the data the frame refers to, [avsubtitle_free]
    the subtitle. *)
Definition frame_queue_unref_item (vp : Frame) : Frame :=
  {| fr_frame :=
       match fr_frame vp with
       | frame_buf _ => frame_buf None
       | frame_NULL => frame_NULL
       end;
     fr_sub := None; fr_serial := fr_serial vp; fr_pts := fr_pts vp;
     fr_duration := fr_duration vp; fr_pos := fr_pos vp;
     fr_width := fr_width vp; fr_height := fr_height vp;
     fr_format := fr_format vp; fr_sar := fr_sar vp;
     fr_uploaded := fr_uploaded vp; fr_flip_v := fr_flip_v vp |}.

Definition frame_queue_zero : FrameQueue :=
  {| fq_queue := repeat frame_zero (Z.to_nat FRAME_QUEUE_SIZE);
     fq_rindex := 0; fq_windex := 0; fq_size := 0; fq_max_size := 0;
     fq_keep_last := 0; fq_rindex_shown := 0; fq_mutex := false;
     fq_cond := false; fq_pktq := None |}.

Definition with_frame (vp : Frame) (p : AVFrame_ptr) : Frame :=
  {| fr_frame := p; fr_sub := fr_sub vp; fr_serial := fr_serial vp;
     fr_pts := fr_pts vp; fr_duration := fr_duration vp; fr_pos := fr_pos vp;
     fr_width := fr_width vp; fr_height := fr_height vp;
     fr_format := fr_format vp; fr_sar := fr_sar vp;
     fr_uploaded := fr_uploaded vp; fr_flip_v := fr_flip_v vp |}.

(** The loop [for (i = 0; i < f->max_size; i++)] of [frame_queue_init],
    [n] iterations from slot [i]; [av_frame_alloc_ok k] says whether the
    allocation for slot [k] succeeds.  The result is whether all did. *)
Fixpoint frame_queue_alloc (n i : nat) (av_frame_alloc_ok : nat -> bool)
    (queue : list Frame) : bool * list Frame :=
  match n with
  | O => (true, queue)
  | S n' =>
      if av_frame_alloc_ok i then
        frame_queue_alloc n' (S i) av_frame_alloc_ok
          (store queue i (with_frame (nth i queue frame_zero) (frame_buf None)))
      else (false, queue)
  end.

Definition frame_queue_init (mutex_ok cond_ok : bool)
    (av_frame_alloc_ok : nat -> bool) (pktq : queue_ptr)
    (max_size keep_last : Z) : Z * FrameQueue :=
  let f := frame_queue_zero in
  if negb mutex_ok then (AVERROR ENOMEM, f)
  else if negb cond_ok then
    (AVERROR ENOMEM,
     {| fq_queue := fq_queue f; fq_rindex := 0; fq_windex := 0; fq_size := 0;
        fq_max_size := 0; fq_keep_last := 0; fq_rindex_shown := 0;
        fq_mutex := true; fq_cond := false; fq_pktq := None |})
  else
    let m := FFMIN_int max_size FRAME_QUEUE_SIZE in
    let '(ok, queue) :=
      frame_queue_alloc (Z.to_nat m) 0 av_frame_alloc_ok (fq_queue f) in
    (if ok then 0 else AVERROR ENOMEM,
     {| fq_queue := queue; fq_rindex := 0; fq_windex := 0; fq_size := 0;
        fq_max_size := m; fq_keep_last := lnot (lnot keep_last);
        fq_rindex_shown := 0; fq_mutex := true; fq_cond := true;
        fq_pktq := Some pktq |}).

(** A [Frame *] into the queue is the index of the slot. *)
Definition frame_queue_peek (f : FrameQueue) : Z :=
  Z.rem (int32 (fq_rindex f + fq_rindex_shown f)) (fq_max_size f).

Definition frame_queue_peek_next (f : FrameQueue) : Z :=
  Z.rem (int32 (int32 (fq_rindex f + fq_rindex_shown f) + 1)) (fq_max_size f).

Definition frame_queue_peek_last (f : FrameQueue) : Z := fq_rindex f.

(** What the two waiting peeks hand back: the thread asleep on the
    queue's condition, a null pointer, or a slot. *)
Inductive peek_result : Type :=
| peek_wait
| peek_NULL
| peek_slot (i : Z).

Definition frame_queue_peek_writable (f : FrameQueue) (pktq : PacketQueue)
    : peek_result :=
  if (fq_size f >=? fq_max_size f) && (q_abort_request pktq =? 0) then peek_wait
  else if negb (q_abort_request pktq =? 0) then peek_NULL
  else peek_slot (fq_windex f).

Definition frame_queue_peek_readable (f : FrameQueue) (pktq : PacketQueue)
    : peek_result :=
  if (int32 (fq_size f - fq_rindex_shown f) <=? 0)
     && (q_abort_request pktq =? 0) then peek_wait
  else if negb (q_abort_request pktq =? 0) then peek_NULL
  else peek_slot (Z.rem (int32 (fq_rindex f + fq_rindex_shown f)) (fq_max_size f)).

Definition frame_queue_push (f : FrameQueue) : FrameQueue :=
  let w := int32 (fq_windex f + 1) in
  {| fq_queue := fq_queue f; fq_rindex := fq_rindex f;
     fq_windex := if w =? fq_max_size f then 0 else w;
     fq_size := int32 (fq_size f + 1); fq_max_size := fq_max_size f;
     fq_keep_last := fq_keep_last f; fq_rindex_shown := fq_rindex_shown f;
     fq_mutex := fq_mutex f; fq_cond := fq_cond f; fq_pktq := fq_pktq f |}.

Definition frame_queue_next (f : FrameQueue) : FrameQueue :=
  if negb (fq_keep_last f =? 0) && (fq_rindex_shown f =? 0) then
    {| fq_queue := fq_queue f; fq_rindex := fq_rindex f;
       fq_windex := fq_windex f; fq_size := fq_size f;
       fq_max_size := fq_max_size f; fq_keep_last := fq_keep_last f;
       fq_rindex_shown := 1; fq_mutex := fq_mutex f; fq_cond := fq_cond f;
       fq_pktq := fq_pktq f |}
  else
    let r := int32 (fq_rindex f + 1) in
    {| fq_queue :=
         store (fq_queue f) (Z.to_nat (fq_rindex f))
               (frame_queue_unref_item (frame_at f (fq_rindex f)));
       fq_rindex := if r =? fq_max_size f then 0 else r;
       fq_windex := fq_windex f; fq_size := int32 (fq_size f - 1);
       fq_max_size := fq_max_size f; fq_keep_last := fq_keep_last f;
       fq_rindex_shown := fq_rindex_shown f; fq_mutex := fq_mutex f;
       fq_cond := fq_cond f; fq_pktq := fq_pktq f |}.

Definition frame_queue_nb_remaining (f : FrameQueue) : Z :=
  int32 (fq_size f - fq_rindex_shown f).

Definition frame_queue_last_pos (f : FrameQueue) (pktq : PacketQueue) : Z :=
  let fp := frame_at f (fq_rindex f) in
  if negb (fq_rindex_shown f =? 0) && (fr_serial fp =? q_serial pktq)
  then fr_pos fp else -1.

Local Open Scope float_scope.

Definition vp_duration (s : VideoState) (vp nextvp : Frame) : float :=
  if (fr_serial vp =? fr_serial nextvp)%Z then
    let duration := fr_pts nextvp - fr_pts vp in
    if isnan duration || (duration <=? 0) || (max_frame_duration s <? duration)
    then fr_duration vp
    else duration
  else 0.0.

Local Open Scope Z_scope.

(** ** Decoders *)

Definition AV_NOPTS_VALUE : Z := INT64_MIN.

(** [d_queue] is the pointer [queue]; the codec context and the SDL
    objects are left out. *)
Record Decoder : Type := mkDecoder {
  d_pkt : AVPacket;
  d_queue : option queue_ptr;
  d_pkt_serial : Z;
  d_finished : Z;
  d_packet_pending : Z;
  d_start_pts : Z;
  d_start_pts_tb : AVRational;
  d_next_pts : Z;
  d_next_pts_tb : AVRational
}.

(** A packet as [memset] or [av_packet_move_ref] leaves it, on the fields
    of [AVPacket] kept here. *)
Definition blank_packet : AVPacket :=
  {| pkt_data := NULL; pkt_size := 0; pkt_duration := 0;
     pkt_stream_index := 0 |}.

Definition decoder_init (queue : queue_ptr) : Decoder :=
  {| d_pkt := blank_packet; d_queue := Some queue; d_pkt_serial := -1;
     d_finished := 0; d_packet_pending := 0; d_start_pts := AV_NOPTS_VALUE;
     d_start_pts_tb := {| num := 0; den := 0 |}; d_next_pts := 0;
     d_next_pts_tb := {| num := 0; den := 0 |} |}.

(** How the packet-fetching loop of [decoder_decode_frame] ends: with a
    packet, with [return -1], or with the thread asleep in
    [packet_queue_get]. *)
Inductive fetch_result : Type :=
| fetch_pkt (pkt : AVPacket)
| fetch_abort
| fetch_wait.

Section DecoderOps.

Variable sizeof_MyAVPacketList : Z.

(** The loop [do { ... } while (d->queue->serial != d->pkt_serial)] of
    [decoder_decode_frame], on the decoder and the queue [d->queue] points
    to, with no other thread touching the queue meanwhile.  [signals]
    counts the [SDL_CondSignal(d->empty_queue_cond)] made; [None] is the
    fuel running out. *)
Fixpoint decoder_fetch (fuel : nat) (d : Decoder) (q : PacketQueue)
    (signals : nat) : option (fetch_result * Decoder * PacketQueue * nat) :=
  match fuel with
  | O => None
  | S fuel' =>
      let signals1 := if q_nb_packets q =? 0 then S signals else signals in
      if negb (d_packet_pending d =? 0) then
        let pkt := d_pkt d in
        let d1 :=
          {| d_pkt := blank_packet; d_queue := d_queue d;
             d_pkt_serial := d_pkt_serial d; d_finished := d_finished d;
             d_packet_pending := 0; d_start_pts := d_start_pts d;
             d_start_pts_tb := d_start_pts_tb d; d_next_pts := d_next_pts d;
             d_next_pts_tb := d_next_pts_tb d |} in
        if negb (q_serial q =? d_pkt_serial d1)
        then decoder_fetch fuel' d1 q signals1
        else Some (fetch_pkt pkt, d1, q, signals1)
      else
        match packet_queue_get sizeof_MyAVPacketList q 1 with
        | (get_ret ret (Some node), q1) =>
            let d1 :=
              {| d_pkt := d_pkt d; d_queue := d_queue d;
                 d_pkt_serial := l_serial node; d_finished := d_finished d;
                 d_packet_pending := d_packet_pending d;
                 d_start_pts := d_start_pts d;
                 d_start_pts_tb := d_start_pts_tb d;
                 d_next_pts := d_next_pts d;
                 d_next_pts_tb := d_next_pts_tb d |} in
            if negb (q_serial q1 =? d_pkt_serial d1)
            then decoder_fetch fuel' d1 q1 signals1
            else Some (fetch_pkt (l_pkt node), d1, q1, signals1)
        | (get_ret ret None, q1) => Some (fetch_abort, d, q1, signals1)
        | (get_wait, q1) => Some (fetch_wait, d, q1, signals1)
        end
  end.

End DecoderOps.

(** ** The audio output's frame fetch *)

(** The loop [do { af = frame_queue_peek_readable(&is->sampq); if (!af)
    return -1; frame_queue_next(&is->sampq); } while (af->serial !=
    is->audioq.serial)] of [audio_decode_frame], on the sample queue and
    the audio packet queue, with no other thread touching them meanwhile.
    It ends with the frame [af], with [return -1] ([peek_NULL]) or with the
    thread asleep in [frame_queue_peek_readable]; [None] is the fuel
    running out. *)
Fixpoint audio_fetch_frame (fuel : nat) (sampq : FrameQueue)
    (audioq : PacketQueue) : option (peek_result * FrameQueue) :=
  match fuel with
  | O => None
  | S fuel' =>
      match frame_queue_peek_readable sampq audioq with
      | peek_slot af =>
          let sampq1 := frame_queue_next sampq in
          if negb (fr_serial (frame_at sampq1 af) =? q_serial audioq)
          then audio_fetch_frame fuel' sampq1 audioq
          else Some (peek_slot af, sampq1)
      | r => Some (r, sampq)
      end
  end.

(** * Specification-side definitions and example states *)

Local Open Scope Z_scope.

(** ** Packet queue *)

(** The sentinels among a list of calls, and among the events of a history. *)
Definition passes_flush (c : pq_call) : bool :=
  match c with
  | call_put _ pkt => is_flush_ref pkt
  | call_start _ => true
  | _ => false
  end.

Fixpoint flush_calls (cs : list pq_call) : Z :=
  match cs with
  | [] => 0
  | c :: cs' => (if passes_flush c then 1 else 0) + flush_calls cs'
  end.

Definition is_flush_entry (e : pq_event) : bool :=
  match e with ev_entered true _ => true | _ => false end.

Fixpoint entered_flushes (es : list pq_event) : Z :=
  match es with
  | [] => 0
  | e :: es' => (if is_flush_entry e then 1 else 0) + entered_flushes es'
  end.

Definition is_start (c : pq_call) : bool :=
  match c with call_start _ => true | _ => false end.

(** A queue as the operations leave it: the stamps of the queued nodes
    never decrease from head to tail, none exceeds the queue's serial, and
    the serial is an [int]. *)
Definition pq_wf (q : PacketQueue) : Prop :=
  StronglySorted Z.le (stamps q)
  /\ Forall (fun s => s <= q_serial q) (stamps q)
  /\ INT_MIN <= q_serial q <= INT_MAX.

(** What one call must leave true of the queue and of its event. *)
Definition step_ok (flushing : bool) (q : PacketQueue) (e : pq_event)
    (q1 : PacketQueue) : Prop :=
  pq_wf q1
  /\ q_serial q1 = q_serial q + (if is_flush_entry e then 1 else 0)
  /\ (is_flush_entry e = true -> flushing = true)
  /\ (forall f n, e = ev_entered f n ->
        l_serial n = q_serial q1 /\ stamps q1 = stamps q ++ [l_serial n])
  /\ (forall n, e = ev_got n -> stamps q = l_serial n :: stamps q1)
  /\ (forall lb, Forall (Z.le lb) (stamps q) -> lb <= q_serial q ->
        Forall (Z.le lb) (stamps q1)).

Definition is_put (c : pq_call) : bool :=
  match c with
  | call_put _ _ | call_put_nullpacket _ _ _ => true
  | _ => false
  end.

(** A data packet. *)
Definition pkt_A : AVPacket :=
  {| pkt_data := addr_buf 4096; pkt_size := 100; pkt_duration := 40;
     pkt_stream_index := 0 |}.

(** A history on a fresh queue: start, a data packet, a second sentinel,
    then two gets. *)
Definition stale_history : list pq_call :=
  [call_start true; call_put true (ref_pkt pkt_A);
   call_put true ref_flush_pkt; call_get 1; call_get 1].

Local Open Scope float_scope.

(** ** What the specification says, in its own words *)

(** "clip(x, lo, hi)" and "max(a, b)" on doubles. *)
Definition spec_clip (x lo hi : float) : float := FFMAX lo (FFMIN hi x).
Definition spec_max (a b : float) : float := FFMAX a b.

(** Master selection: "if configured AUDIO and audio present, AUDIO; else
    if configured VIDEO and video present, VIDEO; else EXTERNAL". *)
Definition spec_master_sync_type (configured : Z) (audio video : bool) : Z :=
  if (configured =? AV_SYNC_AUDIO_MASTER)%Z && audio then AV_SYNC_AUDIO_MASTER
  else if (configured =? AV_SYNC_VIDEO_MASTER)%Z && video then AV_SYNC_VIDEO_MASTER
  else AV_SYNC_EXTERNAL_CLOCK.

(** The clock a master type stands for. *)
Definition master_clock_of (s : VideoState) (ty : Z) : Clock :=
  if (ty =? AV_SYNC_VIDEO_MASTER)%Z then vidclk s
  else if (ty =? AV_SYNC_AUDIO_MASTER)%Z then audclk s
  else extclk s.

(** Video target delay, the correction applied within the discontinuity
    bound: "diff <= -threshold: max(0, delay + diff); diff >= +threshold
    and delay > 0.1: delay + diff; diff >= +threshold and delay <= 0.1:
    2 delay; unchanged otherwise", with threshold = clip(delay, 0.04, 0.1). *)
Definition spec_delay_correction (delay diff : float) : float :=
  let threshold := spec_clip delay 0.04 0.1 in
  if diff <=? - threshold then spec_max 0 (delay + diff)
  else if (threshold <=? diff) && (0.1 <? delay) then delay + diff
  else if threshold <=? diff then 2 * delay
  else delay.

(** "unchanged when |diff| > max_frame_duration", else the correction. *)
Definition spec_target_delay (delay diff max_frame_duration : float) : float :=
  if max_frame_duration <? fabs diff then delay
  else spec_delay_correction delay diff.

(** Audio compensation: "clip(n + round(diff * src_rate), 0.9 n, 1.1 n)". *)
Definition spec_wanted_nb_samples (n : Z) (diff : float) (src_rate : Z) : float :=
  spec_clip (Z2double n + Z2double (lrint (diff * Z2double src_rate)))
            (0.9 * Z2double n) (1.1 * Z2double n).

(** What the code computes there. *)
Definition clipped_nb_samples (n : Z) (diff : float) (src_rate : Z) : Z :=
  av_clip (int32 (n + double_to_int (diff * Z2double src_rate)))
          (Z.quot (int32 (n * 90)) 100) (Z.quot (int32 (n * 110)) 100).

(** [sync_clock_to_slave] copies "iff |this - slave| > 10 s and slave is
    valid". *)
Definition spec_sync_condition (clock slave_clock : float) : bool :=
  (10 <? fabs (clock - slave_clock)) && negb (isnan slave_clock).

(** ** Example states *)

(** A wall clock stopped at 100 s, a heap that never fails, an empty log. *)
Definition frozen_world : World :=
  {| wall := fun _ => 100000000%Z; reads := 0; heap := fun _ => true;
     allocs := 0; w_log := [] |}.

(** A running clock, last set at wall time 99 s, that reads [100 + drift]
    seconds at wall time 100 s. *)
Definition running_clock (drift : float) (p : serial_ptr) : Clock :=
  {| c_pts := drift + 99; c_pts_drift := drift; c_last_updated := 99;
     c_speed := 1; c_serial := 1; c_paused := 0; c_queue_serial := p |}.

(** A playing player with all three streams open, the queues started and
    empty, whose audio, video and external clocks read [100 + drift] at
    wall time 100 s. *)
Definition example_state (sync_type : Z)
    (audio_drift video_drift ext_drift : float) : VideoState :=
  {| paused := 0;
     queue_attachments_req := 0;
     seek_req := 0;
     seek_flags := 0;
     seek_pos := 0;
     seek_rel := 0;
     read_pause_return := 0;
     audclk := running_clock audio_drift p_audioq_serial;
     vidclk := running_clock video_drift p_videoq_serial;
     extclk := running_clock ext_drift p_extclk_serial;
     audio_stream := 1;
     av_sync_type := sync_type;
     audio_clock := 0;
     audio_diff_cum := 1;
     audio_diff_avg_coef := 0.794328234724281;
     audio_diff_threshold := 0.05;
     audio_diff_avg_count := 20;
     audio_st := Some {| disposition := 0 |};
     audioq := packet_queue_start 120 true (snd (packet_queue_init true true));
     audio_volume := 64;
     audio_src_freq := 48000;
     subtitle_stream := 2;
     subtitleq := packet_queue_start 120 true (snd (packet_queue_init true true));
     frame_timer := 0;
     video_stream := 0;
     video_st := Some {| disposition := 0 |};
     videoq := packet_queue_start 120 true (snd (packet_queue_init true true));
     max_frame_duration := 10;
     eof := 0;
     step := 0 |}.

(** The same player with the video stream closed. *)
Definition audio_only_state (sync_type : Z) : VideoState :=
  let s := example_state sync_type (-100) (-100) (-100) in
  {| paused := paused s;
     queue_attachments_req := queue_attachments_req s;
     seek_req := seek_req s;
     seek_flags := seek_flags s;
     seek_pos := seek_pos s;
     seek_rel := seek_rel s;
     read_pause_return := read_pause_return s;
     audclk := audclk s;
     vidclk := vidclk s;
     extclk := extclk s;
     audio_stream := audio_stream s;
     av_sync_type := av_sync_type s;
     audio_clock := audio_clock s;
     audio_diff_cum := audio_diff_cum s;
     audio_diff_avg_coef := audio_diff_avg_coef s;
     audio_diff_threshold := audio_diff_threshold s;
     audio_diff_avg_count := audio_diff_avg_count s;
     audio_st := audio_st s;
     audioq := audioq s;
     audio_volume := audio_volume s;
     audio_src_freq := audio_src_freq s;
     subtitle_stream := subtitle_stream s;
     subtitleq := subtitleq s;
     frame_timer := frame_timer s;
     video_stream := -1;
     video_st := None;
     videoq := videoq s;
     max_frame_duration := max_frame_duration s;
     eof := eof s;
     step := step s |}.

(** ** Video target delay *)

(** The difference [compute_target_delay] measures: the video clock read
    first, then the master clock. *)
Definition video_master_diff (s : VideoState) (w : World) : float :=
  let '(v, w1) := get_clock (mem_of s) (vidclk s) w in
  v - fst (get_master_clock s w1).

(** ** Audio sample compensation *)

(** The difference [synchronize_audio] measures: the audio clock read
    first, then the master clock. *)
Definition audio_master_diff (s : VideoState) (w : World) : float :=
  let '(a, w1) := get_clock (mem_of s) (audclk s) w in
  a - fst (get_master_clock s w1).

(** An external-master player whose audio clock is 2^-16 s ahead. *)
Definition slightly_ahead : VideoState :=
  example_state AV_SYNC_EXTERNAL_CLOCK (-99.9999847412109375) (-100) (-100).

(** ** Synchronising one clock to another *)

(** A clock as [init_clock] leaves it: no value yet. *)
Definition fresh_extclk : Clock :=
  fst (init_clock (running_clock 0 p_extclk_serial) p_extclk_serial frozen_world).

Definition fresh_mem : serials :=
  fun p => match p with p_extclk_serial => c_serial fresh_extclk | _ => 1%Z end.

Local Open Scope Z_scope.

(** ** Volume *)

(** A small numerical stand-in for the C library's [log] and [pow]:
    argument reduction and 24 terms of the series. *)
Definition LN2 : float := 0.6931471805599453%float.

Fixpoint atanh_sum (n : nat) (k : Z) (zpow z2 : float) : float :=
  match n with
  | O => 0%float
  | S n' => (zpow / Z2double k + atanh_sum n' (k + 2) (zpow * z2) z2)%float
  end.

Definition series_log (x : float) : float :=
  if (0 <? x)%float then
    let '(m, e) := Z.frexp x in
    let z := ((m - 1) / (m + 1))%float in
    (2 * atanh_sum 24 1 z (z * z) + Z2double e * LN2)%float
  else nan.

Fixpoint exp_sum (n : nat) (k : Z) (term r : float) : float :=
  match n with
  | O => 0%float
  | S n' => (term + exp_sum n' (k + 1) (term * r / Z2double k) r)%float
  end.

Definition series_exp (y : float) : float :=
  match double_rint (y / LN2) with
  | Some k => Z.ldexp (exp_sum 24 1 1 (y - Z2double k * LN2)) k
  | None => nan
  end.

Definition series_pow (b y : float) : float := series_exp (y * series_log b).

(** ** Seek failure *)

(** The value [avformat_seek_file] returns to the seek step in state [s]. *)
Definition seek_result (avformat_seek_file : Z -> Z -> Z -> Z -> Z -> Z)
    (s : VideoState) : Z :=
  avformat_seek_file (-1)
    (if seek_rel s >? 0 then int64 (int64 (seek_pos s - seek_rel s) + 2)
     else INT64_MIN)
    (seek_pos s)
    (if seek_rel s <? 0 then int64 (int64 (seek_pos s - seek_rel s) - 2)
     else INT64_MAX)
    (seek_flags s).

(** The request consumed: what the seek step does to the flags whether or
    not the seek succeeded. *)
Definition request_consumed (s : VideoState) : VideoState :=
  set_eof 0 (set_queue_attachments_req 1 (set_seek_req 0 s)).

(** A container whose seek always fails. *)
Definition failing_seek (_ _ _ _ _ : Z) : Z := -1.

(** A playing player with a seek pending. *)
Definition seek_pending : VideoState :=
  set_seek_req 1 (example_state AV_SYNC_AUDIO_MASTER (-100) (-100) (-100)).

(** ** Rounding of binary64 sums *)

Definition b2z (b : bool) : Z := if b then 1 else 0.

(** What [k] right shifts of the mantissa [m] leave in a [shr_record]:
    the quotient, the bit just shifted out and whether anything below it
    was nonzero. *)
Definition shr_inv (m k : Z) (rec : shr_record) : Prop :=
  0 <= shr_m rec
  /\ exists low,
       2 * m = shr_m rec * 2 ^ (k + 1) + b2z (shr_r rec) * 2 ^ k + low
       /\ 0 <= low < 2 ^ k
       /\ (shr_s rec = true <-> low <> 0).

(** The exact value of a finite float, in units of 2^-1074 (the spacing of
    the subnormals, of which every finite binary64 number is a multiple). *)
Definition SFticks (x : spec_float) : Z :=
  match x with
  | S754_finite s m e => cond_Zopp s (Zpos m * 2 ^ (e + 1074))
  | _ => 0
  end.

Definition SFfinite (x : spec_float) : bool :=
  match x with
  | S754_zero _ | S754_finite _ _ _ => true
  | _ => false
  end.

(** ** Doubles of moderate size *)

(** The exact value of a double in units of 2^-1074, and whether it is
    a number (neither NaN nor infinite). *)
Definition ticks (x : float) : Z := SFticks (Prim2SF x).
Definition finite (x : float) : bool := SFfinite (Prim2SF x).

(** At most 2^31 in absolute value (2^31 s is about 68 years). *)
Definition within31 (x : float) : Prop :=
  (fabs x <=? 2147483648)%float = true.

(** ** Continuity of a clock across a speed change *)

(** [x] and [y] are numbers whose exact difference is at most one
    microsecond (10^-6 s is 2^1074 / 10^6 ticks). *)
Definition within_1us (x y : float) : Prop :=
  finite x = true /\ finite y = true
  /\ 1000000 * Z.abs (ticks x - ticks y) <= 2 ^ 1074.

(** The new speed of the witness, and a clock that reads 6 s at wall time
    100 s. *)
Definition faster : float := 1.01.
Definition clock_at_6 : Clock := running_clock (-94) p_audioq_serial.

Local Open Scope Z_scope.

(** ** Doubles of moderate size, products and quotients *)

(** A number, not zero, between 2^-300 and 2^300 in absolute value. *)
Definition SFmoderate (x : spec_float) : Prop :=
  SFfinite x = true /\ 2 ^ 774 <= Z.abs (SFticks x) <= 2 ^ 1374.

(** The four positions of an exact value between a mantissa [m] and
    [m + 1], in quarters. *)
Definition loc_code (l : location) : Z :=
  match l with
  | loc_Exact => 0
  | loc_Inexact Lt => 1
  | loc_Inexact Eq => 2
  | loc_Inexact Gt => 3
  end.

(** A number between 2^-30 and 2^30 in absolute value. *)
Definition SFmid (x : spec_float) : Prop :=
  SFfinite x = true /\ 2 ^ 1044 <= Z.abs (SFticks x) <= 2 ^ 1104.

(** ** The value of a double as a real number *)

(** The exact value of a double ([ticks] counts units of 2^-1074). *)
Definition double_value (x : float) : R :=
  (IZR (ticks x) / IZR (2 ^ 1074))%R.

(** 2^-51, which bounds the relative error of one operation on doubles
    of moderate size as far as the volume step needs. *)
Definition ulp51 : R := (/ 2251799813685248)%R.

(** ** Accuracy of the C library's [log] and [pow] *)

(** [l] is a number within 1/1024 of the natural logarithm of [x], and
    [p] a number within a relative 1/1024 of [b] to the power [y]. *)
Definition log_close (l x : float) : Prop :=
  finite l = true
  /\ (Rabs (double_value l - ln (double_value x)) <= / 1024)%R.

Definition pow_close (p b y : float) : Prop :=
  finite p = true
  /\ (Rabs (double_value p - Rpower (double_value b) (double_value y))
      <= Rpower (double_value b) (double_value y) / 1024)%R.

(** The three calls [update_volume] makes for the volume [volume] and the
    sign [sign], [log(volume / 128)], [log(10)] and
    [pow(10.0, (volume_level + sign * step) / 20.0)], return such
    numbers. *)
Definition libm_accurate (log : float -> float) (pow : float -> float -> float)
    (volume sign : Z) : Prop :=
  let x := (Z2double volume / Z2double SDL_MIX_MAXVOLUME)%float in
  let y := ((volume_level log volume + Z2double sign * SDL_VOLUME_STEP) / 20.0)%float in
  log_close (log x) x /\ log_close (log 10%float) 10%float
  /\ pow_close (pow 10.0%float y) 10.0%float y.

(** Volumes 1 to 127. *)
Definition inner_volumes : list Z := map Z.of_nat (seq 1 127).

(** ** Checking a library at one argument *)

(** A lower bound of [exp (n / d)] in fixed point with [P] fractional
    bits: [1 + n / (d * 2^K)], rounded down, squared [K] times, each
    square rounded down. *)
Definition sq_down (P x : Z) : Z := x * x / 2 ^ P.

Fixpoint pow2k_down (P : Z) (K : nat) (x : Z) : Z :=
  match K with
  | O => x
  | S k => sq_down P (pow2k_down P k x)
  end.

Definition exp_floor (P : Z) (K : nat) (n d : Z) : Z :=
  pow2k_down P K (2 ^ P * (d * 2 ^ Z.of_nat K + n) / (d * 2 ^ Z.of_nat K)).

Local Open Scope Z_scope.

(** ** Further definitions *)

(** ** Bookkeeping of a packet queue *)

(** The bytes and the duration the queued nodes account for. *)
Fixpoint nodes_size (sz : Z) (l : list MyAVPacketList) : Z :=
  match l with
  | [] => 0
  | n :: l' => pkt_size (l_pkt n) + sz + nodes_size sz l'
  end.

Fixpoint nodes_duration (l : list MyAVPacketList) : Z :=
  match l with
  | [] => 0
  | n :: l' => pkt_duration (l_pkt n) + nodes_duration l'
  end.

(** The three counters of a queue agree with its list of nodes, as far as
    an [int] and an [int64_t] can tell. *)
Definition pq_counted (sz : Z) (q : PacketQueue) : Prop :=
  q_nb_packets q = int32 (Z.of_nat (length (q_pkts q)))
  /\ q_size q = int32 (nodes_size sz (q_pkts q))
  /\ q_duration q = int64 (nodes_duration (q_pkts q)).

(** The nodes that entered and the nodes that were delivered in a
    history, in order. *)
Fixpoint entered_nodes (es : list pq_event) : list MyAVPacketList :=
  match es with
  | [] => []
  | ev_entered _ n :: es' => n :: entered_nodes es'
  | _ :: es' => entered_nodes es'
  end.

Fixpoint got_nodes (es : list pq_event) : list MyAVPacketList :=
  match es with
  | [] => []
  | ev_got n :: es' => n :: got_nodes es'
  | _ :: es' => got_nodes es'
  end.

Definition is_flush_call (c : pq_call) : bool :=
  match c with call_flush => true | _ => false end.

(** A second data packet, and a history with puts and gets interleaved. *)
Definition pkt_B : AVPacket :=
  {| pkt_data := addr_buf 8192; pkt_size := 60; pkt_duration := 20;
     pkt_stream_index := 0 |}.

Definition busy_history : list pq_call :=
  [call_start true; call_put true (ref_pkt pkt_A); call_get 1;
   call_put true (ref_pkt pkt_B); call_put_nullpacket true 0 7; call_get 0;
   call_get 0].

(** ** Frame queues *)

(** A frame queue as [frame_queue_init] and the operations leave it: the
    indices are inside the part of the array in use, the write index is
    [size] slots after the read index, and [rindex_shown] is a flag that
    is set only in a queue that keeps the last frame and only while that
    frame is in the queue. *)
Definition fq_wf (f : FrameQueue) : Prop :=
  0 < fq_max_size f <= FRAME_QUEUE_SIZE
  /\ length (fq_queue f) = Z.to_nat FRAME_QUEUE_SIZE
  /\ 0 <= fq_rindex f < fq_max_size f
  /\ 0 <= fq_size f <= fq_max_size f
  /\ fq_windex f = (fq_rindex f + fq_size f) mod fq_max_size f
  /\ 0 <= fq_rindex_shown f <= 1
  /\ fq_rindex_shown f <= fq_size f
  /\ (fq_keep_last f = 0 -> fq_rindex_shown f = 0).

(** The frames held, oldest first: [size] slots from [rindex], wrapping
    at [max_size]. *)
Definition fq_frames (f : FrameQueue) : list Frame :=
  map (fun k => frame_at f ((fq_rindex f + Z.of_nat k) mod fq_max_size f))
      (seq 0 (Z.to_nat (fq_size f))).

(** The frames not shown yet. *)
Definition fq_readable (f : FrameQueue) : list Frame :=
  skipn (Z.to_nat (fq_rindex_shown f)) (fq_frames f).

(** The producer's assignment [*vp = x] through a [Frame *vp] it was
    handed. *)
Definition frame_write (f : FrameQueue) (i : Z) (x : Frame) : FrameQueue :=
  with_queue f (store (fq_queue f) (Z.to_nat i) x).

(** A started, empty video packet queue, the picture queue of
    [stream_open] and three decoded pictures. *)
Definition started_queue : PacketQueue :=
  packet_queue_start 120 true (snd (packet_queue_init true true)).

Definition fresh_pictq : FrameQueue :=
  snd (frame_queue_init true true (fun _ => true) p_videoq
         VIDEO_PICTURE_QUEUE_SIZE 1).

Definition picture (k : Z) : Frame :=
  {| fr_frame := frame_buf (Some k); fr_sub := None; fr_serial := 1;
     fr_pts := Z2double k; fr_duration := 1%float; fr_pos := 1000 * k;
     fr_width := 640; fr_height := 480; fr_format := 0;
     fr_sar := {| num := 1; den := 1 |}; fr_uploaded := 0; fr_flip_v := 0 |}.

Definition put_picture (k : Z) (f : FrameQueue) : FrameQueue :=
  frame_queue_push (frame_write f (fq_windex f) (picture k)).

(** The picture queue holding pictures 1 and 2, none shown; and the same
    after one [frame_queue_next]. *)
Definition two_pictures : FrameQueue := put_picture 2 (put_picture 1 fresh_pictq).
Definition one_shown : FrameQueue := frame_queue_next two_pictures.

(** *** Histories of one frame queue

    The producer asks for a writable slot, fills it with [x] and pushes;
    the consumer asks for a readable frame and moves on.  Either is turned
    away when the peek does not hand out a slot. *)
Inductive fq_op : Type :=
| op_produce (x : Frame)
| op_consume.

Inductive fq_event : Type :=
| fe_pushed (x : Frame)
| fe_shown (x : Frame)
| fe_turned_away (r : peek_result).

Definition fq_exec (pktq : PacketQueue) (o : fq_op) (f : FrameQueue)
    : fq_event * FrameQueue :=
  match o with
  | op_produce x =>
      match frame_queue_peek_writable f pktq with
      | peek_slot i => (fe_pushed x, frame_queue_push (frame_write f i x))
      | r => (fe_turned_away r, f)
      end
  | op_consume =>
      match frame_queue_peek_readable f pktq with
      | peek_slot i => (fe_shown (frame_at f i), frame_queue_next f)
      | r => (fe_turned_away r, f)
      end
  end.

Fixpoint fq_run (pktq : PacketQueue) (os : list fq_op) (f : FrameQueue)
    : list fq_event * FrameQueue :=
  match os with
  | [] => ([], f)
  | o :: os' =>
      let '(e, f1) := fq_exec pktq o f in
      let '(es, f2) := fq_run pktq os' f1 in
      (e :: es, f2)
  end.

Fixpoint pushed_frames (es : list fq_event) : list Frame :=
  match es with
  | [] => []
  | fe_pushed x :: es' => x :: pushed_frames es'
  | _ :: es' => pushed_frames es'
  end.

Fixpoint shown_frames (es : list fq_event) : list Frame :=
  match es with
  | [] => []
  | fe_shown x :: es' => x :: shown_frames es'
  | _ :: es' => shown_frames es'
  end.

(** Four pictures offered to the three-slot picture queue, then shown. *)
Definition picture_history : list fq_op :=
  [op_produce (picture 1); op_produce (picture 2); op_consume;
   op_produce (picture 3); op_produce (picture 4); op_produce (picture 5);
   op_consume; op_consume; op_consume; op_consume].

(** ** The decoder's packet fetch *)

(** The nodes of [l] from the first one stamped [s] on. *)
Fixpoint from_current (s : Z) (l : list MyAVPacketList) : list MyAVPacketList :=
  match l with
  | [] => []
  | n :: l' => if l_serial n =? s then l else from_current s l'
  end.

(** How the fetch must end, and the nodes it must leave queued: the
    pending packet when it is of the current serial; else -1 on an aborted
    queue; else the first queued packet of the current serial, those ahead
    of it dropped; else the thread waits on the emptied queue. *)
Definition fetch_outcome (d : Decoder) (q : PacketQueue)
    : fetch_result * list MyAVPacketList :=
  if negb (d_packet_pending d =? 0) && (q_serial q =? d_pkt_serial d)
  then (fetch_pkt (d_pkt d), q_pkts q)
  else if negb (q_abort_request q =? 0) then (fetch_abort, q_pkts q)
  else
    match from_current (q_serial q) (q_pkts q) with
    | n :: rest => (fetch_pkt (l_pkt n), rest)
    | [] => (fetch_wait, [])
    end.

(** The queue of [stale_history] before its gets: the start sentinel and
    a packet of serial 1, then the sentinel of serial 2. *)
Definition reseeked_queue : PacketQueue :=
  snd (run 120 (firstn 3 stale_history) (snd (packet_queue_init true true))).

(** ** Clocks *)

(** A stream is open and its packet queue is nearly empty; every open
    stream has a well filled queue. *)
Definition starving (s : VideoState) : bool :=
  ((video_stream s >=? 0) && (q_nb_packets (videoq s) <=? EXTERNAL_CLOCK_MIN_FRAMES))
  || ((audio_stream s >=? 0) && (q_nb_packets (audioq s) <=? EXTERNAL_CLOCK_MIN_FRAMES)).

Definition flooded (s : VideoState) : bool :=
  negb (starving s)
  && ((video_stream s <? 0) || (q_nb_packets (videoq s) >? EXTERNAL_CLOCK_MAX_FRAMES))
  && ((audio_stream s <? 0) || (q_nb_packets (audioq s) >? EXTERNAL_CLOCK_MAX_FRAMES)).

(** The example player as a realtime source would have it: twelve
    packets in each queue. *)
Definition twelve_queued (q : PacketQueue) : PacketQueue :=
  {| q_pkts := q_pkts q; q_nb_packets := 12; q_size := q_size q;
     q_duration := q_duration q; q_abort_request := q_abort_request q;
     q_serial := q_serial q |}.

Definition realtime_state : VideoState :=
  let s := example_state AV_SYNC_EXTERNAL_CLOCK (-100) (-100) (-100) in
  set_audioq (twelve_queued (audioq s)) (set_videoq (twelve_queued (videoq s)) s).

(** ** A seek that succeeds *)

(** What the seek step leaves of the packet queue of a stream: for an
    open stream the queue is flushed and the sentinel is put. *)
Definition reseeked (sz stream : Z) (q : PacketQueue) : PacketQueue :=
  if stream >=? 0
  then snd (packet_queue_put sz true (packet_queue_flush q) ref_flush_pkt)
  else q.

(** A started queue restarted at the sentinel: nothing but the flush
    packet, stamped with the next serial. *)
Definition at_sentinel (sz : Z) (q q' : PacketQueue) : Prop :=
  q_pkts q' = [{| l_pkt := flush_pkt; l_serial := q_serial q + 1 |}]
  /\ q_serial q' = q_serial q + 1
  /\ q_nb_packets q' = 1 /\ q_size q' = int32 sz /\ q_duration q' = 0
  /\ q_abort_request q' = 0.

(** A container whose seek always succeeds, and a seek to 30 s pending
    in the playing example. *)
Definition working_seek (_ _ _ _ _ : Z) : Z := 0.

Definition seek_to_30 : VideoState :=
  stream_seek (example_state AV_SYNC_AUDIO_MASTER (-100) (-100) (-100))
              30000000 10000000 0.

(** ** Signs of doubles *)

(** Not below zero: anything but a negative number or minus infinity
    (NaN and the two zeros included). *)
Definition SFnot_neg (x : spec_float) : bool :=
  match x with
  | S754_finite true _ _ | S754_infinity true => false
  | _ => true
  end.

(** ** Frames *)

(** Two consecutive pictures one second apart, and a pair across a
    timestamp jump. *)
Definition jump_picture : Frame :=
  {| fr_frame := frame_buf (Some 9); fr_sub := None; fr_serial := 1;
     fr_pts := 5000%float; fr_duration := 1%float; fr_pos := 9000;
     fr_width := 640; fr_height := 480; fr_format := 0;
     fr_sar := {| num := 1; den := 1 |}; fr_uploaded := 0; fr_flip_v := 0 |}.

(** ** The audio output's frame fetch *)

(** The frames of [l] from the first one of serial [s] on. *)
Fixpoint frames_from_current (s : Z) (l : list Frame) : list Frame :=
  match l with
  | [] => []
  | x :: l' => if fr_serial x =? s then l else frames_from_current s l'
  end.

(** The sample queue of [stream_open] holding two frames decoded before
    a seek (serial 1) and one decoded after it (serial 2), and the audio
    packet queue after that seek. *)
Definition fresh_sampq : FrameQueue :=
  snd (frame_queue_init true true (fun _ => true) p_audioq SAMPLE_QUEUE_SIZE 1).

Definition sample (k serial : Z) : Frame :=
  {| fr_frame := frame_buf (Some k); fr_sub := None; fr_serial := serial;
     fr_pts := Z2double k; fr_duration := 1%float; fr_pos := 1000 * k;
     fr_width := 0; fr_height := 0; fr_format := 0;
     fr_sar := {| num := 0; den := 0 |}; fr_uploaded := 0; fr_flip_v := 0 |}.

Definition put_sample (k serial : Z) (f : FrameQueue) : FrameQueue :=
  frame_queue_push (frame_write f (fq_windex f) (sample k serial)).

Definition stale_samples : FrameQueue :=
  put_sample 3 2 (put_sample 2 1 (put_sample 1 1 fresh_sampq)).

(** ** Resuming *)

(** The example player paused: the four flags set. *)
Definition paused_state : VideoState :=
  fst (stream_toggle_pause
         (example_state AV_SYNC_EXTERNAL_CLOCK (-100) (-100) (-100)) frozen_world).

(** * Properties *)

Local Open Scope Z_scope.

(** ** Packet queue *)

(** Name the 30 fields of a player state. *)
Ltac destruct_state s :=
  destruct s as [f0 f1 f2 f3 f4 f5 f6 f7 f8 f9 f10 f11 f12 f13 f14 f15 f16 f17 f18 f19 f20 f21 f22 f23 f24 f25 f26 f27 f28 f29].

Lemma int32_id x : INT_MIN <= x <= INT_MAX -> int32 x = x.
Proof.
  unfold int32, wrap, INT_MIN, INT_MAX. intros H.
  change (2 ^ (32 - 1)) with 2147483648 in *.
  change (2 ^ 32) with 4294967296.
  change (2 ^ 31) with 2147483648 in *.
  rewrite Z.mod_small; lia.
Qed.

Lemma last_Some_snoc {A} (l : list A) (x : A) :
  last (map Some (l ++ [x])) None = Some x.
Proof.
  rewrite map_app. simpl. apply last_last.
Qed.

Lemma sorted_snoc (l : list Z) (x : Z) :
  StronglySorted Z.le l -> Forall (fun s => s <= x) l ->
  StronglySorted Z.le (l ++ [x]).
Proof.
  induction l as [|a l IH]; simpl; intros Hs Hb.
  - repeat constructor.
  - inversion Hs; subst. inversion Hb; subst. constructor; [auto |].
    apply Forall_app; split; [assumption | repeat constructor; assumption].
Qed.

Section PacketQueueFacts.

Variable sz : Z.

Lemma put_private_aborted ok q pkt :
  q_abort_request q <> 0 -> packet_queue_put_private sz ok q pkt = (-1, q).
Proof.
  intros H. unfold packet_queue_put_private.
  destruct (Z.eqb_spec (q_abort_request q) 0); [contradiction | reflexivity].
Qed.

Lemma step_ok_quiet fl q e :
  pq_wf q -> is_flush_entry e = false ->
  (forall f n, e <> ev_entered f n) -> (forall n, e <> ev_got n) ->
  step_ok fl q e q.
Proof.
  intros Hwf He Hne Hng. unfold step_ok. rewrite He.
  split; [assumption |]. split; [lia |]. split; [discriminate |].
  split; [intros f n H; destruct (Hne f n H) |].
  split; [intros n H; destruct (Hng n H) | auto].
Qed.

Lemma put_private_step ok q pkt ret q' :
  pq_wf q ->
  q_serial q + (if is_flush_ref pkt then 1 else 0) <= INT_MAX ->
  packet_queue_put_private sz ok q pkt = (ret, q') ->
  step_ok (is_flush_ref pkt) q (put_event (is_flush_ref pkt) ret q') q'.
Proof.
  intros Hwf Hov Hp. unfold packet_queue_put_private in Hp.
  destruct (negb (q_abort_request q =? 0)).
  { inversion Hp; subst. apply step_ok_quiet; auto; discriminate. }
  destruct (negb ok).
  { inversion Hp; subst. apply step_ok_quiet; auto; discriminate. }
  inversion Hp; subst; clear Hp. unfold put_event. simpl Z.eqb. cbv iota.
  cbn [q_pkts]. rewrite last_Some_snoc.
  destruct Hwf as (Hs & Hb & Hr).
  set (s' := if is_flush_ref pkt then int32 (q_serial q + 1) else q_serial q).
  assert (Hs' : s' = q_serial q + (if is_flush_ref pkt then 1 else 0)).
  { unfold s'. destruct (is_flush_ref pkt); [apply int32_id; lia | lia]. }
  assert (Hle : q_serial q <= s') by (destruct (is_flush_ref pkt); lia).
  unfold step_ok, pq_wf, stamps in *. cbn [q_pkts q_serial]. rewrite map_app.
  cbn [map l_serial is_flush_entry].
  split; [split; [| split] |].
  - apply sorted_snoc; [assumption |].
    eapply Forall_impl; [| exact Hb]. simpl. intros a Ha. lia.
  - apply Forall_app; split.
    + eapply Forall_impl; [| exact Hb]. simpl. intros a Ha. lia.
    + constructor; [lia | constructor].
  - lia.
  - split; [rewrite Hs'; destruct (is_flush_ref pkt); reflexivity |].
    split; [destruct (is_flush_ref pkt); simpl; congruence |].
    split; [intros f n H; inversion H; subst; split; reflexivity |].
    split; [discriminate |].
    intros lb Hl Hlb. apply Forall_app; split; [assumption |].
    constructor; [lia | constructor].
Qed.

(** One call on a well-formed queue. *)
Lemma exec_step c q e q1 :
  pq_wf q ->
  q_serial q + (if passes_flush c then 1 else 0) <= INT_MAX ->
  exec sz c q = (e, q1) ->
  step_ok (passes_flush c) q e q1.
Proof.
  intros Hwf Hov He.
  destruct c as [ok pkt | ok si junk | block | | | ok]; simpl in He.
  - unfold packet_queue_put in He.
    destruct (packet_queue_put_private sz ok q pkt) as [ret q'] eqn:Hp.
    inversion He; subst. eapply put_private_step; eauto.
  - unfold packet_queue_put_nullpacket, packet_queue_put in He.
    match type of He with
    | context [packet_queue_put_private sz ok q ?r] =>
        destruct (packet_queue_put_private sz ok q r) as [ret q'] eqn:Hp
    end.
    inversion He; subst.
    apply put_private_step in Hp; [exact Hp | assumption | exact Hov].
  - unfold packet_queue_get in He.
    destruct (negb (q_abort_request q =? 0)).
    { inversion He; subst. apply step_ok_quiet; auto; discriminate. }
    destruct (q_pkts q) as [|n0 rest] eqn:Hq.
    { destruct (block =? 0); inversion He; subst;
        apply step_ok_quiet; auto; discriminate. }
    inversion He; subst; clear He.
    destruct Hwf as (Hs & Hb & Hr).
    unfold step_ok, pq_wf, stamps in *. rewrite Hq in *. simpl in *.
    inversion Hs; subst. inversion Hb; subst.
    split; [split; [| split]; assumption |].
    split; [lia |]. split; [discriminate |]. split; [discriminate |].
    split; [intros n Hn; inversion Hn; subst; reflexivity |].
    intros lb Hl _. inversion Hl; assumption.
  - inversion He; subst. destruct Hwf as (Hs & Hb & Hr).
    unfold step_ok, pq_wf, stamps. simpl.
    split; [split; [constructor | split; [constructor | assumption]] |].
    split; [lia |]. split; [discriminate |]. split; [discriminate |].
    split; [discriminate |]. intros; constructor.
  - inversion He; subst. destruct Hwf as (Hs & Hb & Hr).
    unfold step_ok, pq_wf, stamps in *. simpl.
    split; [split; [| split]; assumption |].
    split; [lia |]. split; [discriminate |]. split; [discriminate |].
    split; [discriminate |]. auto.
  - unfold packet_queue_start in He.
    set (q0 := {| q_pkts := q_pkts q; q_nb_packets := q_nb_packets q;
                  q_size := q_size q; q_duration := q_duration q;
                  q_abort_request := 0; q_serial := q_serial q |}) in *.
    assert (Hwf0 : pq_wf q0) by exact Hwf.
    destruct (packet_queue_put_private sz ok q0 ref_flush_pkt) as [ret q'] eqn:Hp.
    pose proof (put_private_step ok q0 ref_flush_pkt ret q' Hwf0 Hov Hp) as Hstep.
    simpl in He.
    assert (Hev : (if ok then put_event true 0 q' else ev_rejected (-1))
                  = put_event true ret q').
    { unfold packet_queue_put_private in Hp. simpl in Hp.
      destruct ok; simpl in Hp; inversion Hp; subst; reflexivity. }
    rewrite Hev in He. inversion He; subst. exact Hstep.
Qed.

Lemma entered_flushes_nonneg es : 0 <= entered_flushes es.
Proof.
  induction es as [|e es IH]; simpl; [lia |].
  destruct (is_flush_entry e); lia.
Qed.

Lemma entered_flushes_hit es : forall (k j : nat) e,
  (k <= j)%nat -> nth_error es k = Some e -> is_flush_entry e = true ->
  1 <= entered_flushes (firstn (S j) es).
Proof.
  induction es as [|a es IH]; intros k j e Hkj Hk Hf.
  - destruct k; discriminate.
  - change (firstn (S j) (a :: es)) with (a :: firstn j es).
    cbn [entered_flushes]. destruct k as [|k].
    + simpl in Hk. inversion Hk; subst. rewrite Hf.
      pose proof (entered_flushes_nonneg (firstn j es)). lia.
    + destruct j as [|j]; [lia |]. simpl in Hk.
      pose proof (IH k j e ltac:(lia) Hk Hf).
      destruct (is_flush_entry a); lia.
Qed.

Lemma entered_flushes_prefix es : forall (i k j : nat) e,
  (i < k <= j)%nat -> nth_error es k = Some e -> is_flush_entry e = true ->
  entered_flushes (firstn (S i) es) + 1 <= entered_flushes (firstn (S j) es).
Proof.
  induction es as [|a es IH]; intros i k j e Hik Hk Hf.
  - destruct k; discriminate.
  - destruct k as [|k]; [lia |]. destruct j as [|j]; [lia |].
    simpl in Hk.
    change (firstn (S (S j)) (a :: es)) with (a :: firstn (S j) es).
    change (firstn (S i) (a :: es)) with (a :: firstn i es).
    cbn [entered_flushes]. destruct i as [|i].
    + pose proof (entered_flushes_hit es k j e ltac:(lia) Hk Hf).
      change (entered_flushes (firstn 0 es)) with 0. lia.
    + pose proof (IH i k j e ltac:(lia) Hk Hf). lia.
Qed.

Lemma run_facts cs : forall q es q',
  pq_wf q ->
  q_serial q + flush_calls cs <= INT_MAX ->
  run sz cs q = (es, q') ->
  pq_wf q'
  /\ q_serial q' = q_serial q + entered_flushes es
  /\ (forall i f n, nth_error es i = Some (ev_entered f n) ->
        l_serial n = q_serial q + entered_flushes (firstn (S i) es))
  /\ (forall lb n, Forall (Z.le lb) (stamps q) -> lb <= q_serial q ->
        In (ev_got n) es -> lb <= l_serial n)
  /\ (forall i j n1 n2, (i < j)%nat ->
        nth_error es i = Some (ev_got n1) ->
        nth_error es j = Some (ev_got n2) ->
        l_serial n1 <= l_serial n2).
Proof.
  induction cs as [|c cs IH]; intros q es q' Hwf Hov Hrun; simpl in Hrun.
  - inversion Hrun; subst. simpl.
    split; [assumption |]. split; [lia |].
    split; [intros [|i] f n H; discriminate |].
    split; [intros lb n _ _ [] |].
    intros [|i] j n1 n2 _ H; discriminate.
  - destruct (exec sz c q) as [e q1] eqn:He.
    destruct (run sz cs q1) as [es1 q2] eqn:Hr.
    inversion Hrun; subst; clear Hrun.
    simpl in Hov.
    assert (Hfc : 0 <= flush_calls cs).
    { clear. induction cs as [|a l IH]; simpl; [lia |].
      destruct (passes_flush a); lia. }
    assert (Hov1 : q_serial q + (if passes_flush c then 1 else 0) <= INT_MAX)
      by (destruct (passes_flush c); lia).
    destruct (exec_step c q e q1 Hwf Hov1 He)
      as (Hwf1 & Hser & Hfl & Hent & Hgot & Hlb).
    assert (Hov2 : q_serial q1 + flush_calls cs <= INT_MAX).
    { rewrite Hser. destruct (is_flush_entry e) eqn:Hfe.
      - rewrite (Hfl eq_refl) in Hov. lia.
      - destruct (passes_flush c); lia. }
    destruct (IH q1 es1 q' Hwf1 Hov2 Hr) as (Hwf' & Hs' & He' & Hl' & Hm').
    assert (Hle1 : q_serial q <= q_serial q1)
      by (rewrite Hser; destruct (is_flush_entry e); lia).
    split; [assumption |].
    split; [simpl; lia |].
    split; [| split].
    + intros [|i] f n Hn.
      * simpl in Hn. inversion Hn; subst.
        destruct (Hent f n eq_refl) as [H1 _]. rewrite H1, Hser.
        simpl firstn. cbn [entered_flushes]. lia.
      * simpl in Hn. rewrite (He' i f n Hn), Hser.
        change (firstn (S (S i)) (e :: es1)) with (e :: firstn (S i) es1).
        cbn [entered_flushes]. lia.
    + intros lb n Hall Hle [Hin | Hin].
      * subst e. rewrite (Hgot n eq_refl) in Hall. inversion Hall; assumption.
      * apply (Hl' lb n); [apply Hlb; assumption | lia | assumption].
    + intros [|i] [|j] n1 n2 Hij H1 H2; try lia; simpl in H1, H2.
      * inversion H1; subst.
        destruct Hwf as (Hs & Hb & _). rewrite (Hgot n1 eq_refl) in Hs, Hb.
        inversion Hs; subst. inversion Hb; subst.
        apply (Hl' (l_serial n1) n2); [assumption | lia |].
        eapply nth_error_In; eassumption.
      * apply (Hm' i j n1 n2); [lia | assumption | assumption].
Qed.

Lemma run_after_empty_flush cs : forall q es q' (k j : nat) nF n,
  pq_wf q ->
  q_serial q + flush_calls cs <= INT_MAX ->
  run sz cs q = (es, q') ->
  (k < j)%nat ->
  nth_error es k = Some (ev_entered true nF) ->
  q_pkts (snd (run sz (firstn k cs) q)) = [] ->
  nth_error es j = Some (ev_got n) ->
  l_serial nF <= l_serial n.
Proof.
  induction cs as [|c cs IH]; intros q es q' k j nF n Hwf Hov Hrun Hkj Hk Hemp Hj;
    simpl in Hrun.
  - inversion Hrun; subst. destruct k; discriminate.
  - destruct (exec sz c q) as [e q1] eqn:He.
    destruct (run sz cs q1) as [es1 q2] eqn:Hr.
    inversion Hrun; subst; clear Hrun. simpl in Hov.
    assert (Hfc : 0 <= flush_calls cs).
    { clear. induction cs as [|a l IH]; simpl; [lia |].
      destruct (passes_flush a); lia. }
    assert (Hov1 : q_serial q + (if passes_flush c then 1 else 0) <= INT_MAX)
      by (destruct (passes_flush c); lia).
    destruct (exec_step c q e q1 Hwf Hov1 He)
      as (Hwf1 & Hser & Hfl & Hent & Hgot & Hlb).
    assert (Hov2 : q_serial q1 + flush_calls cs <= INT_MAX).
    { rewrite Hser. destruct (is_flush_entry e) eqn:Hfe.
      - rewrite (Hfl eq_refl) in Hov. lia.
      - destruct (passes_flush c); lia. }
    destruct j as [|j]; [lia |]. simpl in Hj.
    destruct k as [|k].
    + simpl in Hk, Hemp. inversion Hk; subst.
      destruct (Hent true nF eq_refl) as [H1 H2].
      unfold stamps in H2. rewrite Hemp in H2. simpl in H2.
      destruct (run_facts cs q1 es1 q' Hwf1 Hov2 Hr) as (_ & _ & _ & Hl & _).
      apply (Hl (l_serial nF) n).
      * unfold stamps. rewrite H2. repeat constructor. lia.
      * lia.
      * eapply nth_error_In; eassumption.
    + simpl in Hk. simpl in Hemp. rewrite He in Hemp.
      destruct (run sz (firstn k cs) q1) as [esk qk] eqn:Hrk. simpl in Hemp.
      apply (IH q1 es1 q' k j nF n); try assumption; try lia.
      rewrite Hrk. exact Hemp.
Qed.

(** C1 (amended).  On a well-formed queue whose [int] serial does not
    overflow, over any history of calls: the serial ends at the initial
    value plus the number of flush sentinels that entered; every node that
    entered is stamped with the initial serial plus the number of sentinels
    entered up to and including itself (so the sentinel is stamped after the
    increment, any other packet with the serial current at its enqueue);
    a node enqueued before a sentinel has a strictly lower stamp than any
    node enqueued from that sentinel on; [packet_queue_get] delivers in
    queue order, so the delivered stamps never decrease; and when the
    sentinel entered an empty queue, no node with a lower stamp is delivered
    after it.  (Nodes still queued when a sentinel enters are delivered
    with their lower stamps.) *)
Theorem serial_monotonicity q cs es q' :
  pq_wf q ->
  q_serial q + flush_calls cs <= INT_MAX ->
  run sz cs q = (es, q') ->
  q_serial q' = q_serial q + entered_flushes es
  /\ (forall (i : nat) f n, nth_error es i = Some (ev_entered f n) ->
        l_serial n = q_serial q + entered_flushes (firstn (S i) es))
  /\ (forall (i k j : nat) f1 n1 nk f2 n2, (i < k <= j)%nat ->
        nth_error es i = Some (ev_entered f1 n1) ->
        nth_error es k = Some (ev_entered true nk) ->
        nth_error es j = Some (ev_entered f2 n2) ->
        l_serial n1 < l_serial n2)
  /\ (forall (i j : nat) n1 n2, (i < j)%nat ->
        nth_error es i = Some (ev_got n1) ->
        nth_error es j = Some (ev_got n2) ->
        l_serial n1 <= l_serial n2)
  /\ (forall (k j : nat) nF n, (k < j)%nat ->
        nth_error es k = Some (ev_entered true nF) ->
        q_pkts (snd (run sz (firstn k cs) q)) = [] ->
        nth_error es j = Some (ev_got n) ->
        l_serial nF <= l_serial n).
Proof.
  intros Hwf Hov Hrun.
  destruct (run_facts cs q es q' Hwf Hov Hrun) as (_ & Hser & Hent & _ & Hmono).
  split; [assumption |]. split; [assumption |]. split; [| split].
  - intros i k j f1 n1 nk f2 n2 Hikj H1 Hk H2.
    rewrite (Hent i f1 n1 H1), (Hent j f2 n2 H2).
    pose proof (entered_flushes_prefix es i k j _ Hikj Hk eq_refl). lia.
  - exact Hmono.
  - intros k j nF n Hkj Hk Hemp Hj.
    exact (run_after_empty_flush cs q es q' k j nF n Hwf Hov Hrun Hkj Hk Hemp Hj).
Qed.

(** C9.  [packet_queue_init] leaves the queue aborted with serial 0; as
    long as [packet_queue_start] is not called, every put on it returns a
    negative value and the queue stays as it was initialised; and
    [packet_queue_start] (its node allocated) clears the abort flag and
    leaves the flush sentinel as the only node, stamped 1, with the serial
    at 1. *)
Theorem fresh_queue_rejects_until_start cs :
  forallb (fun c => negb (is_start c)) cs = true ->
  let q0 := snd (packet_queue_init true true) in
  fst (packet_queue_init true true) = 0
  /\ q_abort_request q0 = 1 /\ q_serial q0 = 0 /\ q_pkts q0 = []
  /\ (forall ok pkt, packet_queue_put sz ok q0 pkt = (-1, q0))
  /\ (forall ok si junk, packet_queue_put_nullpacket sz ok q0 si junk = (-1, q0))
  /\ run sz cs q0
     = (map (fun c => if is_put c then ev_rejected (-1) else ev_quiet) cs, q0)
  /\ q_abort_request (packet_queue_start sz true q0) = 0
  /\ q_serial (packet_queue_start sz true q0) = 1
  /\ q_pkts (packet_queue_start sz true q0)
     = [{| l_pkt := flush_pkt; l_serial := 1 |}]
  /\ q_nb_packets (packet_queue_start sz true q0) = 1.
Proof.
  intros Hcs q0.
  split; [reflexivity |]. split; [reflexivity |]. split; [reflexivity |].
  split; [reflexivity |]. split; [reflexivity |]. split; [reflexivity |].
  split; [| repeat split; reflexivity].
  induction cs as [|c cs IH]; [reflexivity |].
  simpl in Hcs. apply andb_prop in Hcs. destruct Hcs as [Hc Hcs].
  cbn [run map].
  assert (He : exec sz c q0 = (if is_put c then ev_rejected (-1) else ev_quiet, q0)).
  { destruct c; try reflexivity. discriminate. }
  rewrite He, (IH Hcs). reflexivity.
Qed.

End PacketQueueFacts.

(** The queue [packet_queue_init] returns is well formed. *)
Lemma fresh_queue_wf : pq_wf (snd (packet_queue_init true true)).
Proof.
  unfold pq_wf, stamps. simpl. split; [constructor |]. split; [constructor |].
  unfold INT_MIN, INT_MAX. simpl. lia.
Qed.

(** The theorem at the history [stale_history] of a fresh queue. *)
Lemma serial_monotonicity_witness :
  q_serial (snd (run 120 stale_history (snd (packet_queue_init true true))))
  = 0 + entered_flushes
          (fst (run 120 stale_history (snd (packet_queue_init true true)))).
Proof.
  refine (proj1 (serial_monotonicity 120 (snd (packet_queue_init true true))
                   stale_history _ _ fresh_queue_wf _ eq_refl)).
  vm_compute. discriminate.
Defined.

(** C1 as stated fails: after the second sentinel has entered (serial 2),
    [packet_queue_get] still delivers the two nodes stamped 1 that were
    queued ahead of it. *)
Lemma stale_packet_delivered_after_flush :
  let es := fst (run 120 stale_history (snd (packet_queue_init true true))) in
  nth_error es 2 = Some (ev_entered true {| l_pkt := flush_pkt; l_serial := 2 |})
  /\ nth_error es 4 = Some (ev_got {| l_pkt := pkt_A; l_serial := 1 |})
  /\ ~ (2 <= 1).
Proof.
  split; [reflexivity |]. split; [reflexivity |]. lia.
Qed.

(** A put, a get and a put of the sentinel on a fresh queue. *)
Lemma fresh_queue_rejects_until_start_witness :
  run 120 [call_put true (ref_pkt pkt_A); call_get 0; call_put true ref_flush_pkt]
      (snd (packet_queue_init true true))
  = ([ev_rejected (-1); ev_quiet; ev_rejected (-1)],
     snd (packet_queue_init true true)).
Proof.
  exact (proj1 (proj2 (proj2 (proj2 (proj2 (proj2 (proj2
           (fresh_queue_rejects_until_start 120
              [call_put true (ref_pkt pkt_A); call_get 0; call_put true ref_flush_pkt]
              eq_refl)))))))).
Defined.

(** ** Clock reading *)

(** C2.  For a clock whose serial does not exceed the serial of its
    packet queue: the reading is NaN when the queue's serial has advanced
    past the clock's; otherwise it is [pts] when the clock is paused, and
    [pts_drift + now - (now - last_updated) * (1 - speed)] when it is not,
    [now] being the wall-clock reading taken by the call. *)
Theorem get_clock_reading (mem : serials) (c : Clock) (w : World) :
  c_serial c <= mem (c_queue_serial c) ->
  fst (get_clock mem c w)
  = if c_serial c <? mem (c_queue_serial c) then NAN
    else if negb (c_paused c =? 0) then c_pts c
    else
      let now := fst (time_now w) in
      (c_pts_drift c + now - (now - c_last_updated c) * (1.0 - c_speed c))%float.
Proof.
  intros Hle. unfold get_clock.
  destruct (Z.ltb_spec (c_serial c) (mem (c_queue_serial c))) as [Hlt | Hge].
  - destruct (Z.eqb_spec (mem (c_queue_serial c)) (c_serial c)); [lia | reflexivity].
  - destruct (Z.eqb_spec (mem (c_queue_serial c)) (c_serial c)); [| lia].
    simpl. destruct (negb (c_paused c =? 0)); [reflexivity |].
    destruct (time_now w) as [t w']. reflexivity.
Qed.

(** A running audio clock that reads 3 s. *)
Lemma get_clock_reading_witness :
  fst (get_clock (mem_of (example_state 0 (-97) (-100) (-100)))
         (audclk (example_state 0 (-97) (-100) (-100))) frozen_world) = 3%float.
Proof.
  exact (get_clock_reading (mem_of (example_state 0 (-97) (-100) (-100)))
           (audclk (example_state 0 (-97) (-100) (-100))) frozen_world
           ltac:(vm_compute; discriminate)).
Defined.

(** The code tests the two serials for inequality: a clock whose serial
    is ahead of its queue's reads NaN as well. *)
Lemma get_clock_serial_mismatch (mem : serials) (c : Clock) (w : World) :
  mem (c_queue_serial c) <> c_serial c -> get_clock mem c w = (NAN, w).
Proof.
  intros H. unfold get_clock.
  destruct (Z.eqb_spec (mem (c_queue_serial c)) (c_serial c));
    [contradiction | reflexivity].
Qed.

(** ** Master selection *)

(** C3 as stated fails: with VIDEO configured and no video stream the
    master is AUDIO, not EXTERNAL. *)
Lemma video_master_without_video_is_audio :
  get_master_sync_type (audio_only_state AV_SYNC_VIDEO_MASTER)
    = AV_SYNC_AUDIO_MASTER
  /\ spec_master_sync_type AV_SYNC_VIDEO_MASTER true false
    = AV_SYNC_EXTERNAL_CLOCK
  /\ AV_SYNC_AUDIO_MASTER <> AV_SYNC_EXTERNAL_CLOCK.
Proof.
  split; [reflexivity |]. split; [reflexivity | discriminate].
Qed.

(** C3 (amended).  With VIDEO configured and no video stream the master is
    AUDIO, whether or not there is an audio stream; in every other
    combination of configured type and stream presence the master is the
    one the rule gives (AUDIO configured and audio present: AUDIO; VIDEO
    configured and video present: VIDEO; else EXTERNAL); and the master
    clock is the reading of the selected clock. *)
Theorem master_selection (s : VideoState) :
  get_master_sync_type s
  = (if (av_sync_type s =? AV_SYNC_VIDEO_MASTER) && is_null (video_st s)
     then AV_SYNC_AUDIO_MASTER
     else spec_master_sync_type (av_sync_type s)
            (negb (is_null (audio_st s))) (negb (is_null (video_st s))))
  /\ forall w, get_master_clock s w
       = get_clock (mem_of s) (master_clock_of s (get_master_sync_type s)) w.
Proof.
  split.
  - unfold get_master_sync_type, spec_master_sync_type.
    destruct (Z.eqb_spec (av_sync_type s) AV_SYNC_VIDEO_MASTER) as [Hv | Hv].
    + rewrite Hv. destruct (is_null (video_st s)); reflexivity.
    + simpl. destruct (av_sync_type s =? AV_SYNC_AUDIO_MASTER);
        destruct (is_null (audio_st s)); reflexivity.
  - intros w. unfold get_master_clock, master_clock_of.
    destruct (get_master_sync_type s =? AV_SYNC_VIDEO_MASTER); [reflexivity |].
    destruct (get_master_sync_type s =? AV_SYNC_AUDIO_MASTER); reflexivity.
Qed.

(** ** Float comparisons *)

Lemma SFcompare_Lt_Gt x y :
  SFcompare x y = Some Lt -> SFcompare y x = Some Gt.
Proof.
  assert (Hcc : forall p q, Pos.compare_cont Eq q p = CompOpp (Pos.compare_cont Eq p q)).
  { intros p q. rewrite (Pos.compare_cont_antisym p q Eq). reflexivity. }
  destruct x as [sx | sx | | sx mx ex], y as [sy | sy | | sy my ey]; simpl;
    try discriminate;
    try (destruct sx; intros H; (discriminate H || reflexivity));
    try (destruct sy; intros H; (discriminate H || reflexivity));
    try (destruct sx, sy; intros H; (discriminate H || reflexivity)).
  destruct sx, sy; intros H; try discriminate H; try reflexivity;
    rewrite (Z.compare_antisym ex ey), (Hcc mx my);
    destruct (ex ?= ey)%Z; simpl in *; try discriminate H; try reflexivity;
    destruct (Pos.compare_cont Eq mx my); simpl in *;
    (discriminate H || reflexivity).
Qed.

Lemma ltb_asym (x y : float) : (x <? y)%float = true -> (y <? x)%float = false.
Proof.
  rewrite !ltb_spec. unfold SFltb.
  destruct (SFcompare (Prim2SF x) (Prim2SF y)) as [[| |]|] eqn:E; try discriminate.
  intros _. rewrite (SFcompare_Lt_Gt _ _ E). reflexivity.
Qed.

Local Open Scope float_scope.

(** ** Video target delay *)

(** C4 as stated fails on the boundary: with [|diff|] equal to
    [max_frame_duration] (audio master at 10 s, video at 0 s) the delay is
    left as it is, where the claim has it shortened to 0. *)
Lemma target_delay_at_discontinuity_bound :
  let s := example_state AV_SYNC_AUDIO_MASTER (-90) (-100) (-100) in
  video_master_diff s frozen_world = -10
  /\ max_frame_duration s = 10
  /\ fst (compute_target_delay 0.04 s frozen_world) = 0.04
  /\ spec_target_delay 0.04 (-10) 10 = 0
  /\ (0.04 =? 0) = false.
Proof.
  repeat split; vm_compute; reflexivity.
Qed.

(** C4 (amended).  When video is not the master and
    diff = vidclk - masterclk is not NaN, the delay is left unchanged
    unless [|diff| < max_frame_duration] (so also when the two are equal);
    within that bound, with threshold = clip(delay, 0.04, 0.1), it becomes
    max(0, delay + diff) when diff <= -threshold, delay + diff when
    diff >= threshold and delay > 0.1, 2 delay when diff >= threshold and
    delay <= 0.1, and is unchanged otherwise. *)
Theorem target_delay (delay : float) (s : VideoState) (w : World) :
  get_master_sync_type s <> AV_SYNC_VIDEO_MASTER ->
  isnan (video_master_diff s w) = false ->
  fst (compute_target_delay delay s w)
  = if fabs (video_master_diff s w) <? max_frame_duration s
    then spec_delay_correction delay (video_master_diff s w)
    else delay.
Proof.
  intros Hm Hn. unfold compute_target_delay, video_master_diff in *.
  destruct (Z.eqb_spec (get_master_sync_type s) AV_SYNC_VIDEO_MASTER) as [E | _];
    [contradiction |].
  simpl negb. cbv iota.
  destruct (get_clock (mem_of s) (vidclk s) w) as [v w1].
  destruct (get_master_clock s w1) as [m w2]. simpl fst in *.
  rewrite Hn. simpl negb. rewrite andb_true_l.
  unfold spec_delay_correction, spec_clip, spec_max,
    AV_SYNC_THRESHOLD_MIN, AV_SYNC_THRESHOLD_MAX, AV_SYNC_FRAMEDUP_THRESHOLD.
  destruct (fabs (v - m) <? max_frame_duration s); [| reflexivity].
  destruct (v - m <=? - FFMAX 0.04 (FFMIN 0.1 delay)); [reflexivity |].
  destruct (FFMAX 0.04 (FFMIN 0.1 delay) <=? v - m); simpl; [| reflexivity].
  destruct (0.1 <? delay); reflexivity.
Qed.

(** Audio master at 1 s, video at 0 s: the 40 ms delay is cut to 0. *)
Lemma target_delay_witness :
  fst (compute_target_delay 0.04
         (example_state AV_SYNC_AUDIO_MASTER (-99) (-100) (-100)) frozen_world)
  = 0.
Proof.
  exact (target_delay 0.04
           (example_state AV_SYNC_AUDIO_MASTER (-99) (-100) (-100)) frozen_world
           ltac:(vm_compute; discriminate) eq_refl).
Defined.

(** ** Audio sample compensation *)

(** C5 as stated fails: the correction is [diff * src_rate] truncated
    toward zero, not rounded.  With 0.732421875 samples of drift the code
    asks for 1024 samples, the claim for 1025. *)
Lemma sample_correction_truncates :
  audio_master_diff slightly_ahead frozen_world * Z2double 48000 = 0.732421875
  /\ fst (fst (synchronize_audio slightly_ahead 1024 frozen_world)) = 1024%Z
  /\ spec_wanted_nb_samples 1024 (audio_master_diff slightly_ahead frozen_world)
       48000 = 1025
  /\ (Z2double 1024 =? 1025) = false.
Proof.
  repeat split; vm_compute; reflexivity.
Qed.

(** C5 (amended).  When audio is not the master: if diff is not NaN and
    [|diff| < 10], 20 measurements have been accumulated and the average
    [cum * (1 - coef)] of the updated accumulator is at least the threshold
    in absolute value, the wanted sample count for [n] samples is
    [n + (int)(diff * src_rate)] (truncation toward zero) clipped to
    [n*90/100, n*110/100] (integer division); and whenever [|diff| > 10]
    the accumulator and the warm-up count are reset to 0 and [n] is
    returned. *)
Theorem audio_sample_compensation (s : VideoState) (n : Z) (w : World) :
  get_master_sync_type s <> AV_SYNC_AUDIO_MASTER ->
  let diff := audio_master_diff s w in
  let cum := diff + audio_diff_avg_coef s * audio_diff_cum s in
  let r := synchronize_audio s n w in
  (isnan diff = false -> (fabs diff <? AV_NOSYNC_THRESHOLD) = true ->
   (AUDIO_DIFF_AVG_NB <= audio_diff_avg_count s)%Z ->
   (audio_diff_threshold s <=? fabs (cum * (1.0 - audio_diff_avg_coef s))) = true ->
   fst (fst r) = clipped_nb_samples n diff (audio_src_freq s)
   /\ audio_diff_cum (snd (fst r)) = cum
   /\ audio_diff_avg_count (snd (fst r)) = audio_diff_avg_count s)
  /\ ((AV_NOSYNC_THRESHOLD <? fabs diff) = true ->
      fst (fst r) = n
      /\ audio_diff_cum (snd (fst r)) = 0
      /\ audio_diff_avg_count (snd (fst r)) = 0%Z).
Proof.
  intros Hm diff cum r. subst r. unfold synchronize_audio.
  unfold audio_master_diff in diff.
  destruct (Z.eqb_spec (get_master_sync_type s) AV_SYNC_AUDIO_MASTER) as [E | _];
    [contradiction |].
  simpl negb. cbv iota.
  destruct (get_clock (mem_of s) (audclk s) w) as [a w1].
  destruct (get_master_clock s w1) as [m w2]. simpl fst in diff.
  fold diff. split.
  - intros Hn Hlt Hcnt Hthr. rewrite Hn, Hlt. simpl negb. simpl andb. cbv iota.
    destruct_state s.
    cbn [set_audio_diff_cum audio_diff_avg_count audio_diff_cum
         audio_diff_avg_coef audio_diff_threshold audio_src_freq
         audio_clock] in *.
    fold cum.
    destruct (Z.ltb_spec f16 AUDIO_DIFF_AVG_NB) as [Hc | _]; [lia |].
    rewrite Hthr. cbn [fst snd audio_diff_cum audio_diff_avg_count].
    repeat split.
  - intros Hgt. rewrite (ltb_asym _ _ Hgt). rewrite andb_false_r. cbv iota.
    destruct_state s. cbn. repeat split.
Qed.

(** The compensation of [slightly_ahead] for 1024 samples. *)
Lemma audio_sample_compensation_witness :
  fst (fst (synchronize_audio slightly_ahead 1024 frozen_world))
  = clipped_nb_samples 1024 (audio_master_diff slightly_ahead frozen_world) 48000.
Proof.
  exact (proj1 (proj1 (audio_sample_compensation slightly_ahead 1024 frozen_world
                         ltac:(vm_compute; discriminate))
                  eq_refl eq_refl ltac:(vm_compute; discriminate) eq_refl)).
Defined.

(** ** Synchronising one clock to another *)

(** C6 as stated fails: a clock that has no value yet (its reading is NaN)
    takes the value and serial of a valid slave, although
    [|this - slave| > 10] does not hold. *)
Lemma sync_copies_into_unset_clock :
  let slave := running_clock (-95) p_audioq_serial in
  let clock := fst (get_clock fresh_mem fresh_extclk frozen_world) in
  let slave_clock := fst (get_clock fresh_mem slave frozen_world) in
  let c' := fst (sync_clock_to_slave fresh_mem fresh_extclk slave frozen_world) in
  spec_sync_condition clock slave_clock = false
  /\ isnan (c_pts fresh_extclk) = true /\ c_serial fresh_extclk = (-1)%Z
  /\ c_pts c' = 5 /\ c_serial c' = 1%Z.
Proof.
  repeat split; vm_compute; reflexivity.
Qed.

(** C6 (amended).  [sync_clock_to_slave] sets [c] to the slave's reading
    and serial (stamped at the wall-clock time of the call) iff the slave's
    reading is not NaN and either [|get(c) - get(slave)| > 10] or the
    reading of [c] is NaN; in every other case [c] is left unchanged. *)
Theorem sync_clock_to_slave_copies (mem : serials) (c slave : Clock) (w : World) :
  let clock := fst (get_clock mem c w) in
  let w1 := snd (get_clock mem c w) in
  let slave_clock := fst (get_clock mem slave w1) in
  let w2 := snd (get_clock mem slave w1) in
  let c' := fst (sync_clock_to_slave mem c slave w) in
  if spec_sync_condition clock slave_clock
     || (isnan clock && negb (isnan slave_clock))
  then c' = set_clock_at c slave_clock (c_serial slave) (fst (time_now w2))
       /\ c_pts c' = slave_clock /\ c_serial c' = c_serial slave
  else c' = c.
Proof.
  cbv zeta. unfold sync_clock_to_slave, spec_sync_condition, AV_NOSYNC_THRESHOLD.
  destruct (get_clock mem c w) as [clock w1]. simpl fst. simpl snd.
  destruct (get_clock mem slave w1) as [slave_clock w2]. simpl fst. simpl snd.
  unfold set_clock, time_now, av_gettime_relative. cbn [fst snd].
  destruct (isnan slave_clock), (isnan clock),
    (10 <? fabs (clock - slave_clock)); simpl; auto.
Qed.

Local Open Scope Z_scope.

(** ** Volume *)

Lemma av_clip_range a lo hi : lo <= hi -> lo <= av_clip a lo hi <= hi.
Proof.
  intros H. unfold av_clip. rewrite Z.gtb_ltb.
  destruct (Z.ltb_spec a lo), (Z.ltb_spec hi a); lia.
Qed.

Lemma av_clip_inside a lo hi : lo <= a <= hi -> av_clip a lo hi = a.
Proof.
  intros H. unfold av_clip. rewrite Z.gtb_ltb.
  destruct (Z.ltb_spec a lo), (Z.ltb_spec hi a); lia.
Qed.

Lemma av_clip_interior a lo hi v :
  lo < v < hi -> av_clip a lo hi = v -> a = v.
Proof.
  intros Hv. unfold av_clip. rewrite Z.gtb_ltb.
  destruct (Z.ltb_spec a lo), (Z.ltb_spec hi a); lia.
Qed.

Lemma av_clip_mono a b lo hi :
  lo <= hi -> a <= b -> av_clip a lo hi <= av_clip b lo hi.
Proof.
  intros Hl Hab. unfold av_clip. rewrite !Z.gtb_ltb.
  destruct (Z.ltb_spec a lo), (Z.ltb_spec hi a),
    (Z.ltb_spec b lo), (Z.ltb_spec hi b); lia.
Qed.

Lemma audio_volume_set v s : audio_volume (set_audio_volume v s) = v.
Proof. destruct s; reflexivity. Qed.

(** ** Seek failure *)

Section ReaderFacts.

Variable sz : Z.
Variable avformat_seek_file : Z -> Z -> Z -> Z -> Z -> Z.

Lemma stream_toggle_pause_queues s w :
  let s' := fst (stream_toggle_pause s w) in
  audioq s' = audioq s /\ videoq s' = videoq s /\ subtitleq s' = subtitleq s
  /\ seek_req s' = seek_req s
  /\ queue_attachments_req s' = queue_attachments_req s
  /\ eof s' = eof s
  /\ c_serial (extclk s') = c_serial (extclk s)
  /\ paused s' = lnot (paused s)
  /\ w_log (snd (stream_toggle_pause s w)) = w_log w.
Proof.
  unfold stream_toggle_pause, set_clock, get_clock, time_now, av_gettime_relative.
  destruct_state s. cbn -[Z.eqb AVERROR Z2double PrimFloat.div PrimFloat.sub
                          PrimFloat.add PrimFloat.mul].
  repeat match goal with
         | |- context [if ?b then _ else _] => destruct b; cbn -[Z2double]
         end;
  repeat split.
Qed.

(** C8 (amended).  When a seek is pending and the container's seek returns
    an error, the failure is logged, no packet queue is flushed, no flush
    sentinel is enqueued and the external clock is not set to the seek
    target; the request is nevertheless consumed ([seek_req] cleared,
    [queue_attachments_req] set, [eof] cleared), and a paused player then
    steps to the next frame. *)
Theorem seek_failure (s : VideoState) (w : World) :
  seek_req s <> 0 ->
  seek_result avformat_seek_file s < 0 ->
  let r := read_thread_loop_handle_seek sz avformat_seek_file s w in
  let s' := snd (fst r) in
  fst (fst r) = 0
  /\ w_log (snd r) = w_log w ++ [log_seek_error]
  /\ audioq s' = audioq s /\ videoq s' = videoq s /\ subtitleq s' = subtitleq s
  /\ c_serial (extclk s') = c_serial (extclk s)
  /\ seek_req s' = 0 /\ queue_attachments_req s' = 1 /\ eof s' = 0
  /\ (paused s = 0 ->
      s' = request_consumed s /\ snd r = av_log log_seek_error w)
  /\ (paused s <> 0 ->
      (s', snd r)
      = step_to_next_frame (request_consumed s) (av_log log_seek_error w)).
Proof.
  intros Hreq Hfail r s'. subst s' r.
  unfold read_thread_loop_handle_seek. fold (seek_result avformat_seek_file s).
  destruct (Z.eqb_spec (seek_req s) 0) as [E | _]; [contradiction |].
  destruct (Z.ltb_spec (seek_result avformat_seek_file s) 0) as [_ | E]; [| lia].
  cbn [negb]. cbv iota. fold (request_consumed s).
  assert (Hp : paused (request_consumed s) = paused s)
    by (destruct_state s; reflexivity).
  assert (Hq : audioq (request_consumed s) = audioq s
               /\ videoq (request_consumed s) = videoq s
               /\ subtitleq (request_consumed s) = subtitleq s
               /\ c_serial (extclk (request_consumed s)) = c_serial (extclk s)
               /\ seek_req (request_consumed s) = 0
               /\ queue_attachments_req (request_consumed s) = 1
               /\ eof (request_consumed s) = 0)
    by (destruct_state s; repeat split; reflexivity).
  destruct Hq as (Ha & Hv & Hs & Hc & Hr & Hqa & He).
  rewrite Hp. destruct (Z.eqb_spec (paused s) 0) as [Hz | Hnz]; cbn [negb]; cbv iota.
  - cbn [fst snd]. split; [reflexivity |].
    split; [reflexivity |].
    repeat (split; [assumption |]).
    split; [intros _; split; reflexivity | intros H; contradiction].
  - destruct (step_to_next_frame (request_consumed s) (av_log log_seek_error w))
      as [s3 w3] eqn:Hstep.
    cbn [fst snd]. split; [reflexivity |].
    unfold step_to_next_frame in Hstep. rewrite Hp in Hstep.
    destruct (Z.eqb_spec (paused s) 0) as [Hz | _]; [contradiction |].
    cbn [negb] in Hstep.
    pose proof (stream_toggle_pause_queues (request_consumed s)
                  (av_log log_seek_error w)) as Ht.
    destruct (stream_toggle_pause (request_consumed s) (av_log log_seek_error w))
      as [s4 w4].
    cbn [fst snd] in Ht. inversion Hstep; subst s3 w3; clear Hstep.
    destruct Ht as (Ta & Tv & Ts & Tr & Tq & Te & Tc & _ & Tl).
    assert (Hstepq : audioq (set_step 1 s4) = audioq s4
               /\ videoq (set_step 1 s4) = videoq s4
               /\ subtitleq (set_step 1 s4) = subtitleq s4
               /\ c_serial (extclk (set_step 1 s4)) = c_serial (extclk s4)
               /\ seek_req (set_step 1 s4) = seek_req s4
               /\ queue_attachments_req (set_step 1 s4) = queue_attachments_req s4
               /\ eof (set_step 1 s4) = eof s4)
      by (destruct_state s4; repeat split; reflexivity).
    destruct Hstepq as (Sa & Sv & Ss & Sc & Sr & Sq & Se).
    split; [rewrite Tl; reflexivity |].
    split; [congruence |]. split; [congruence |]. split; [congruence |].
    split; [congruence |]. split; [congruence |]. split; [congruence |].
    split; [congruence |].
    split; [intros H; contradiction | intros _; reflexivity].
Qed.

End ReaderFacts.

(** C8 as stated fails: after the failed seek the pending-seek flag is
    cleared and the attachment request is raised, not as they were. *)
Lemma failed_seek_consumes_request :
  let r := read_thread_loop_handle_seek 120 failing_seek seek_pending frozen_world in
  seek_req seek_pending = 1 /\ seek_req (snd (fst r)) = 0
  /\ queue_attachments_req seek_pending = 0
  /\ queue_attachments_req (snd (fst r)) = 1.
Proof.
  repeat split; reflexivity.
Qed.

(** The failed seek of [seek_pending] clears the request. *)
Lemma seek_failure_witness :
  seek_req (snd (fst (read_thread_loop_handle_seek 120 failing_seek seek_pending
                        frozen_world))) = 0.
Proof.
  exact (proj1 (proj2 (proj2 (proj2 (proj2 (proj2 (proj2
           (seek_failure 120 failing_seek seek_pending frozen_world
              ltac:(vm_compute; discriminate) eq_refl)))))))).
Defined.

(** ** Rounding of binary64 sums *)

Lemma digits2_bounds (m : positive) :
  2 ^ (Zpos (digits2_pos m) - 1) <= Zpos m < 2 ^ Zpos (digits2_pos m).
Proof.
  induction m as [p IH | p IH |]; simpl digits2_pos.
  - rewrite Pos2Z.inj_succ.
    replace (Z.succ (Zpos (digits2_pos p)) - 1) with (Z.succ (Zpos (digits2_pos p) - 1)) by lia.
    rewrite !Z.pow_succ_r by lia. lia.
  - rewrite Pos2Z.inj_succ.
    replace (Z.succ (Zpos (digits2_pos p)) - 1) with (Z.succ (Zpos (digits2_pos p) - 1)) by lia.
    rewrite !Z.pow_succ_r by lia. lia.
  - simpl. lia.
Qed.

Lemma digits2_unique (m : positive) (d : Z) :
  2 ^ (d - 1) <= Zpos m < 2 ^ d -> Zpos (digits2_pos m) = d.
Proof.
  intros [Hlo Hhi]. pose proof (digits2_bounds m) as [Blo Bhi].
  assert (Hd : 0 < d).
  { destruct (Z.ltb_spec 0 d); [assumption |].
    assert (2 ^ d <= 1).
    { destruct (Z.eq_dec d 0) as [-> | Hn]; [simpl; lia |].
      rewrite Z.pow_neg_r by lia. lia. }
    lia. }
  destruct (Z.lt_trichotomy (Zpos (digits2_pos m)) d) as [H | [H | H]]; [| assumption |].
  - assert (2 ^ Zpos (digits2_pos m) <= 2 ^ (d - 1))
      by (apply Z.pow_le_mono_r; lia). lia.
  - assert (2 ^ d <= 2 ^ (Zpos (digits2_pos m) - 1))
      by (apply Z.pow_le_mono_r; lia). lia.
Qed.

Lemma iter_xO_mul (m : positive) (d : positive) :
  Zpos (Pos.iter xO m d) = Zpos m * 2 ^ Zpos d.
Proof.
  induction d as [|d IH] using Pos.peano_ind.
  - simpl. lia.
  - rewrite Pos.iter_succ, Pos2Z.inj_succ, Z.pow_succ_r by lia.
    rewrite Pos2Z.inj_xO, IH. lia.
Qed.

Lemma pow2_succ (k : Z) : 0 <= k -> 2 ^ (k + 1) = 2 * 2 ^ k.
Proof. intros H. rewrite <- Z.add_1_r || idtac. apply Z.pow_succ_r. assumption. Qed.

Lemma shr_inv_start (m : Z) :
  0 <= m -> shr_inv m 0 {| shr_m := m; shr_r := false; shr_s := false |}.
Proof.
  intros Hm. split; [assumption |]. exists 0. cbn [shr_m shr_r shr_s b2z].
  change (2 ^ (0 + 1)) with 2. change (2 ^ 0) with 1.
  split; [lia |]. split; [lia |]. split; [discriminate | lia].
Qed.

Lemma shr_inv_step (m k : Z) (rec : shr_record) :
  0 <= k -> shr_inv m k rec -> shr_inv m (k + 1) (shr_1 rec).
Proof.
  intros Hk [Hm (low & Heq & Hlow & Hs)].
  destruct rec as [mk r s]. cbn [shr_m shr_r shr_s] in *.
  pose proof (pow2_succ k Hk) as P1.
  pose proof (pow2_succ (k + 1) ltac:(lia)) as P2. rewrite P1 in P2.
  assert (Pk : 0 < 2 ^ k) by (apply Z.pow_pos_nonneg; lia).
  assert (Hor : (r || s)%bool = true <-> b2z r * 2 ^ k + low <> 0).
  { destruct r; cbn [orb b2z].
    - split; [intros _; lia | reflexivity].
    - rewrite Hs. split; intros H; lia. }
  assert (Hb : 0 <= b2z r * 2 ^ k + low < 2 ^ (k + 1))
    by (destruct r; cbn [b2z]; lia).
  unfold shr_inv.
  destruct mk as [|[p | p |]|p]; [| | | | exfalso; lia];
    cbn [shr_1 shr_m shr_r shr_s];
    (split; [lia |]); exists (b2z r * 2 ^ k + low); cbn [b2z];
    (split; [| split; [exact Hb | exact Hor]]); rewrite P2, P1; rewrite P1 in Heq;
    clear - Heq; generalize dependent (2 ^ k); intros X Heq.
  - lia.
  - rewrite Pos2Z.inj_xI in Heq. lia.
  - rewrite Pos2Z.inj_xO in Heq. lia.
  - lia.
Qed.

Lemma shr_inv_iter (m : Z) (n : positive) : forall k rec,
  0 <= k -> shr_inv m k rec -> shr_inv m (k + Zpos n) (iter_pos shr_1 n rec).
Proof.
  induction n as [n IH | n IH |]; intros k rec Hk H; simpl iter_pos.
  - replace (k + Zpos n~1) with (k + 1 + Zpos n + Zpos n) by lia.
    apply IH; [lia |]. apply IH; [lia |]. apply shr_inv_step; assumption.
  - replace (k + Zpos n~0) with (k + Zpos n + Zpos n) by lia.
    apply IH; [lia |]. apply IH; assumption.
  - apply shr_inv_step; assumption.
Qed.

(** Rounding the shifted mantissa to nearest even is off by at most half
    a unit of the last place kept. *)
Lemma round_nearest_even_error (m k : Z) (rec : shr_record) :
  0 <= k -> shr_inv m k rec ->
  let m1 := round_nearest_even (shr_m rec) (loc_of_shr_record rec) in
  shr_m rec <= m1 <= shr_m rec + 1
  /\ Z.abs (m1 * 2 ^ (k + 1) - 2 * m) <= 2 ^ k.
Proof.
  intros Hk [Hm (low & Heq & Hlow & Hs)].
  destruct rec as [mk r s]. cbn [shr_m shr_r shr_s] in *.
  rewrite (pow2_succ k Hk) in *.
  assert (Hlow0 : s = false -> low = 0).
  { intros ->. destruct (Z.eq_dec low 0); [assumption |].
    assert (false = true) by (apply Hs; assumption). discriminate. }
  destruct r, s; cbn [loc_of_shr_record round_nearest_even b2z] in *.
  - assert (low <> 0) by (apply Hs; reflexivity). split; lia.
  - specialize (Hlow0 eq_refl). destruct (Z.even mk); split; lia.
  - assert (low <> 0) by (apply Hs; reflexivity). split; lia.
  - specialize (Hlow0 eq_refl). split; lia.
Qed.

Lemma fexp_eq (e : Z) : fexp prec emax e = Z.max (e - 53) (-1074).
Proof. reflexivity. Qed.

Lemma shr_fexp_noshift (m : positive) (e : Z) :
  fexp prec emax (Zpos (digits2_pos m) + e) <= e ->
  shr_fexp prec emax (Zpos m) e loc_Exact
  = ({| shr_m := Zpos m; shr_r := false; shr_s := false |}, e).
Proof.
  intros H. unfold shr_fexp, shr. cbn [Zdigits2 shr_record_of_loc].
  destruct (fexp prec emax (Zpos (digits2_pos m) + e) - e) eqn:E;
    [reflexivity | lia | reflexivity].
Qed.

Lemma binary_round_aux_exact (sx : bool) (m : positive) (e : Z) :
  fexp prec emax (Zpos (digits2_pos m) + e) <= e -> e <= 971 ->
  binary_round_aux prec emax sx (Zpos m) e loc_Exact = S754_finite sx m e.
Proof.
  intros H He. unfold binary_round_aux.
  rewrite (shr_fexp_noshift m e H).
  cbn [shr_m loc_of_shr_record round_nearest_even].
  rewrite (shr_fexp_noshift m e H). cbn [shr_m].
  change (emax - prec) with 971.
  destruct (Z.leb_spec e 971); [reflexivity | lia].
Qed.

Lemma bounded_intro (m : positive) (e : Z) :
  fexp prec emax (Zpos (digits2_pos m) + e) = e -> e <= 971 ->
  bounded prec emax m e = true.
Proof.
  intros H He. unfold bounded, canonical_mantissa.
  rewrite H, Z.eqb_refl. change (emax - prec) with 971.
  apply Z.leb_le in He. rewrite He. reflexivity.
Qed.

(** A mantissa of more than 53 bits is shifted right to 53 bits and
    rounded; the result is within half a unit of the last place kept. *)
Lemma binary_round_aux_shift (sx : bool) (mx : positive) (ex : Z) :
  let d := Zpos (digits2_pos mx) in
  53 < d -> -1074 <= ex -> d + ex <= 1000 ->
  exists m' e',
    binary_round_aux prec emax sx (Zpos mx) ex loc_Exact = S754_finite sx m' e'
    /\ bounded prec emax m' e' = true
    /\ d - 53 + ex <= e'
    /\ Z.abs (2 * (Zpos m' * 2 ^ (e' - ex)) - 2 * Zpos mx) <= 2 ^ (d - 53).
Proof.
  intros d Hd Hex Hov.
  pose proof (digits2_bounds mx) as [Blo Bhi]. fold d in Blo, Bhi.
  set (n := d - 53).
  assert (Hn : 0 < n) by (unfold n; lia).
  unfold binary_round_aux.
  assert (Hsh : shr_fexp prec emax (Zpos mx) ex loc_Exact
                = (iter_pos shr_1 (Z.to_pos n)
                     {| shr_m := Zpos mx; shr_r := false; shr_s := false |},
                   ex + n)).
  { unfold shr_fexp, shr. cbn [Zdigits2 shr_record_of_loc]. fold d.
    rewrite fexp_eq.
    replace (Z.max (d + ex - 53) (-1074) - ex) with n by (unfold n; lia).
    destruct n as [|p|p] eqn:En; try lia. reflexivity. }
  rewrite Hsh.
  pose proof (shr_inv_iter (Zpos mx) (Z.to_pos n) 0 _ ltac:(lia)
                (shr_inv_start (Zpos mx) ltac:(lia))) as Hinv.
  rewrite Z.add_0_l, Z2Pos.id in Hinv by lia.
  set (rec := iter_pos shr_1 (Z.to_pos n)
                {| shr_m := Zpos mx; shr_r := false; shr_s := false |}) in *.
  pose proof (round_nearest_even_error (Zpos mx) n rec ltac:(lia) Hinv) as Hrnd.
  cbv zeta in Hrnd.
  set (m1 := round_nearest_even (shr_m rec) (loc_of_shr_record rec)) in *.
  destruct Hrnd as [Hm1 Herr].
  (* size of the quotient *)
  destruct Hinv as [Hq0 (low & Heq & Hlow & _)].
  pose proof (pow2_succ n ltac:(lia)) as Pn. rewrite Pn in Heq, Herr.
  assert (Pd : 2 ^ (d - 1) = 2 ^ 52 * 2 ^ n).
  { replace (d - 1) with (52 + n) by (unfold n; lia).
    apply Z.pow_add_r; lia. }
  assert (Pd' : 2 ^ d = 2 ^ 53 * 2 ^ n).
  { replace d with (53 + n) at 1 by (unfold n; lia).
    apply Z.pow_add_r; lia. }
  assert (Pn0 : 0 < 2 ^ n) by (apply Z.pow_pos_nonneg; lia).
  rewrite Pd in Blo. rewrite Pd' in Bhi.
  assert (Hq : 2 ^ 52 <= shr_m rec < 2 ^ 53).
  { assert (b2z (shr_r rec) = 0 \/ b2z (shr_r rec) = 1)
      by (destruct (shr_r rec); simpl; auto).
    generalize dependent (2 ^ n). intros X. intros. change (2 ^ 52) with 4503599627370496 in *.
    change (2 ^ 53) with 9007199254740992 in *. nia. }
  assert (Hm1r : 2 ^ 52 <= m1 <= 2 ^ 53) by lia.
  assert (He1 : ex + n <= 947) by (unfold n; lia).
  destruct (Z.eq_dec m1 (2 ^ 53)) as [Htop | Hlt].
  - (* the rounding carried into a 54th bit *)
    rewrite Htop. change (2 ^ 53) with (Zpos 9007199254740992).
    exists 4503599627370496%positive, (ex + n + 1).
    assert (Hsh2 : shr_fexp prec emax (Zpos 9007199254740992) (ex + n) loc_Exact
                   = ({| shr_m := Zpos 4503599627370496; shr_r := false;
                         shr_s := false |}, ex + n + 1)).
    { unfold shr_fexp, shr. rewrite fexp_eq.
      change (Zdigits2 (Zpos 9007199254740992)) with 54.
      replace (Z.max (54 + (ex + n) - 53) (-1074) - (ex + n)) with 1 by lia.
      reflexivity. }
    rewrite Hsh2. cbn [shr_m]. change (emax - prec) with 971.
    destruct (Z.leb_spec (ex + n + 1) 971); [| lia].
    split; [reflexivity |]. split; [| split].
    + apply bounded_intro; [| lia]. rewrite fexp_eq.
      change (Zpos (digits2_pos 4503599627370496)) with 53. lia.
    + unfold n. lia.
    + replace (ex + n + 1 - ex) with (n + 1) by lia. rewrite Pn.
      rewrite Htop in Herr. change (2 ^ 53) with 9007199254740992 in Herr.
      fold n. clear - Herr. generalize dependent (2 ^ n). intros X Herr. lia.
  - destruct m1 as [|m1p|m1p] eqn:Em1;
      [change (2 ^ 52) with 4503599627370496 in Hm1r; lia | |
       change (2 ^ 52) with 4503599627370496 in Hm1r; lia].
    exists m1p, (ex + n).
    assert (Hdig : Zpos (digits2_pos m1p) = 53)
      by (apply digits2_unique; change (53 - 1) with 52; lia).
    assert (Hfe : fexp prec emax (Zpos (digits2_pos m1p) + (ex + n)) = ex + n)
      by (rewrite fexp_eq, Hdig; lia).
    rewrite (shr_fexp_noshift m1p (ex + n)) by lia. cbn [shr_m].
    change (emax - prec) with 971.
    destruct (Z.leb_spec (ex + n) 971); [| lia].
    split; [reflexivity |]. split; [| split].
    + apply bounded_intro; [assumption | lia].
    + unfold n. lia.
    + replace (ex + n - ex) with n by lia. fold n.
      clear - Herr. generalize dependent (2 ^ n). intros X Herr. lia.
Qed.

(** [binary_round] returns a valid finite float whose value is within a
    relative 2^-53 of the exact one (values in units of 2^-1074). *)
Lemma binary_round_correct (sx : bool) (mx : positive) (ex : Z) :
  -1074 <= ex -> Zpos (digits2_pos mx) + ex <= 1000 ->
  exists m' e',
    binary_round prec emax sx mx ex = S754_finite sx m' e'
    /\ bounded prec emax m' e' = true
    /\ -1074 <= e'
    /\ 2 ^ 53 * Z.abs (Zpos m' * 2 ^ (e' + 1074) - Zpos mx * 2 ^ (ex + 1074))
       <= Zpos mx * 2 ^ (ex + 1074).
Proof.
  intros Hex Hov. set (d := Zpos (digits2_pos mx)) in *.
  pose proof (digits2_bounds mx) as [Blo Bhi]. fold d in Blo, Bhi.
  assert (Hd : 0 < d) by (unfold d; lia).
  unfold binary_round. fold d. rewrite fexp_eq.
  set (e1 := Z.max (d + ex - 53) (-1074)).
  assert (HS : 0 < 2 ^ (ex + 1074)) by (apply Z.pow_pos_nonneg; lia).
  unfold shl_align.
  destruct (e1 - ex) as [|p|p] eqn:Ediff.
  - (* already at the target exponent *)
    exists mx, ex.
    rewrite binary_round_aux_exact by (fold d; rewrite ?fexp_eq; fold e1; lia).
    split; [reflexivity |]. split; [| split; [assumption |]].
    + apply bounded_intro; [fold d; rewrite fexp_eq; fold e1; lia | lia].
    + rewrite Z.sub_diag. simpl Z.abs. rewrite Z.mul_0_r. lia.
  - (* more than 53 bits: shift right and round *)
    assert (Hd53 : 53 < d) by (unfold e1 in Ediff; lia).
    destruct (binary_round_aux_shift sx mx ex Hd53 Hex Hov)
      as (m' & e' & Hr & Hb & He' & Herr).
    fold d in He', Herr.
    exists m', e'. split; [exact Hr |]. split; [exact Hb |].
    split; [lia |].
    assert (P1 : 2 ^ (e' + 1074) = 2 ^ (e' - ex) * 2 ^ (ex + 1074)).
    { rewrite <- Z.pow_add_r by lia. f_equal. lia. }
    assert (P2 : 2 ^ d = 2 ^ 53 * 2 ^ (d - 53)).
    { rewrite <- Z.pow_add_r by lia. f_equal. lia. }
    assert (P3 : 2 ^ d = 2 * 2 ^ (d - 1)).
    { rewrite <- (pow2_succ (d - 1)) by lia. f_equal. lia. }
    rewrite P1.
    replace (Zpos m' * (2 ^ (e' - ex) * 2 ^ (ex + 1074)) - Zpos mx * 2 ^ (ex + 1074))
      with ((Zpos m' * 2 ^ (e' - ex) - Zpos mx) * 2 ^ (ex + 1074)) by ring.
    rewrite Z.abs_mul, (Z.abs_eq (2 ^ (ex + 1074))) by lia.
    assert (H2 : 2 ^ 53 * (2 * Z.abs (Zpos m' * 2 ^ (e' - ex) - Zpos mx))
                 <= 2 * Zpos mx).
    { replace (2 * Z.abs (Zpos m' * 2 ^ (e' - ex) - Zpos mx))
        with (Z.abs (2 * (Zpos m' * 2 ^ (e' - ex)) - 2 * Zpos mx)) by lia.
      change (2 ^ 53) with 9007199254740992 in *. nia. }
    change (2 ^ 53) with 9007199254740992 in *. nia.
  - (* fewer bits than the format allows: shift left, exactly *)
    assert (Hp : Zpos p = ex - e1) by lia.
    exists (Pos.iter xO mx p), e1.
    assert (Hmz : Zpos (Pos.iter xO mx p) = Zpos mx * 2 ^ Zpos p)
      by apply iter_xO_mul.
    assert (Hdz : Zpos (digits2_pos (Pos.iter xO mx p)) = d + Zpos p).
    { apply digits2_unique. rewrite Hmz.
      replace (d + Zpos p - 1) with (d - 1 + Zpos p) by lia.
      rewrite !Z.pow_add_r by lia.
      assert (0 < 2 ^ Zpos p) by (apply Z.pow_pos_nonneg; lia). nia. }
    assert (Hfe : fexp prec emax (Zpos (digits2_pos (Pos.iter xO mx p)) + e1) = e1).
    { rewrite Hdz, fexp_eq. replace (d + Zpos p + e1) with (d + ex) by lia.
      reflexivity. }
    assert (He1 : -1074 <= e1 <= 971) by (unfold e1; lia).
    rewrite binary_round_aux_exact by lia.
    split; [reflexivity |]. split; [apply bounded_intro; [assumption | lia] |].
    split; [lia |].
    rewrite Hmz.
    replace (ex + 1074) with (Zpos p + (e1 + 1074)) by lia.
    rewrite (Z.pow_add_r 2 (Zpos p)) by lia.
    replace (Zpos mx * 2 ^ Zpos p * 2 ^ (e1 + 1074)
             - Zpos mx * (2 ^ Zpos p * 2 ^ (e1 + 1074))) with 0 by ring.
    simpl Z.abs. rewrite Z.mul_0_r.
    assert (0 < 2 ^ Zpos p * 2 ^ (e1 + 1074))
      by (apply Z.mul_pos_pos; apply Z.pow_pos_nonneg; lia).
    nia.
Qed.

Lemma cond_Zopp_mul (s : bool) (a b : Z) : cond_Zopp s a * b = cond_Zopp s (a * b).
Proof. destruct s; simpl; lia. Qed.

Lemma abs_cond_Zopp (s : bool) (a : Z) : Z.abs (cond_Zopp s a) = Z.abs a.
Proof. destruct s; simpl; lia. Qed.

Lemma valid_finite (s : bool) (m : positive) (e : Z) :
  valid_binary (S754_finite s m e) = true ->
  -1074 <= e <= 971 /\ Zpos m < 2 ^ 53.
Proof.
  unfold SpecFloat.valid_binary, bounded, canonical_mantissa. intros H.
  apply andb_prop in H. destruct H as [Hc He].
  apply Z.eqb_eq in Hc. apply Z.leb_le in He. change (emax - prec) with 971 in He.
  rewrite fexp_eq in Hc.
  pose proof (digits2_bounds m) as [_ Bhi].
  assert (Zpos (digits2_pos m) <= 53) by lia.
  assert (2 ^ Zpos (digits2_pos m) <= 2 ^ 53) by (apply Z.pow_le_mono_r; lia).
  lia.
Qed.

Lemma binary_normalize_correct (M e : Z) :
  -1074 <= e -> Z.abs M * 2 ^ (e + 1074) < 2 ^ 2074 ->
  let r := binary_normalize prec emax M e false in
  SFfinite r = true /\ valid_binary r = true
  /\ 2 ^ 53 * Z.abs (SFticks r - M * 2 ^ (e + 1074)) <= Z.abs M * 2 ^ (e + 1074).
Proof.
  intros He Hb.
  assert (HS : 0 < 2 ^ (e + 1074)) by (apply Z.pow_pos_nonneg; lia).
  assert (Hdig : forall m : positive, Zpos m * 2 ^ (e + 1074) < 2 ^ 2074 ->
                 Zpos (digits2_pos m) + e <= 1000).
  { intros m Hm. pose proof (digits2_bounds m) as [Blo _].
    destruct (Z.leb_spec (Zpos (digits2_pos m) + e) 1000) as [|Hgt]; [assumption |].
    exfalso.
    assert (2 ^ 2074 <= 2 ^ (Zpos (digits2_pos m) - 1) * 2 ^ (e + 1074)).
    { rewrite <- Z.pow_add_r by lia. apply Z.pow_le_mono_r; lia. }
    nia. }
  destruct M as [|m|m]; cbn [binary_normalize].
  - cbn. lia.
  - destruct (binary_round_correct false m e He (Hdig m Hb))
      as (m' & e' & Hr & Hbd & He' & Herr).
    rewrite Hr. cbn [SFfinite SpecFloat.valid_binary SFticks cond_Zopp].
    split; [reflexivity |]. split; [exact Hbd |]. exact Herr.
  - change (Z.abs (Zneg m)) with (Zpos m) in *.
    destruct (binary_round_correct true m e He (Hdig m Hb))
      as (m' & e' & Hr & Hbd & He' & Herr).
    rewrite Hr. cbn [SFfinite SpecFloat.valid_binary SFticks cond_Zopp].
    split; [reflexivity |]. split; [exact Hbd |].
    replace (- (Zpos m' * 2 ^ (e' + 1074)) - Zneg m * 2 ^ (e + 1074))
      with (- (Zpos m' * 2 ^ (e' + 1074) - Zpos m * 2 ^ (e + 1074))) by lia.
    rewrite Z.abs_opp. exact Herr.
Qed.

Lemma shl_align_fst (m : positive) (e ez : Z) :
  ez <= e -> Zpos (fst (shl_align m e ez)) = Zpos m * 2 ^ (e - ez).
Proof.
  intros H. unfold shl_align. destruct (ez - e) as [|p|p] eqn:E; cbn [fst].
  - replace (e - ez) with 0 by lia. simpl. lia.
  - lia.
  - rewrite iter_xO_mul. f_equal. f_equal. lia.
Qed.

Lemma aligned_ticks (s : bool) (m : positive) (e ez : Z) :
  -1074 <= ez <= e ->
  cond_Zopp s (Zpos (fst (shl_align m e ez))) * 2 ^ (ez + 1074)
  = SFticks (S754_finite s m e).
Proof.
  intros H. rewrite shl_align_fst by lia. cbn [SFticks].
  rewrite cond_Zopp_mul. f_equal. rewrite <- Z.mul_assoc. f_equal.
  rewrite <- Z.pow_add_r by lia. f_equal. lia.
Qed.

(** Sum and difference of two finite floats of moderate size: finite,
    valid, and within a relative 2^-53 of the exact result. *)
Lemma SFadd_correct (x y : spec_float) :
  valid_binary x = true -> valid_binary y = true ->
  SFfinite x = true -> SFfinite y = true ->
  Z.abs (SFticks x + SFticks y) < 2 ^ 2074 ->
  let r := SF64add x y in
  SFfinite r = true /\ valid_binary r = true
  /\ 2 ^ 53 * Z.abs (SFticks r - (SFticks x + SFticks y))
     <= Z.abs (SFticks x + SFticks y).
Proof.
  intros Vx Vy Fx Fy Hb.
  destruct x as [sx | sx | | sx mx ex]; try discriminate Fx;
    destruct y as [sy | sy | | sy my ey]; try discriminate Fy.
  - destruct sx, sy; cbn; lia.
  - cbn [SF64add SFadd]. cbv zeta. cbn [SFticks] in *. rewrite Z.add_0_l in *.
    rewrite Z.sub_diag. cbn [Z.abs].
    split; [reflexivity |]. split; [exact Vy | lia].
  - cbn [SF64add SFadd]. cbv zeta. cbn [SFticks] in *. rewrite Z.add_0_r in *.
    rewrite Z.sub_diag. cbn [Z.abs].
    split; [reflexivity |]. split; [exact Vx | lia].
  - destruct (valid_finite _ _ _ Vx) as [Hex _].
    destruct (valid_finite _ _ _ Vy) as [Hey _].
    unfold SF64add, SFadd. cbv zeta.
    set (ez := Z.min ex ey).
    set (M := cond_Zopp sx (Zpos (fst (shl_align mx ex ez)))
              + cond_Zopp sy (Zpos (fst (shl_align my ey ez)))).
    assert (HM : M * 2 ^ (ez + 1074)
                 = SFticks (S754_finite sx mx ex) + SFticks (S754_finite sy my ey)).
    { unfold M. rewrite Z.mul_add_distr_r.
      rewrite !aligned_ticks by (unfold ez; lia). reflexivity. }
    assert (HS : 0 < 2 ^ (ez + 1074)) by (apply Z.pow_pos_nonneg; unfold ez; lia).
    rewrite <- HM in *.
    assert (HA : Z.abs (M * 2 ^ (ez + 1074)) = Z.abs M * 2 ^ (ez + 1074))
      by (rewrite Z.abs_mul, (Z.abs_eq (2 ^ (ez + 1074))) by lia; reflexivity).
    rewrite HA in *.
    apply binary_normalize_correct; [unfold ez; lia | assumption].
Qed.

Lemma SFsub_correct (x y : spec_float) :
  valid_binary x = true -> valid_binary y = true ->
  SFfinite x = true -> SFfinite y = true ->
  Z.abs (SFticks x - SFticks y) < 2 ^ 2074 ->
  let r := SF64sub x y in
  SFfinite r = true /\ valid_binary r = true
  /\ 2 ^ 53 * Z.abs (SFticks r - (SFticks x - SFticks y))
     <= Z.abs (SFticks x - SFticks y).
Proof.
  intros Vx Vy Fx Fy Hb.
  destruct x as [sx | sx | | sx mx ex]; try discriminate Fx;
    destruct y as [sy | sy | | sy my ey]; try discriminate Fy.
  - destruct sx, sy; cbn; lia.
  - cbn [SF64sub SFsub]. cbv zeta. cbn [SFticks SFfinite SpecFloat.valid_binary] in *.
    split; [reflexivity |]. split; [exact Vy |].
    replace (cond_Zopp (negb sy) (Zpos my * 2 ^ (ey + 1074))
             - (0 - cond_Zopp sy (Zpos my * 2 ^ (ey + 1074)))) with 0
      by (destruct sy; simpl; lia).
    cbn [Z.abs]. lia.
  - cbn [SF64sub SFsub]. cbv zeta. cbn [SFticks] in *. rewrite Z.sub_0_r in *.
    rewrite Z.sub_diag. cbn [Z.abs].
    split; [reflexivity |]. split; [exact Vx | lia].
  - destruct (valid_finite _ _ _ Vx) as [Hex _].
    destruct (valid_finite _ _ _ Vy) as [Hey _].
    unfold SF64sub, SFsub. cbv zeta.
    set (ez := Z.min ex ey).
    set (M := cond_Zopp sx (Zpos (fst (shl_align mx ex ez)))
              - cond_Zopp sy (Zpos (fst (shl_align my ey ez)))).
    assert (HM : M * 2 ^ (ez + 1074)
                 = SFticks (S754_finite sx mx ex) - SFticks (S754_finite sy my ey)).
    { unfold M. rewrite Z.mul_sub_distr_r.
      rewrite !aligned_ticks by (unfold ez; lia). reflexivity. }
    assert (HS : 0 < 2 ^ (ez + 1074)) by (apply Z.pow_pos_nonneg; unfold ez; lia).
    rewrite <- HM in *.
    assert (HA : Z.abs (M * 2 ^ (ez + 1074)) = Z.abs M * 2 ^ (ez + 1074))
      by (rewrite Z.abs_mul, (Z.abs_eq (2 ^ (ez + 1074))) by lia; reflexivity).
    rewrite HA in *.
    apply binary_normalize_correct; [unfold ez; lia | assumption].
Qed.

(** ** Doubles of moderate size *)

Lemma Prim2SF_2p31 :
  Prim2SF 2147483648%float = S754_finite false 4503599627370496 (-21).
Proof. vm_compute. reflexivity. Qed.

Lemma within31_bound (x : float) :
  within31 x -> finite x = true /\ Z.abs (ticks x) <= 2 ^ 1105.
Proof.
  unfold within31, fabs, finite, ticks.
  rewrite leb_spec, abs_spec, Prim2SF_2p31.
  pose proof (Prim2SF_valid x) as V.
  destruct (Prim2SF x) as [s | s | | s m e]; cbn [SFabs SFfinite SFticks].
  - intros _. split; [reflexivity | simpl Z.abs; apply Z.pow_nonneg; clear; lia].
  - unfold SFleb. cbn. discriminate.
  - unfold SFleb. cbn. discriminate.
  - destruct (valid_finite _ _ _ V) as [He Hm].
    unfold SFleb, SFcompare. intros H. split; [reflexivity |].
    rewrite abs_cond_Zopp, Z.abs_eq
      by (apply Z.mul_nonneg_nonneg; [| apply Z.pow_nonneg]; clear; lia).
    destruct (Z.compare_spec e (-21)) as [-> | Hlt | Hgt].
    + assert (Hle : (m <= 4503599627370496)%positive).
      { unfold Pos.le. rewrite Pos.compare_cont_spec in H. simpl in H.
        destruct (m ?= 4503599627370496)%positive; (discriminate || congruence). }
      change (2 ^ 1105) with (4503599627370496 * 2 ^ (-21 + 1074)).
      apply Z.mul_le_mono_nonneg_r; [apply Z.pow_nonneg; clear; lia | exact Hle].
    + clear H V.
      assert (Hp : 2 ^ (e + 1074) <= 2 ^ 1052) by (apply Z.pow_le_mono_r; lia).
      assert (H0 : 0 < 2 ^ (e + 1074)) by (apply Z.pow_pos_nonneg; lia).
      change (2 ^ 1105) with (2 ^ 53 * 2 ^ 1052).
      apply Z.mul_le_mono_nonneg; lia.
    + discriminate.
Qed.

Lemma SFsub_self (x : spec_float) :
  SFfinite x = true -> exists s, SF64sub x x = S754_zero s.
Proof.
  destruct x as [s | s | | s m e]; try discriminate; intros _.
  - exists false. destruct s; reflexivity.
  - exists false. unfold SF64sub, SFsub. cbv zeta.
    rewrite Z.sub_diag. reflexivity.
Qed.

Lemma SFmul_zero_l (s : bool) (y : spec_float) :
  SFfinite y = true -> exists s', SF64mul (S754_zero s) y = S754_zero s'.
Proof.
  destruct y as [sy | sy | | sy my ey]; try discriminate; intros _;
    eexists; reflexivity.
Qed.

Lemma SFsub_zero_r (x : spec_float) (s : bool) :
  SFfinite x = true ->
  SFfinite (SF64sub x (S754_zero s)) = true
  /\ SFticks (SF64sub x (S754_zero s)) = SFticks x.
Proof.
  destruct x as [sx | sx | | sx mx ex]; try discriminate; intros _.
  - destruct sx, s; split; reflexivity.
  - split; reflexivity.
Qed.

(** The arithmetic of the restamping error, with [U] standing for 2^1000
    ticks: two values below 2^105 U, a difference and a sum each rounded
    with relative error 2^-53. *)
Lemma restamp_arith (U V T A B : Z) :
  0 < U ->
  Z.abs V <= 2 ^ 105 * U -> Z.abs T <= 2 ^ 105 * U ->
  2 ^ 53 * Z.abs (A - (V - T)) <= Z.abs (V - T) ->
  2 ^ 53 * Z.abs (B - (A + T)) <= Z.abs (A + T) ->
  1000000 * Z.abs (B - V) <= 2 ^ 74 * U.
Proof.
  change (2 ^ 105) with 40564819207303340847894502572032.
  change (2 ^ 74) with 18889465931478580854784.
  change (2 ^ 53) with 9007199254740992.
  lia.
Qed.

Lemma restamp_sum_small (U V T A : Z) :
  0 < U ->
  Z.abs V <= 2 ^ 105 * U -> Z.abs T <= 2 ^ 105 * U ->
  2 ^ 53 * Z.abs (A - (V - T)) <= Z.abs (V - T) ->
  Z.abs (A + T) < 2 ^ 1074 * U.
Proof.
  intros HU. assert (2 ^ 106 * U <= 2 ^ 1074 * U).
  { apply Z.mul_le_mono_nonneg_r; [lia |]. apply Z.pow_le_mono_r; lia. }
  change (2 ^ 105) with 40564819207303340847894502572032.
  change (2 ^ 106) with 81129638414606681695789005144064 in *.
  change (2 ^ 53) with 9007199254740992.
  generalize dependent (2 ^ 1074). intros X HX. lia.
Qed.

Lemma restamp_diff_small (U V T : Z) :
  0 < U ->
  Z.abs V <= 2 ^ 105 * U -> Z.abs T <= 2 ^ 105 * U ->
  Z.abs (V - T) < 2 ^ 1074 * U.
Proof.
  intros HU. assert (2 ^ 107 * U <= 2 ^ 1074 * U).
  { apply Z.mul_le_mono_nonneg_r; [lia |]. apply Z.pow_le_mono_r; lia. }
  change (2 ^ 105) with 40564819207303340847894502572032.
  change (2 ^ 107) with 162259276829213363391578010288128 in *.
  generalize dependent (2 ^ 1074). intros X HX. lia.
Qed.

(** The value read back after restamping: [(v - t) + t - (t - t) * (1 - s)]
    is a number within a microsecond of [v]. *)
Lemma restamp_close (v t s : float) :
  within31 v -> within31 t -> within31 s ->
  let r := (v - t + t - (t - t) * (1.0 - s))%float in
  finite r = true /\ 1000000 * Z.abs (ticks r - ticks v) <= 2 ^ 1074.
Proof.
  intros Hv Ht Hs r.
  destruct (within31_bound v Hv) as [Fv Bv].
  destruct (within31_bound t Ht) as [Ft Bt].
  destruct (within31_bound s Hs) as [Fs Bs].
  assert (F1 : finite 1.0%float = true) by (vm_compute; reflexivity).
  assert (B1 : Z.abs (ticks 1.0%float) <= 2 ^ 105 * 2 ^ 1000)
    by (vm_compute; discriminate).
  unfold finite, ticks in *.
  change (2 ^ 1105) with (2 ^ 105 * 2 ^ 1000) in Bv, Bt, Bs.
  change (2 ^ 1074) with (2 ^ 74 * 2 ^ 1000).
  assert (U0 : 0 < 2 ^ 1000) by (apply Z.pow_pos_nonneg; clear; lia).
  (* a = v - t *)
  destruct (SFsub_correct (Prim2SF v) (Prim2SF t) (Prim2SF_valid v)
              (Prim2SF_valid t) Fv Ft
              (restamp_diff_small _ _ _ U0 Bv Bt)) as (Fa & _ & Ea).
  rewrite <- sub_spec in Fa, Ea.
  (* b = a + t *)
  destruct (SFadd_correct (Prim2SF (v - t)) (Prim2SF t) (Prim2SF_valid _)
              (Prim2SF_valid t) Fa Ft
              (restamp_sum_small _ _ _ _ U0 Bv Bt Ea)) as (Fb & _ & Eb).
  rewrite <- add_spec in Fb, Eb.
  (* z = t - t is a zero *)
  destruct (SFsub_self (Prim2SF t) Ft) as [sz Hz]. rewrite <- sub_spec in Hz.
  (* o = 1 - s is finite *)
  destruct (SFsub_correct (Prim2SF 1.0%float) (Prim2SF s) (Prim2SF_valid _)
              (Prim2SF_valid s) F1 Fs
              (restamp_diff_small _ _ _ U0 B1 Bs)) as (Fo & _ & _).
  rewrite <- sub_spec in Fo.
  (* p = z * o is a zero *)
  destruct (SFmul_zero_l sz _ Fo) as [sp Hp].
  rewrite <- Hz, <- mul_spec in Hp.
  (* r = b - p *)
  destruct (SFsub_zero_r (Prim2SF (v - t + t)) sp Fb) as [Fr Er].
  rewrite <- Hp, <- sub_spec in Fr, Er.
  subst r. split; [exact Fr |].
  rewrite Er. exact (restamp_arith _ _ _ _ _ U0 Bv Bt Ea Eb).
Qed.

(** ** NaN *)

Lemma SFcompare_refl (x : spec_float) :
  x <> S754_nan -> SFcompare x x = Some Eq.
Proof.
  destruct x as [s | s | | s m e]; intros H; try reflexivity.
  - destruct s; reflexivity.
  - contradiction.
  - simpl. rewrite Z.compare_refl, Pos.compare_cont_refl.
    destruct s; reflexivity.
Qed.

Lemma isnan_spec (x : float) : isnan x = true <-> Prim2SF x = S754_nan.
Proof.
  unfold isnan, is_nan. rewrite eqb_spec. unfold SFeqb.
  destruct (Prim2SF x) as [s | s | | s m e] eqn:E.
  - rewrite SFcompare_refl by discriminate. split; discriminate.
  - rewrite SFcompare_refl by discriminate. split; discriminate.
  - simpl. split; reflexivity.
  - rewrite SFcompare_refl by discriminate. split; discriminate.
Qed.

(** A NaN stays a NaN through the restamping. *)
Lemma restamp_nan (v t p : float) :
  isnan v = true -> isnan (v - t + t - p)%float = true.
Proof.
  rewrite !isnan_spec. intros Hv.
  rewrite sub_spec, add_spec, sub_spec, Hv. reflexivity.
Qed.

(** ** Continuity of a clock across a speed change *)

(** C7.  If the wall clock does not advance over the calls and the time
    and the new speed are at most 2^31 in absolute value (so neither NaN
    nor infinite), then the reading taken right after [set_clock_speed] is
    the one taken right before it: NaN if that was NaN, and within one
    microsecond of it if that was a number of at most 2^31 in absolute
    value. *)
Theorem speed_change_continuity (mem : serials) (c : Clock) (s : float)
    (w : World) :
  wall w (S (reads w)) = wall w (reads w) ->
  wall w (S (S (reads w))) = wall w (reads w) ->
  within31 (fst (time_now w)) ->
  within31 s ->
  let before := fst (get_clock mem c w) in
  let c' := fst (set_clock_speed mem c s w) in
  let w' := snd (set_clock_speed mem c s w) in
  let after := fst (get_clock mem c' w') in
  (isnan before = true -> isnan after = true)
  /\ (within31 before -> within_1us after before).
Proof.
  intros H1 H2 Ht Hs. cbv zeta.
  unfold set_clock_speed, set_clock, get_clock.
  destruct (negb (mem (c_queue_serial c) =? c_serial c)) eqn:Eser.
  { (* the clock is obsolete: NaN before and after *)
    unfold time_now, av_gettime_relative. cbn [fst snd].
    cbn [with_speed set_clock_at c_queue_serial c_serial c_paused c_pts].
    rewrite Eser. cbn [fst]. split; [intros _; reflexivity |].
    intros Hv. vm_compute in Hv. discriminate Hv. }
  destruct (negb (c_paused c =? 0)) eqn:Epau.
  - (* paused: the reading is [pts], which the restamping keeps *)
    unfold time_now, av_gettime_relative. cbn [fst snd].
    cbn [with_speed set_clock_at c_queue_serial c_serial c_paused c_pts].
    rewrite Eser, Epau. cbn [fst]. split; [intros Hn; exact Hn |].
    intros Hv. destruct (within31_bound _ Hv) as [Fv _].
    unfold within_1us. split; [exact Fv |]. split; [exact Fv |].
    rewrite Z.sub_diag. cbn [Z.abs]. rewrite Z.mul_0_r.
    apply Z.pow_nonneg. clear. lia.
  - unfold time_now, av_gettime_relative in *. cbn [fst snd wall reads] in *.
    cbn [with_speed set_clock_at c_queue_serial c_serial c_paused c_pts
         c_pts_drift c_last_updated c_speed].
    rewrite Eser, Epau. cbn [fst snd wall reads]. rewrite H1, H2.
    split; [apply restamp_nan |].
    intros Hv. destruct (within31_bound _ Hv) as [Fv _].
    destruct (restamp_close _ _ _ Hv Ht Hs) as [Fr Er].
    unfold within_1us. split; [exact Fr |]. split; [exact Fv | exact Er].
Qed.

(** A clock reading 6 s, sped up to 1.01. *)
Lemma speed_change_continuity_witness :
  within_1us
    (fst (get_clock (fun _ => 1)
            (fst (set_clock_speed (fun _ => 1) clock_at_6 faster frozen_world))
            (snd (set_clock_speed (fun _ => 1) clock_at_6 faster frozen_world))))
    (fst (get_clock (fun _ => 1) clock_at_6 frozen_world)).
Proof.
  exact (proj2 (speed_change_continuity (fun _ => 1) clock_at_6 faster
                  frozen_world eq_refl eq_refl eq_refl eq_refl) eq_refl).
Defined.

(** ** Products and quotients of doubles *)

Lemma pow2_pos (k : Z) : 0 <= k -> 0 < 2 ^ k.
Proof. intros H. apply Z.pow_pos_nonneg; lia. Qed.

Lemma pow2_lt_inv (a b : Z) : 0 <= b -> 2 ^ a < 2 ^ b -> a < b.
Proof.
  intros Hb H. destruct (Z.ltb_spec a b) as [|Hge]; [assumption |].
  assert (2 ^ b <= 2 ^ a) by (apply Z.pow_le_mono_r; lia). lia.
Qed.

Lemma moderate_shape (x : spec_float) :
  valid_binary x = true -> SFmoderate x ->
  exists s m e, x = S754_finite s m e
    /\ 2 ^ 52 <= Zpos m < 2 ^ 53
    /\ Zpos (digits2_pos m) = 53
    /\ -352 <= e <= 248.
Proof.
  intros V [F [Blo Bhi]].
  destruct x as [s | s | | s m e]; try discriminate F.
  - exfalso. cbn [SFticks Z.abs] in Blo.
    assert (0 < 2 ^ 774) by (apply pow2_pos; lia). lia.
  - exists s, m, e. split; [reflexivity |].
    cbn [SFticks] in Blo, Bhi. rewrite abs_cond_Zopp in Blo, Bhi.
    destruct (valid_finite _ _ _ V) as [He Hm].
    unfold SpecFloat.valid_binary, bounded, canonical_mantissa in V.
    apply andb_prop in V. destruct V as [Hc _]. apply Z.eqb_eq in Hc.
    rewrite fexp_eq in Hc.
    pose proof (digits2_bounds m) as [Dlo Dhi].
    assert (P0 : 0 < 2 ^ (e + 1074)) by (apply pow2_pos; lia).
    rewrite Z.abs_eq in Blo, Bhi by lia.
    assert (He1 : -1074 < e).
    { destruct (Z.eq_dec e (-1074)) as [-> | Hn]; [| lia].
      exfalso. change (2 ^ (-1074 + 1074)) with 1 in Blo.
      assert (2 ^ 53 < 2 ^ 774) by (apply Z.pow_lt_mono_r; lia). lia. }
    assert (Hd : Zpos (digits2_pos m) = 53) by lia.
    rewrite Hd in Dlo. change (53 - 1) with 52 in Dlo.
    split; [lia |]. split; [exact Hd |].
    split.
    + assert (2 ^ 774 < 2 ^ (53 + (e + 1074))).
      { rewrite Z.pow_add_r by lia. nia. }
      apply pow2_lt_inv in H; lia.
    + assert (2 ^ (52 + (e + 1074)) < 2 ^ 1375).
      { rewrite Z.pow_add_r by lia.
        assert (2 ^ 1374 < 2 ^ 1375) by (apply Z.pow_lt_mono_r; lia). nia. }
      apply pow2_lt_inv in H; lia.
Qed.

Lemma digits2_mul (a b : positive) :
  Zpos (digits2_pos a) = 53 -> Zpos (digits2_pos b) = 53 ->
  105 <= Zpos (digits2_pos (a * b)) <= 106.
Proof.
  intros Ha Hb.
  pose proof (digits2_bounds a) as [A1 A2]. pose proof (digits2_bounds b) as [B1 B2].
  pose proof (digits2_bounds (a * b)) as [C1 C2].
  rewrite Ha in A1, A2. rewrite Hb in B1, B2. change (53 - 1) with 52 in *.
  rewrite Pos2Z.inj_mul in C1, C2.
  assert (L : 2 ^ 104 <= Zpos a * Zpos b) by (change (2 ^ 104) with (2 ^ 52 * 2 ^ 52); nia).
  assert (U : Zpos a * Zpos b < 2 ^ 106) by (change (2 ^ 106) with (2 ^ 53 * 2 ^ 53); nia).
  split.
  - assert (2 ^ 104 < 2 ^ Zpos (digits2_pos (a * b))) by lia.
    apply pow2_lt_inv in H; lia.
  - assert (2 ^ (Zpos (digits2_pos (a * b)) - 1) < 2 ^ 106) by lia.
    apply pow2_lt_inv in H; lia.
Qed.

(** The product of two moderate doubles: a number within a relative
    2^-53 of the exact product (both sides in units of 2^-2148). *)
Lemma SFmul_correct (x y : spec_float) :
  valid_binary x = true -> valid_binary y = true ->
  SFmoderate x -> SFmoderate y ->
  let r := SF64mul x y in
  SFfinite r = true /\ valid_binary r = true
  /\ 2 ^ 53 * Z.abs (SFticks r * 2 ^ 1074 - SFticks x * SFticks y)
     <= Z.abs (SFticks x * SFticks y).
Proof.
  intros Vx Vy Mx My.
  destruct (moderate_shape x Vx Mx) as (sx & mx & ex & -> & Hmx & Hdx & Hex).
  destruct (moderate_shape y Vy My) as (sy & my & ey & -> & Hmy & Hdy & Hey).
  cbv zeta. unfold SF64mul, SFmul.
  pose proof (digits2_mul mx my Hdx Hdy) as Hd.
  destruct (binary_round_aux_shift (xorb sx sy) (mx * my) (ex + ey)
              ltac:(lia) ltac:(lia) ltac:(lia)) as (m' & e' & Hr & Hb & He' & Herr).
  rewrite Hr. cbn [SFfinite SpecFloat.valid_binary SFticks].
  split; [reflexivity |]. split; [exact Hb |].
  set (d := Zpos (digits2_pos (mx * my))) in *.
  set (E := ex + ey) in *.
  pose proof (digits2_bounds (mx * my)) as [Dlo _]. fold d in Dlo.
  rewrite Pos2Z.inj_mul in *.
  set (M := Zpos mx * Zpos my) in *.
  set (W := 2 ^ (E + 2148)).
  assert (W0 : 0 < W) by (apply pow2_pos; unfold E; lia).
  assert (T1 : cond_Zopp (xorb sx sy) (Zpos m' * 2 ^ (e' + 1074)) * 2 ^ 1074
               = cond_Zopp (xorb sx sy) (Zpos m' * 2 ^ (e' - E) * W)).
  { rewrite cond_Zopp_mul. f_equal. unfold W.
    rewrite <- !Z.mul_assoc. f_equal. rewrite <- !Z.pow_add_r by (unfold E in *; lia).
    f_equal. lia. }
  assert (T2 : cond_Zopp sx (Zpos mx * 2 ^ (ex + 1074))
               * cond_Zopp sy (Zpos my * 2 ^ (ey + 1074))
               = cond_Zopp (xorb sx sy) (M * W)).
  { unfold M, W, E.
    replace (ex + ey + 2148) with ((ex + 1074) + (ey + 1074)) by lia.
    rewrite (Z.pow_add_r 2 (ex + 1074) (ey + 1074)) by (clear - Hex Hey; lia).
    destruct sx, sy; cbn [xorb cond_Zopp]; ring. }
  rewrite T1, T2.
  assert (T3 : forall a b, cond_Zopp (xorb sx sy) a - cond_Zopp (xorb sx sy) b
                           = cond_Zopp (xorb sx sy) (a - b))
    by (intros; destruct (xorb sx sy); cbn [cond_Zopp]; lia).
  rewrite T3, !abs_cond_Zopp.
  replace (Zpos m' * 2 ^ (e' - E) * W - M * W)
    with ((Zpos m' * 2 ^ (e' - E) - M) * W) by ring.
  rewrite !Z.abs_mul, (Z.abs_eq W) by lia.
  assert (P2 : 2 ^ (d - 1) = 2 ^ 52 * 2 ^ (d - 53)).
  { rewrite <- Z.pow_add_r by lia. f_equal. lia. }
  assert (HM : 0 < M) by (unfold M; lia).
  rewrite (Z.abs_eq M) by lia.
  assert (H2 : 2 ^ 53 * Z.abs (Zpos m' * 2 ^ (e' - E) - M) <= M).
  { assert (2 * Z.abs (Zpos m' * 2 ^ (e' - E) - M) <= 2 ^ (d - 53)) by lia.
    rewrite P2 in Dlo. clear - H Dlo.
    change (2 ^ 53) with 9007199254740992 in *.
    change (2 ^ 52) with 4503599627370496 in *.
    generalize dependent (2 ^ (d - 53)). intros X. intros. lia. }
  clear - H2 W0. nia.
Qed.

Lemma loc_start (q : Z) (l : location) :
  0 <= q -> shr_inv (4 * q + loc_code l) 2 (shr_record_of_loc q l).
Proof.
  intros Hq. unfold shr_inv.
  change (2 ^ (2 + 1)) with 8. change (2 ^ 2) with 4.
  destruct l as [|[| |]]; cbn [shr_record_of_loc shr_m shr_r shr_s loc_code b2z];
    (split; [assumption |]).
  - exists 0. split; [lia |]. split; [lia |]. split; [discriminate | lia].
  - exists 0. split; [lia |]. split; [lia |]. split; [discriminate | lia].
  - exists 2. split; [lia |]. split; [lia |]. split; [lia | reflexivity].
  - exists 2. split; [lia |]. split; [lia |]. split; [lia | reflexivity].
Qed.

(** The location that a division leaves is the quarter the exact
    quotient falls into. *)
Lemma new_location_code (m r : Z) :
  0 <= r < m ->
  Z.abs (loc_code (new_location m r) * m - 4 * r) <= m.
Proof.
  intros Hr. unfold new_location.
  destruct (Z.even m) eqn:Ev.
  - unfold new_location_even. destruct (Z.eqb_spec r 0) as [-> | Hn].
    + cbn [loc_code]. lia.
    + destruct (Z.compare_spec (2 * r) m); cbn [loc_code]; lia.
  - unfold new_location_odd. destruct (Z.eqb_spec r 0) as [-> | Hn].
    + cbn [loc_code]. lia.
    + assert (Hodd : 2 * r <> m).
      { intros E. rewrite <- E, Z.even_mul in Ev. discriminate Ev. }
      destruct (Z.compare_spec (2 * r + 1) m); cbn [loc_code]; lia.
Qed.

(** A mantissa of 53 bits or more with the location of the exact value
    above it: shifted to 53 bits and rounded, the result is within one
    unit of the last place kept (values in quarters of the mantissa's
    unit). *)
Lemma binary_round_aux_loc (sx : bool) (q : positive) (e : Z) (l : location) :
  let d := Zpos (digits2_pos q) in
  53 <= d -> -1074 <= e -> d + e <= 1000 ->
  exists m' e',
    binary_round_aux prec emax sx (Zpos q) e l = S754_finite sx m' e'
    /\ bounded prec emax m' e' = true
    /\ e <= e'
    /\ Z.abs (4 * (Zpos m' * 2 ^ (e' - e)) - (4 * Zpos q + loc_code l))
       <= 2 ^ (d - 52).
Proof.
  intros d Hd Hex Hov.
  pose proof (digits2_bounds q) as [Blo Bhi]. fold d in Blo, Bhi.
  set (n := d - 53).
  assert (Hn : 0 <= n) by (unfold n; lia).
  set (M := 4 * Zpos q + loc_code l).
  assert (Hc : 0 <= loc_code l <= 3) by (destruct l as [|[| |]]; cbn; lia).
  unfold binary_round_aux.
  assert (Hsh : exists rec,
             shr_fexp prec emax (Zpos q) e l = (rec, e + n)
             /\ shr_inv M (n + 2) rec).
  { unfold shr_fexp, shr. cbn [Zdigits2]. fold d. rewrite fexp_eq.
    replace (Z.max (d + e - 53) (-1074) - e) with n by (unfold n; lia).
    pose proof (loc_start (Zpos q) l ltac:(lia)) as H0. fold M in H0.
    destruct n as [|p|p] eqn:En; try lia.
    - eexists. split; [rewrite Z.add_0_r; reflexivity | exact H0].
    - eexists. split; [reflexivity |].
      replace (Zpos p + 2) with (2 + Zpos p) by lia.
      apply shr_inv_iter; [lia | exact H0]. }
  destruct Hsh as (rec & Hsh & Hinv). rewrite Hsh.
  pose proof (round_nearest_even_error M (n + 2) rec ltac:(lia) Hinv) as Hrnd.
  cbv zeta in Hrnd.
  set (m1 := round_nearest_even (shr_m rec) (loc_of_shr_record rec)) in *.
  destruct Hrnd as [Hm1 Herr].
  destruct Hinv as [Hq0 (low & Heq & Hlow & _)].
  assert (Pn0 : 0 < 2 ^ n) by (apply pow2_pos; lia).
  assert (Pn2 : 2 ^ (n + 2) = 4 * 2 ^ n)
    by (rewrite Z.pow_add_r by lia; change (2 ^ 2) with 4; lia).
  assert (Pn3 : 2 ^ (n + 2 + 1) = 8 * 2 ^ n)
    by (rewrite !Z.pow_add_r by lia; change (2 ^ 2) with 4; change (2 ^ 1) with 2; lia).
  rewrite Pn2, Pn3 in *.
  assert (Pd : 2 ^ (d - 1) = 2 ^ 52 * 2 ^ n).
  { replace (d - 1) with (52 + n) by (unfold n; lia).
    apply Z.pow_add_r; lia. }
  assert (Pd' : 2 ^ d = 2 ^ 53 * 2 ^ n).
  { replace d with (53 + n) at 1 by (unfold n; lia).
    apply Z.pow_add_r; lia. }
  assert (Pd2 : 2 ^ (d - 52) = 2 * 2 ^ n).
  { replace (d - 52) with (1 + n) by (unfold n; lia).
    rewrite Z.pow_add_r by lia. reflexivity. }
  rewrite Pd in Blo. rewrite Pd' in Bhi. rewrite Pd2.
  assert (Hq : 2 ^ 52 <= shr_m rec < 2 ^ 53).
  { assert (b2z (shr_r rec) = 0 \/ b2z (shr_r rec) = 1)
      by (destruct (shr_r rec); simpl; auto).
    unfold M in Heq.
    generalize dependent (2 ^ n). intros X. intros.
    change (2 ^ 52) with 4503599627370496 in *.
    change (2 ^ 53) with 9007199254740992 in *. nia. }
  assert (Hm1r : 2 ^ 52 <= m1 <= 2 ^ 53) by lia.
  assert (He1 : e + n <= 947) by (unfold n; lia).
  destruct (Z.eq_dec m1 (2 ^ 53)) as [Htop | Hlt].
  - rewrite Htop. change (2 ^ 53) with (Zpos 9007199254740992).
    exists 4503599627370496%positive, (e + n + 1).
    assert (Hsh2 : shr_fexp prec emax (Zpos 9007199254740992) (e + n) loc_Exact
                   = ({| shr_m := Zpos 4503599627370496; shr_r := false;
                         shr_s := false |}, e + n + 1)).
    { unfold shr_fexp, shr. rewrite fexp_eq.
      change (Zdigits2 (Zpos 9007199254740992)) with 54.
      replace (Z.max (54 + (e + n) - 53) (-1074) - (e + n)) with 1 by lia.
      reflexivity. }
    rewrite Hsh2. cbn [shr_m]. change (emax - prec) with 971.
    destruct (Z.leb_spec (e + n + 1) 971); [| lia].
    split; [reflexivity |]. split; [| split].
    + apply bounded_intro; [| lia]. rewrite fexp_eq.
      change (Zpos (digits2_pos 4503599627370496)) with 53. lia.
    + lia.
    + replace (e + n + 1 - e) with (n + 1) by lia.
      rewrite Z.pow_add_r by lia. change (2 ^ 1) with 2.
      rewrite Htop in Herr. change (2 ^ 53) with 9007199254740992 in Herr.
      clear - Herr. generalize dependent (2 ^ n). intros X Herr. lia.
  - destruct m1 as [|m1p|m1p] eqn:Em1;
      [change (2 ^ 52) with 4503599627370496 in Hm1r; lia | |
       change (2 ^ 52) with 4503599627370496 in Hm1r; lia].
    exists m1p, (e + n).
    assert (Hdig : Zpos (digits2_pos m1p) = 53)
      by (apply digits2_unique; change (53 - 1) with 52; lia).
    assert (Hfe : fexp prec emax (Zpos (digits2_pos m1p) + (e + n)) = e + n)
      by (rewrite fexp_eq, Hdig; lia).
    rewrite (shr_fexp_noshift m1p (e + n)) by lia. cbn [shr_m].
    change (emax - prec) with 971.
    destruct (Z.leb_spec (e + n) 971); [| lia].
    split; [reflexivity |]. split; [| split].
    + apply bounded_intro; [assumption | lia].
    + lia.
    + replace (e + n - e) with n by lia.
      clear - Herr. generalize dependent (2 ^ n). intros X Herr. lia.
Qed.

(** The quotient of two moderate doubles: a number within a relative
    2^-51 of the exact quotient. *)
Lemma SFdiv_correct (x y : spec_float) :
  valid_binary x = true -> valid_binary y = true ->
  SFmoderate x -> SFmoderate y ->
  let r := SF64div x y in
  SFfinite r = true /\ valid_binary r = true
  /\ 2 ^ 51 * Z.abs (SFticks r * SFticks y - SFticks x * 2 ^ 1074)
     <= Z.abs (SFticks x) * 2 ^ 1074.
Proof.
  intros Vx Vy Mx My.
  destruct (moderate_shape x Vx Mx) as (sx & mx & ex & -> & Hmx & Hdx & Hex).
  destruct (moderate_shape y Vy My) as (sy & my & ey & -> & Hmy & Hdy & Hey).
  cbv zeta. unfold SF64div, SFdiv, SFdiv_core_binary. cbn [Zdigits2].
  rewrite Hdx, Hdy, fexp_eq.
  set (E := ex - ey - 53).
  replace (Z.min (Z.max (53 + ex - (53 + ey) - 53) (-1074)) (ex - ey)) with E
    by (unfold E; lia).
  replace (ex - ey - E) with 53 by (unfold E; lia).
  rewrite Z.shiftl_mul_pow2 by lia.
  pose proof (Z_div_mod (Zpos mx * 2 ^ 53) (Zpos my) ltac:(lia)) as Hdiv.
  destruct (Z.div_eucl (Zpos mx * 2 ^ 53) (Zpos my)) as [q r].
  destruct Hdiv as [Hqr Hr].
  assert (Hq : 2 ^ 52 <= q < 2 ^ 54).
  { change (2 ^ 52) with 4503599627370496 in *.
    change (2 ^ 53) with 9007199254740992 in *.
    change (2 ^ 54) with 18014398509481984 in *. nia. }
  destruct q as [|qp|qp]; [exfalso; change (2 ^ 52) with 4503599627370496 in Hq; lia |
                           | exfalso; change (2 ^ 52) with 4503599627370496 in Hq; lia].
  pose proof (digits2_bounds qp) as [Dlo Dhi].
  assert (Hd : 53 <= Zpos (digits2_pos qp) <= 54).
  { split.
    - assert (H : 2 ^ 52 < 2 ^ Zpos (digits2_pos qp)) by lia.
      apply pow2_lt_inv in H; lia.
    - assert (H : 2 ^ (Zpos (digits2_pos qp) - 1) < 2 ^ 54) by lia.
      apply pow2_lt_inv in H; lia. }
  destruct (binary_round_aux_loc (xorb sx sy) qp E (new_location (Zpos my) r)
              ltac:(lia) ltac:(unfold E; lia) ltac:(unfold E; lia))
    as (m' & e' & Hres & Hb & He' & Herr).
  rewrite Hres. cbn [SFfinite SpecFloat.valid_binary SFticks].
  split; [reflexivity |]. split; [exact Hb |].
  pose proof (new_location_code (Zpos my) r Hr) as Hloc.
  set (c := loc_code (new_location (Zpos my) r)) in *.
  assert (Herr4 : Z.abs (4 * (Zpos m' * 2 ^ (e' - E)) - (4 * Zpos qp + c)) <= 4).
  { assert (2 ^ (Zpos (digits2_pos qp) - 52) <= 2 ^ 2)
      by (apply Z.pow_le_mono_r; lia).
    change (2 ^ 2) with 4 in *. lia. }
  set (A := Zpos m' * 2 ^ (e' - E)) in *.
  set (W := 2 ^ (ex + 2095)).
  assert (W0 : 0 < W) by (apply pow2_pos; lia).
  assert (T1 : cond_Zopp (xorb sx sy) (Zpos m' * 2 ^ (e' + 1074))
               * cond_Zopp sy (Zpos my * 2 ^ (ey + 1074))
               = cond_Zopp sx (A * Zpos my * W)).
  { assert (P : 2 ^ (e' + 1074) * 2 ^ (ey + 1074) = 2 ^ (e' - E) * W).
    { unfold W. rewrite <- !Z.pow_add_r by (unfold E in *; lia).
      f_equal. unfold E. lia. }
    unfold A.
    replace (Zpos m' * 2 ^ (e' - E) * Zpos my * W)
      with (Zpos m' * Zpos my * (2 ^ (e' - E) * W)) by ring.
    rewrite <- P. destruct sx, sy; cbn [xorb cond_Zopp]; ring. }
  assert (T2 : cond_Zopp sx (Zpos mx * 2 ^ (ex + 1074)) * 2 ^ 1074
               = cond_Zopp sx (Zpos mx * 2 ^ 53 * W)).
  { assert (P : 2 ^ (ex + 1074) * 2 ^ 1074 = 2 ^ 53 * W).
    { unfold W. rewrite <- !Z.pow_add_r by lia. f_equal. lia. }
    rewrite cond_Zopp_mul. f_equal. rewrite <- !Z.mul_assoc. f_equal. exact P. }
  assert (T3 : Z.abs (cond_Zopp sx (Zpos mx * 2 ^ (ex + 1074))) * 2 ^ 1074
               = Zpos mx * 2 ^ 53 * W).
  { rewrite abs_cond_Zopp, Z.abs_eq
      by (apply Z.mul_nonneg_nonneg; [lia | apply Z.pow_nonneg; lia]).
    assert (P : 2 ^ (ex + 1074) * 2 ^ 1074 = 2 ^ 53 * W).
    { unfold W. rewrite <- !Z.pow_add_r by lia. f_equal. lia. }
    rewrite <- !Z.mul_assoc. f_equal. exact P. }
  rewrite T1, T2, T3.
  assert (T4 : forall a b, cond_Zopp sx a - cond_Zopp sx b = cond_Zopp sx (a - b))
    by (intros; destruct sx; cbn [cond_Zopp]; lia).
  rewrite T4, abs_cond_Zopp.
  replace (A * Zpos my * W - Zpos mx * 2 ^ 53 * W)
    with ((A * Zpos my - Zpos mx * 2 ^ 53) * W) by ring.
  rewrite Z.abs_mul, (Z.abs_eq W) by lia.
  assert (H2 : 2 ^ 51 * Z.abs (A * Zpos my - Zpos mx * 2 ^ 53) <= Zpos mx * 2 ^ 53).
  { assert (K : 4 * (A * Zpos my - Zpos mx * 2 ^ 53)
                = (4 * A - (4 * Zpos qp + c)) * Zpos my + (c * Zpos my - 4 * r))
      by (rewrite Hqr; ring).
    assert (K2 : Z.abs ((4 * A - (4 * Zpos qp + c)) * Zpos my) <= 4 * Zpos my).
    { rewrite Z.abs_mul, (Z.abs_eq (Zpos my)) by lia.
      apply Z.mul_le_mono_nonneg_r; lia. }
    change (2 ^ 51) with 2251799813685248.
    change (2 ^ 52) with 4503599627370496 in *.
    change (2 ^ 53) with 9007199254740992 in *.
    clear - K K2 Hloc Hmx Hmy.
    generalize dependent ((4 * A - (4 * Zpos qp + c)) * Zpos my). intros P1 K K2.
    lia. }
  clear - H2 W0. nia.
Qed.

Lemma SFdiv_zero_l (s : bool) (y : spec_float) :
  SFmoderate y -> exists s', SF64div (S754_zero s) y = S754_zero s'.
Proof.
  intros [F [Blo _]]. destruct y as [sy | sy | | sy my ey]; try discriminate F.
  - exfalso. cbn [SFticks Z.abs] in Blo.
    assert (0 < 2 ^ 774) by (apply pow2_pos; lia). lia.
  - eexists. reflexivity.
Qed.

Lemma ticks_zero (x : spec_float) :
  valid_binary x = true -> SFfinite x = true -> SFticks x = 0 ->
  exists s, x = S754_zero s.
Proof.
  intros V F H. destruct x as [s | s | | s m e]; try discriminate F.
  - exists s. reflexivity.
  - exfalso. destruct (valid_finite _ _ _ V) as [He _].
    cbn [SFticks] in H.
    assert (0 < 2 ^ (e + 1074)) by (apply pow2_pos; lia).
    destruct s; cbn [cond_Zopp] in H; nia.
Qed.

Lemma mid_moderate (x : spec_float) : SFmid x -> SFmoderate x.
Proof.
  intros [F [Blo Bhi]]. split; [exact F |].
  assert (2 ^ 774 <= 2 ^ 1044) by (apply Z.pow_le_mono_r; lia).
  assert (2 ^ 1104 <= 2 ^ 1374) by (apply Z.pow_le_mono_r; lia).
  lia.
Qed.

(** A number of that size is a multiple of 2^-82. *)
Lemma mid_granular (x : spec_float) :
  valid_binary x = true -> SFmid x -> exists k, SFticks x = k * 2 ^ 992.
Proof.
  intros V M.
  destruct (moderate_shape x V (mid_moderate x M)) as (s & m & e & -> & Hm & _ & He).
  destruct M as [_ [Blo _]]. cbn [SFticks] in *. rewrite abs_cond_Zopp in Blo.
  assert (P0 : 0 < 2 ^ (e + 1074)) by (apply pow2_pos; lia).
  rewrite Z.abs_eq in Blo by lia.
  assert (H : 2 ^ 1044 < 2 ^ (53 + (e + 1074))).
  { rewrite Z.pow_add_r by lia. nia. }
  apply pow2_lt_inv in H; [| lia].
  exists (cond_Zopp s (Zpos m * 2 ^ (e + 1074 - 992))).
  rewrite cond_Zopp_mul. f_equal. rewrite <- Z.mul_assoc. f_equal.
  rewrite <- Z.pow_add_r by lia. f_equal. lia.
Qed.

(** The sum of two such numbers is within a relative 2^-53 of the exact
    sum, and is a zero or a moderate number. *)
Lemma SFadd_mid (x y : spec_float) :
  valid_binary x = true -> valid_binary y = true ->
  SFmid x -> SFmid y ->
  let r := SF64add x y in
  SFfinite r = true /\ valid_binary r = true
  /\ 2 ^ 53 * Z.abs (SFticks r - (SFticks x + SFticks y))
     <= Z.abs (SFticks x + SFticks y)
  /\ (SFticks r = 0 \/ SFmoderate r).
Proof.
  intros Vx Vy Mx My.
  destruct (mid_granular x Vx Mx) as [kx Hx].
  destruct (mid_granular y Vy My) as [ky Hy].
  destruct Mx as [Fx [_ Bx]]. destruct My as [Fy [_ By]].
  assert (P1 : 2 ^ 1104 + 2 ^ 1104 < 2 ^ 2074).
  { change (2 ^ 1104 + 2 ^ 1104) with (2 ^ 1105). apply Z.pow_lt_mono_r; lia. }
  destruct (SFadd_correct x y Vx Vy Fx Fy ltac:(lia)) as (Fr & Vr & Er).
  cbv zeta. split; [exact Fr |]. split; [exact Vr |]. split; [exact Er |].
  set (S := SFticks x + SFticks y) in *.
  set (T := SFticks (SF64add x y)) in *.
  assert (HS : S = (kx + ky) * 2 ^ 992) by (unfold S; rewrite Hx, Hy; ring).
  destruct (Z.eq_dec (kx + ky) 0) as [E0 | Hn].
  - left. rewrite E0 in HS. simpl in HS. rewrite HS in Er.
    change (2 ^ 53) with 9007199254740992 in Er. lia.
  - right. split; [exact Fr |].
    assert (Q0 : 0 < 2 ^ 992) by (apply pow2_pos; lia).
    assert (HSlo : 2 ^ 992 <= Z.abs S).
    { rewrite HS, Z.abs_mul, (Z.abs_eq (2 ^ 992)) by lia. nia. }
    assert (HShi : Z.abs S <= 2 ^ 1105).
    { change (2 ^ 1105) with (2 ^ 1104 + 2 ^ 1104). unfold S. lia. }
    assert (Q1 : 2 ^ 992 = 2 * 2 ^ 991) by (rewrite <- (pow2_succ 991) by lia; reflexivity).
    assert (Q2 : 2 ^ 774 <= 2 ^ 991) by (apply Z.pow_le_mono_r; lia).
    assert (Q3 : 2 ^ 1106 <= 2 ^ 1374) by (apply Z.pow_le_mono_r; lia).
    assert (Q4 : 2 ^ 1106 = 2 * 2 ^ 1105) by (rewrite <- (pow2_succ 1105) by lia; reflexivity).
    change (2 ^ 53) with 9007199254740992 in Er.
    clear - Er HSlo HShi Q1 Q2 Q3 Q4 Q0.
    generalize dependent (2 ^ 991). generalize dependent (2 ^ 992).
    generalize dependent (2 ^ 1105). generalize dependent (2 ^ 1106).
    generalize dependent (2 ^ 774). generalize dependent (2 ^ 1374).
    intros. lia.
Qed.

(** ** Rounding a double to an integer *)

(** [lrint] of a number between 0 and 2^26 lies on the same side of
    every integer as the number itself. *)
Lemma lrint_bounds (x : float) (k : Z) :
  finite x = true -> 0 <= ticks x <= 2 ^ 1100 ->
  0 <= lrint x <= 2 ^ 26
  /\ (k * 2 ^ 1074 <= ticks x -> k <= lrint x)
  /\ (ticks x <= k * 2 ^ 1074 -> lrint x <= k).
Proof.
  unfold finite, ticks, lrint, double_rint.
  pose proof (Prim2SF_valid x) as V.
  destruct (Prim2SF x) as [s | s | | s m e]; try discriminate; intros _ [Hlo Hhi].
  - cbn [SFticks]. change (2 ^ 26) with 67108864.
    assert (0 < 2 ^ 1074) by (apply pow2_pos; lia).
    cbn. split; [lia |]. split; intros; nia.
  - destruct (valid_finite _ _ _ V) as [He Hm]. clear V.
    cbn [SFticks] in *.
    assert (P0 : 0 < 2 ^ (e + 1074)) by (apply pow2_pos; lia).
    assert (Hs : s = false) by (destruct s; [cbn [cond_Zopp] in Hlo; nia | reflexivity]).
    subst s. cbn [cond_Zopp] in *.
    assert (P26 : 2 ^ 1100 = 2 ^ 26 * 2 ^ 1074) by (rewrite <- Z.pow_add_r by lia; reflexivity).
    assert (P1074 : 0 < 2 ^ 1074) by (apply pow2_pos; lia).
    destruct e as [|p|p].
    + cbn [Z.shiftl]. change (Z.pos m * 2 ^ (0 + 1074)) with (Z.pos m * 2 ^ 1074) in *.
      assert (Hn : Zpos m <= 2 ^ 26) by nia.
      assert (Hr : ((- 2 ^ 63 <=? Zpos m) && (Zpos m <? 2 ^ 63))%bool = true).
      { apply andb_true_intro. split; [apply Z.leb_le | apply Z.ltb_lt];
          change (2 ^ 26) with 67108864 in Hn; change (2 ^ 63) with 9223372036854775808; lia. }
      rewrite Hr. split; [lia |]. split; intros; nia.
    + rewrite Z.shiftl_mul_pow2 by lia.
      assert (Pp : 2 ^ (Zpos p + 1074) = 2 ^ Zpos p * 2 ^ 1074) by (apply Z.pow_add_r; lia).
      rewrite Pp, Z.mul_assoc in *.
      set (n := Zpos m * 2 ^ Zpos p) in *.
      assert (Hn0 : 0 < n) by (unfold n; apply Z.mul_pos_pos; [lia | apply pow2_pos; lia]).
      assert (Hn : n <= 2 ^ 26) by nia.
      assert (Hr : ((- 2 ^ 63 <=? n) && (n <? 2 ^ 63))%bool = true).
      { apply andb_true_intro. split; [apply Z.leb_le | apply Z.ltb_lt];
          change (2 ^ 26) with 67108864 in Hn; change (2 ^ 63) with 9223372036854775808; lia. }
      rewrite Hr. split; [lia |]. split; intros; nia.
    + rewrite Z.shiftr_div_pow2, Z.land_ones by lia.
      rewrite Z.shiftl_mul_pow2 by lia. rewrite Z.mul_1_l.
      set (P := 2 ^ Zpos p).
      assert (HP : 0 < P) by (apply pow2_pos; lia).
      assert (Hh : 2 * 2 ^ (Zpos p - 1) = P).
      { unfold P. rewrite <- (pow2_succ (Zpos p - 1)) by lia. f_equal. lia. }
      set (h := 2 ^ (Zpos p - 1)) in *.
      assert (Pp : 2 ^ 1074 = P * 2 ^ (Zneg p + 1074)).
      { unfold P. rewrite <- Z.pow_add_r by lia. f_equal. lia. }
      pose proof (Z.div_mod (Zpos m) P ltac:(lia)) as Hdm.
      pose proof (Z.mod_pos_bound (Zpos m) P HP) as Hmod.
      set (q := Zpos m / P) in *. set (r := Zpos m mod P) in *.
      set (W := 2 ^ (Zneg p + 1074)) in *.
      assert (Hq0 : 0 <= q) by (apply Z.div_pos; lia).
      assert (Hqm : q <= Zpos m) by nia.
      set (n := if r <? h then q else if h <? r then q + 1
                else if Z.even q then q else q + 1).
      assert (Hn : q <= n <= q + 1 /\ (n = q + 1 -> 0 < r)).
      { unfold n. destruct (Z.ltb_spec r h); [lia |].
        destruct (Z.ltb_spec h r); [lia |]. destruct (Z.even q); lia. }
      assert (Hmw : Zpos m * W <= 2 ^ 26 * (P * W)) by (rewrite <- Pp; lia).
      assert (Hm26 : q <= 2 ^ 26) by nia.
      assert (Hr : ((- 2 ^ 63 <=? n) && (n <? 2 ^ 63))%bool = true).
      { apply andb_true_intro. split; [apply Z.leb_le | apply Z.ltb_lt];
          change (2 ^ 26) with 67108864 in Hm26;
          change (2 ^ 63) with 9223372036854775808; lia. }
      fold n. rewrite Hr. rewrite Pp.
      split; [| split].
      * split; [lia |]. destruct Hn as [[_ Hn1] Hn2].
        destruct (Z.eq_dec n (q + 1)) as [E | E]; [| lia].
        specialize (Hn2 E). assert (q < 2 ^ 26) by nia. lia.
      * intros Hk. assert (k * P <= Zpos m) by nia. assert (k <= q) by nia. lia.
      * intros Hk. assert (Hk2 : Zpos m <= k * P) by nia.
        assert (q <= k) by nia.
        destruct Hn as [[_ Hn1] Hn2].
        destruct (Z.eq_dec n (q + 1)) as [E | E]; [| lia].
        specialize (Hn2 E). assert (q < k) by nia. lia.
Qed.

(** ** Logarithms and powers: the few bounds the volume step needs *)

Local Open Scope R_scope.

Lemma Rabs_le_inv (x y : R) : Rabs x <= y -> - y <= x <= y.
Proof. unfold Rabs. destruct (Rcase_abs x); lra. Qed.

Lemma exp_le (x y : R) : x <= y -> exp x <= exp y.
Proof.
  intros [H | ->]; [left; apply exp_increasing; assumption | right; reflexivity].
Qed.

Lemma exp_1_ge_2 : 2 <= exp 1.
Proof. pose proof (exp_ineq1_le 1). lra. Qed.

Lemma exp_1_ge_9_4 : 9 / 4 <= exp 1.
Proof.
  replace 1 with (/ 2 + / 2) by lra. rewrite exp_plus.
  pose proof (exp_ineq1_le (/ 2)). nra.
Qed.

Lemma ln_upper (x b : R) : 0 < x -> x <= exp b -> ln x <= b.
Proof.
  intros Hx H. destruct (Rle_or_lt (ln x) b) as [|Hlt]; [assumption |].
  apply exp_increasing in Hlt. rewrite exp_ln in Hlt by assumption. lra.
Qed.

Lemma ln_lower (x a : R) : 0 < x -> exp a <= x -> a <= ln x.
Proof.
  intros Hx H. destruct (Rle_or_lt a (ln x)) as [|Hlt]; [assumption |].
  apply exp_increasing in Hlt. rewrite exp_ln in Hlt by assumption. lra.
Qed.

Lemma ln_10_bounds : 2 <= ln 10 <= 3.
Proof.
  pose proof exp_le_3 as H3. pose proof exp_1_ge_9_4 as H2.
  pose proof (exp_pos 1) as H0.
  split.
  - apply ln_lower; [lra |]. replace 2 with (1 + 1) by lra. rewrite exp_plus. nra.
  - apply ln_upper; [lra |]. replace 3 with (1 + (1 + 1)) by lra.
    rewrite !exp_plus. nra.
Qed.

Lemma exp_7_ge_128 : 128 <= exp 7.
Proof.
  pose proof exp_1_ge_2 as H.
  replace 7 with (1 + (1 + (1 + (1 + (1 + (1 + 1)))))) by lra.
  rewrite !exp_plus.
  assert (H2 : 4 <= exp 1 * exp 1) by nra.
  assert (H3 : 8 <= exp 1 * (exp 1 * exp 1)) by nra.
  assert (H4 : 16 <= exp 1 * (exp 1 * (exp 1 * exp 1))) by nra.
  assert (H5 : 32 <= exp 1 * (exp 1 * (exp 1 * (exp 1 * exp 1)))) by nra.
  assert (H6 : 64 <= exp 1 * (exp 1 * (exp 1 * (exp 1 * (exp 1 * exp 1))))) by nra.
  nra.
Qed.

(** The logarithm of a volume ratio [v / 128] with [1 <= v <= 127]. *)
Lemma ln_ratio_bounds (x : R) :
  / 128 <= x <= 127 / 128 -> -7 <= ln x <= - / 128.
Proof.
  intros [Hlo Hhi]. split.
  - apply ln_lower; [lra |]. replace (-7) with (Ropp 7) by lra. rewrite exp_Ropp.
    pose proof exp_7_ge_128 as H.
    assert (/ exp 7 <= / 128) by (apply Rinv_le_contravar; lra). lra.
  - pose proof (exp_ineq1_le (ln x)) as H. rewrite exp_ln in H by lra. lra.
Qed.

Lemma exp_upper (t : R) : t < 1 -> exp t <= / (1 - t).
Proof.
  intros Ht. pose proof (exp_ineq1_le (- t)) as H. rewrite exp_Ropp in H.
  pose proof (exp_pos t) as H0.
  assert (H1 : (1 - t) * exp t <= 1).
  { assert (Hi : / exp t * exp t = 1) by (apply Rinv_l; lra).
    assert (1 + - t <= / exp t) by lra.
    nra. }
  apply (Rmult_le_reg_l (1 - t)); [lra |].
  rewrite Rinv_r by lra. exact H1.
Qed.

Lemma exp_8_le : exp 8 <= 6561.
Proof.
  pose proof exp_le_3 as H. pose proof (exp_pos 1) as H0.
  replace 8 with (1 + (1 + (1 + (1 + (1 + (1 + (1 + 1))))))) by lra.
  rewrite !exp_plus.
  assert (H2 : exp 1 * exp 1 <= 9) by nra.
  assert (H2' : 0 < exp 1 * exp 1) by nra.
  assert (H4 : exp 1 * (exp 1 * (exp 1 * exp 1)) <= 81) by nra.
  assert (H4' : 0 < exp 1 * (exp 1 * (exp 1 * exp 1))) by nra.
  replace (exp 1 * (exp 1 * (exp 1 * (exp 1 * (exp 1 * (exp 1 * (exp 1 * exp 1)))))))
    with ((exp 1 * (exp 1 * (exp 1 * exp 1))) * (exp 1 * (exp 1 * (exp 1 * exp 1)))) by ring.
  nra.
Qed.

(** ** The error of the decibel step *)

(** [20 * log(x) / log(10)] computed in doubles from a library whose
    logarithms are within 1/1024 of the exact ones: the size of each
    intermediate result, and the error of the last. *)
Lemma level_error (lam Lam l l10 a1 a2 : R) :
  -7 <= lam <= - / 128 -> 2 <= Lam <= 3 ->
  Rabs (l - lam) <= / 1024 -> Rabs (l10 - Lam) <= / 1024 ->
  (-8 <= l <= - / 256)
  /\ (1 <= l10 <= 4)
  /\ (Rabs (a1 - 20 * l) <= ulp51 * Rabs (20 * l) ->
      (-161 <= a1 <= - / 16)
      /\ (Rabs (a2 - a1 / l10) <= ulp51 * Rabs (a1 / l10) ->
          (-100 <= a2 <= - / 64)
          /\ Rabs (a2 - 20 * lam / Lam) <= / 20)).
Proof.
  unfold ulp51. intros Hlam HLam Hl Hl10.
  apply Rabs_le_inv in Hl. apply Rabs_le_inv in Hl10.
  assert (Bl : -8 <= l <= - / 256) by lra.
  assert (Bl10 : 1999 / 1000 <= l10 <= 3001 / 1000) by lra.
  split; [exact Bl |]. split; [lra |]. intros Ha1.
  assert (A20 : Rabs (20 * l) <= 160) by (apply Rabs_le; lra).
  assert (E1 : Rabs (a1 - 20 * l) <= / 1000000).
  { eapply Rle_trans; [exact Ha1 |]. lra. }
  apply Rabs_le_inv in E1.
  assert (Ba1 : -161 <= a1 <= - / 16) by lra.
  split; [exact Ba1 |]. intros Ha2.
  set (q := a1 / l10) in *.
  assert (Hq : q * l10 = a1) by (unfold q; field; lra).
  set (r := 20 * lam / Lam).
  assert (Hr : r * Lam = 20 * lam) by (unfold r; field; lra).
  assert (Br : -70 <= r <= 0).
  { split.
    - destruct (Rle_or_lt (-70) r) as [|Hc]; [assumption |]. exfalso. nra.
    - destruct (Rle_or_lt r 0) as [|Hc]; [assumption |]. exfalso. nra. }
  assert (Bq : -81 <= q <= - / 50).
  { split.
    - destruct (Rle_or_lt (-81) q) as [|Hc]; [assumption |]. exfalso. nra.
    - destruct (Rle_or_lt q (- / 50)) as [|Hc]; [assumption |]. exfalso. nra. }
  assert (Hd : (q - r) * l10 = (a1 - 20 * lam) + r * (Lam - l10)) by nra.
  assert (Hprod : - (7 / 100) <= r * (Lam - l10) <= 7 / 100) by nra.
  assert (Hqr : - (1 / 21) <= q - r <= 1 / 21).
  { split.
    - destruct (Rle_or_lt (- (1 / 21)) (q - r)) as [|Hc]; [assumption |]. exfalso. nra.
    - destruct (Rle_or_lt (q - r) (1 / 21)) as [|Hc]; [assumption |]. exfalso. nra. }
  assert (Aq : Rabs q <= 81) by (apply Rabs_le; lra).
  assert (E2 : Rabs (a2 - q) <= / 1000000).
  { eapply Rle_trans; [exact Ha2 |]. lra. }
  apply Rabs_le_inv in E2.
  split; [lra |]. apply Rabs_le. lra.
Qed.

(** The exponent [(level + s) / 20] handed to [pow], times [ln 10]. *)
Lemma exponent_error (lam Lam a2 s a3 a4 : R) :
  -7 <= lam <= - / 128 -> 2 <= Lam <= 3 ->
  -100 <= a2 <= - / 64 ->
  Rabs (a2 - 20 * lam / Lam) <= / 20 ->
  Rabs s <= 1 ->
  Rabs (a3 - (a2 + s)) <= ulp51 * Rabs (a2 + s) ->
  Rabs (a4 - a3 / 20) <= ulp51 * Rabs (a3 / 20) ->
  Rabs (a4 * Lam - (lam + s / 20 * Lam)) <= / 100.
Proof.
  unfold ulp51. intros Hlam HLam Ba2 Ea2 Hs Ha3 Ha4.
  apply Rabs_le_inv in Ea2. apply Rabs_le_inv in Hs.
  assert (A2 : Rabs (a2 + s) <= 101) by (apply Rabs_le; lra).
  assert (E3 : Rabs (a3 - (a2 + s)) <= / 1000000).
  { eapply Rle_trans; [exact Ha3 |]. lra. }
  apply Rabs_le_inv in E3.
  assert (A3 : Rabs (a3 / 20) <= 6) by (apply Rabs_le; lra).
  assert (E4 : Rabs (a4 - a3 / 20) <= / 1000000).
  { eapply Rle_trans; [exact Ha4 |]. lra. }
  apply Rabs_le_inv in E4.
  set (r := 20 * lam / Lam) in *.
  assert (Hr : r * Lam = 20 * lam) by (unfold r; field; lra).
  assert (Hd : - (1 / 390) <= a4 - (r + s) / 20 <= 1 / 390) by lra.
  assert (Hk : a4 * Lam - (lam + s / 20 * Lam) = (a4 - (r + s) / 20) * Lam) by nra.
  rewrite Hk. apply Rabs_le. nra.
Qed.

(** The power [10^y = exp (y * ln 10)] of the exponent, from a library
    within a relative 1/1024, and its product by 128 in doubles: on the
    side of [128 * exp lam] the step points to. *)
Lemma power_error (lam Lam y s p a5 : R) :
  -7 <= lam <= - / 128 -> 2 <= Lam <= 3 ->
  s = 3 / 4 \/ s = - (3 / 4) ->
  Rabs (y * Lam - (lam + s / 20 * Lam)) <= / 100 ->
  Rabs (p - exp (y * Lam)) <= exp (y * Lam) / 1024 ->
  (/ 1073741824 <= p <= 2)
  /\ (Rabs (a5 - 128 * p) <= ulp51 * Rabs (128 * p) ->
      0 <= a5 <= 1024
      /\ (s = 3 / 4 -> 128 * exp lam <= a5)
      /\ (s = - (3 / 4) -> a5 <= 128 * exp lam)).
Proof.
  unfold ulp51. intros Hlam HLam Hs Hy Hp.
  apply Rabs_le_inv in Hy. apply Rabs_le_inv in Hp.
  set (t := y * Lam) in *.
  pose proof (exp_pos t) as Et0. pose proof (exp_pos lam) as El0.
  assert (Bt : -8 <= t <= / 8) by (destruct Hs as [-> | ->]; lra).
  assert (Eup : exp t <= 8 / 7).
  { eapply Rle_trans; [apply exp_upper; lra |].
    apply (Rmult_le_reg_l (1 - t)); [lra |]. rewrite Rinv_r by lra. lra. }
  assert (Elo : / 6561 <= exp t).
  { pose proof exp_8_le as H8. pose proof (exp_pos 8) as H80.
    assert (H : exp (-8) <= exp t) by (apply exp_le; lra).
    replace (-8) with (Ropp 8) in H by lra. rewrite exp_Ropp in H.
    assert (/ 6561 <= / exp 8) by (apply Rinv_le_contravar; lra). lra. }
  assert (Bp : / 1073741824 <= p <= 2) by lra.
  split; [exact Bp |]. intros Ha5.
  assert (A5 : Rabs (128 * p) <= 256) by (apply Rabs_le; lra).
  assert (E5 : Rabs (a5 - 128 * p) <= / 1000000 * p).
  { eapply Rle_trans; [exact Ha5 |]. rewrite Rabs_pos_eq by lra. lra. }
  apply Rabs_le_inv in E5.
  split; [lra |]. split; intros Es; rewrite Es in *.
  - assert (Hge : exp lam * (1 + 13 / 200) <= exp t).
    { assert (H : exp (lam + 13 / 200) <= exp t) by (apply exp_le; lra).
      rewrite exp_plus in H. pose proof (exp_ineq1_le (13 / 200)). nra. }
    nra.
  - assert (Hle : exp t * (1 + 13 / 200) <= exp lam).
    { assert (H : exp (t + 13 / 200) <= exp lam) by (apply exp_le; lra).
      rewrite exp_plus in H. pose proof (exp_ineq1_le (13 / 200)). nra. }
    nra.
Qed.

(** ** The value of a double as a real number *)

Lemma tick_unit_pos : 0 < IZR (2 ^ 1074).
Proof. apply IZR_lt. apply pow2_pos. lia. Qed.

Lemma Rabs_scale (a U : R) : 0 < U -> Rabs (a / U) = Rabs a / U.
Proof.
  intros HU. unfold Rdiv. rewrite Rabs_mult, Rabs_inv, (Rabs_pos_eq U) by lra.
  reflexivity.
Qed.

(** Relative error, from integers to reals. *)
Lemma rel_err_R (c a b : Z) (U : R) :
  (2 ^ 51 <= c)%Z -> (c * Z.abs a <= Z.abs b)%Z -> 0 < U ->
  Rabs (IZR a / U) <= / 2251799813685248 * Rabs (IZR b / U).
Proof.
  intros Hc H HU. rewrite !Rabs_scale by assumption.
  assert (H1 : (2 ^ 51 * Z.abs a <= Z.abs b)%Z) by nia.
  apply IZR_le in H1. rewrite mult_IZR, !abs_IZR in H1.
  change (IZR (2 ^ 51)) with 2251799813685248 in H1.
  assert (Hi : 0 < / U) by (apply Rinv_0_lt_compat; assumption).
  unfold Rdiv.
  assert (H2 : Rabs (IZR a) <= / 2251799813685248 * Rabs (IZR b)) by lra.
  replace (/ 2251799813685248 * (Rabs (IZR b) * / U))
    with ((/ 2251799813685248 * Rabs (IZR b)) * / U) by ring.
  apply Rmult_le_compat_r; lra.
Qed.

Lemma mid_R (x : float) :
  finite x = true ->
  / 1073741824 <= Rabs (double_value x) <= 1073741824 ->
  SFmid (Prim2SF x).
Proof.
  unfold finite, double_value, ticks. intros F [Hlo Hhi].
  pose proof tick_unit_pos as HU.
  rewrite Rabs_scale, <- abs_IZR in Hlo, Hhi by assumption.
  split; [exact F |]. split.
  - apply le_IZR.
    assert (P : (2 ^ 1074 = 2 ^ 30 * 2 ^ 1044)%Z) by (rewrite <- Z.pow_add_r by lia; reflexivity).
    assert (H : IZR (2 ^ 1074) <= IZR (2 ^ 30) * IZR (Z.abs (SFticks (Prim2SF x)))).
    { change (IZR (2 ^ 30)) with 1073741824.
      apply (Rmult_le_compat_r (IZR (2 ^ 1074))) in Hlo; [| lra].
      unfold Rdiv in Hlo. rewrite Rmult_assoc, Rinv_l in Hlo by lra. lra. }
    rewrite P, mult_IZR in H.
    assert (0 < IZR (2 ^ 30)) by (apply IZR_lt; reflexivity).
    apply (Rmult_le_reg_l (IZR (2 ^ 30))); assumption.
  - apply le_IZR.
    assert (P : (2 ^ 1104 = 2 ^ 30 * 2 ^ 1074)%Z) by (rewrite <- Z.pow_add_r by lia; reflexivity).
    rewrite P, mult_IZR. change (IZR (2 ^ 30)) with 1073741824.
    apply (Rmult_le_compat_r (IZR (2 ^ 1074))) in Hhi; [| lra].
    unfold Rdiv in Hhi. rewrite Rmult_assoc, Rinv_l in Hhi by lra. lra.
Qed.

Lemma moderate_R (x : float) :
  finite x = true ->
  / 1073741824 <= Rabs (double_value x) <= 1073741824 ->
  SFmoderate (Prim2SF x).
Proof. intros F H. apply mid_moderate, mid_R; assumption. Qed.

(** The four operations on doubles of moderate size, in real numbers. *)
Lemma mul_value (x y : float) :
  SFmoderate (Prim2SF x) -> SFmoderate (Prim2SF y) ->
  finite (x * y)%float = true
  /\ Rabs (double_value (x * y)%float - double_value x * double_value y)
     <= ulp51 * Rabs (double_value x * double_value y).
Proof.
  intros Mx My.
  destruct (SFmul_correct _ _ (Prim2SF_valid x) (Prim2SF_valid y) Mx My)
    as (F & _ & E).
  rewrite <- mul_spec in F, E. split; [exact F |].
  pose proof tick_unit_pos as HU.
  assert (HUU : 0 < IZR (2 ^ 1074) * IZR (2 ^ 1074)) by (apply Rmult_lt_0_compat; assumption).
  pose proof (rel_err_R (2 ^ 53) _ _ _ ltac:(apply Z.pow_le_mono_r; lia) E HUU) as H.
  unfold double_value, ticks, ulp51.
  rewrite minus_IZR, !mult_IZR in H.
  replace (IZR (SFticks (Prim2SF (x * y))) / IZR (2 ^ 1074)
           - IZR (SFticks (Prim2SF x)) / IZR (2 ^ 1074)
             * (IZR (SFticks (Prim2SF y)) / IZR (2 ^ 1074)))
    with ((IZR (SFticks (Prim2SF (x * y))) * IZR (2 ^ 1074)
           - IZR (SFticks (Prim2SF x)) * IZR (SFticks (Prim2SF y)))
          / (IZR (2 ^ 1074) * IZR (2 ^ 1074))) by (field; lra).
  replace (IZR (SFticks (Prim2SF x)) / IZR (2 ^ 1074)
           * (IZR (SFticks (Prim2SF y)) / IZR (2 ^ 1074)))
    with (IZR (SFticks (Prim2SF x)) * IZR (SFticks (Prim2SF y))
          / (IZR (2 ^ 1074) * IZR (2 ^ 1074))) by (field; lra).
  exact H.
Qed.

Lemma Rabs_quot_abs (a U t : R) :
  0 < U -> t <> 0 -> Rabs (a / (U * t)) = Rabs (a / (U * Rabs t)).
Proof.
  intros HU Ht.
  assert (0 < Rabs t) by (apply Rabs_pos_lt; assumption).
  unfold Rdiv. rewrite !Rabs_mult, !Rabs_inv, !Rabs_mult, Rabs_Rabsolu.
  reflexivity.
Qed.

Lemma moderate_nonzero (x : spec_float) : SFmoderate x -> IZR (SFticks x) <> 0.
Proof.
  intros [_ [Blo _]] H. apply eq_IZR in H. rewrite H in Blo. cbn [Z.abs] in Blo.
  assert (0 < 2 ^ 774)%Z by (apply pow2_pos; lia). lia.
Qed.

Lemma div_value (x y : float) :
  finite x = true ->
  ticks x = 0%Z \/ SFmoderate (Prim2SF x) ->
  SFmoderate (Prim2SF y) ->
  finite (x / y)%float = true
  /\ Rabs (double_value (x / y)%float - double_value x / double_value y)
     <= ulp51 * Rabs (double_value x / double_value y).
Proof.
  intros Fx [Zx | Mx] My.
  - destruct (ticks_zero _ (Prim2SF_valid x) Fx Zx) as [s Hx].
    destruct (SFdiv_zero_l s _ My) as [s' Hz].
    rewrite <- Hx, <- div_spec in Hz.
    unfold finite, double_value, ticks in *. rewrite Hz, Zx. cbn [SFfinite SFticks].
    split; [reflexivity |].
    unfold Rdiv. rewrite !Rmult_0_l, Rminus_diag, Rabs_R0. unfold ulp51. lra.
  - destruct (SFdiv_correct _ _ (Prim2SF_valid x) (Prim2SF_valid y) Mx My)
      as (F & _ & E).
    rewrite <- div_spec in F, E. split; [exact F |].
    pose proof tick_unit_pos as HU.
    pose proof (moderate_nonzero _ My) as Hy0.
    assert (Hay : 0 < Rabs (IZR (SFticks (Prim2SF y)))) by (apply Rabs_pos_lt; assumption).
    assert (HUU : 0 < IZR (2 ^ 1074) * Rabs (IZR (SFticks (Prim2SF y))))
      by (apply Rmult_lt_0_compat; assumption).
    assert (E' : (2 ^ 51 * Z.abs (SFticks (Prim2SF (x / y)) * SFticks (Prim2SF y)
                                   - SFticks (Prim2SF x) * 2 ^ 1074)
                  <= Z.abs (SFticks (Prim2SF x) * 2 ^ 1074))%Z).
    { rewrite (Z.abs_mul (SFticks (Prim2SF x))), (Z.abs_eq (2 ^ 1074))
        by (apply Z.pow_nonneg; lia). exact E. }
    pose proof (rel_err_R (2 ^ 51) _ _ _ ltac:(lia) E' HUU) as H.
    unfold double_value, ticks, ulp51.
    rewrite minus_IZR, !mult_IZR in H.
    rewrite <- !Rabs_quot_abs in H by assumption.
    replace (IZR (SFticks (Prim2SF (x / y))) / IZR (2 ^ 1074)
             - IZR (SFticks (Prim2SF x)) / IZR (2 ^ 1074)
               / (IZR (SFticks (Prim2SF y)) / IZR (2 ^ 1074)))
      with ((IZR (SFticks (Prim2SF (x / y))) * IZR (SFticks (Prim2SF y))
             - IZR (SFticks (Prim2SF x)) * IZR (2 ^ 1074))
            / (IZR (2 ^ 1074) * IZR (SFticks (Prim2SF y)))) by (field; lra).
    replace (IZR (SFticks (Prim2SF x)) / IZR (2 ^ 1074)
             / (IZR (SFticks (Prim2SF y)) / IZR (2 ^ 1074)))
      with (IZR (SFticks (Prim2SF x)) * IZR (2 ^ 1074)
            / (IZR (2 ^ 1074) * IZR (SFticks (Prim2SF y)))) by (field; lra).
    exact H.
Qed.

Lemma add_value (x y : float) :
  SFmid (Prim2SF x) -> SFmid (Prim2SF y) ->
  finite (x + y)%float = true
  /\ (ticks (x + y)%float = 0%Z \/ SFmoderate (Prim2SF (x + y)%float))
  /\ Rabs (double_value (x + y)%float - (double_value x + double_value y))
     <= ulp51 * Rabs (double_value x + double_value y).
Proof.
  intros Mx My.
  destruct (SFadd_mid _ _ (Prim2SF_valid x) (Prim2SF_valid y) Mx My)
    as (F & _ & E & Hz).
  rewrite <- add_spec in F, E, Hz. split; [exact F |]. split; [exact Hz |].
  pose proof tick_unit_pos as HU.
  pose proof (rel_err_R (2 ^ 53) _ _ _ ltac:(apply Z.pow_le_mono_r; lia) E HU) as H.
  unfold double_value, ticks, ulp51.
  rewrite minus_IZR, !plus_IZR in H.
  replace (IZR (SFticks (Prim2SF (x + y))) / IZR (2 ^ 1074)
           - (IZR (SFticks (Prim2SF x)) / IZR (2 ^ 1074)
              + IZR (SFticks (Prim2SF y)) / IZR (2 ^ 1074)))
    with ((IZR (SFticks (Prim2SF (x + y)))
           - (IZR (SFticks (Prim2SF x)) + IZR (SFticks (Prim2SF y))))
          / IZR (2 ^ 1074)) by (field; lra).
  replace (IZR (SFticks (Prim2SF x)) / IZR (2 ^ 1074)
           + IZR (SFticks (Prim2SF y)) / IZR (2 ^ 1074))
    with ((IZR (SFticks (Prim2SF x)) + IZR (SFticks (Prim2SF y)))
          / IZR (2 ^ 1074)) by (field; lra).
  exact H.
Qed.

(** The value of a double that is a multiple of 2^-j. *)
Lemma value_dyadic (x : float) (k j : Z) :
  (0 <= j <= 1074)%Z -> ticks x = (k * 2 ^ (1074 - j))%Z ->
  double_value x = IZR k / IZR (2 ^ j).
Proof.
  intros Hj H. unfold double_value. rewrite H, mult_IZR.
  assert (P : (2 ^ 1074 = 2 ^ j * 2 ^ (1074 - j))%Z).
  { rewrite <- Z.pow_add_r by lia. f_equal. lia. }
  rewrite P, mult_IZR.
  assert (0 < IZR (2 ^ j)) by (apply IZR_lt, pow2_pos; lia).
  assert (0 < IZR (2 ^ (1074 - j))) by (apply IZR_lt, pow2_pos; lia).
  field. lra.
Qed.

Lemma value_integer (x : float) (k : Z) :
  ticks x = (k * 2 ^ 1074)%Z -> double_value x = IZR k.
Proof.
  intros H. rewrite (value_dyadic x k 0) by (rewrite ?Z.sub_0_r; lia || assumption).
  change (IZR (2 ^ 0)) with 1. lra.
Qed.

Close Scope R_scope.

(** ** Accuracy of the C library's [log] and [pow] *)

Lemma inner_volumes_all (P : Z -> bool) :
  forallb P inner_volumes = true -> forall v, 0 < v < 128 -> P v = true.
Proof.
  intros H v Hv. rewrite forallb_forall in H. apply H.
  unfold inner_volumes. rewrite <- (Z2Nat.id v) by lia.
  apply in_map. apply in_seq. lia.
Qed.

(** The ratio [volume / 128] is exact in doubles. *)
Lemma volume_ratio (v : Z) :
  0 < v < 128 ->
  let x := (Z2double v / Z2double SDL_MIX_MAXVOLUME)%float in
  finite x = true /\ double_value x = (IZR v / 128)%R.
Proof.
  intros Hv x.
  pose proof (inner_volumes_all
                (fun v => finite (Z2double v / Z2double SDL_MIX_MAXVOLUME)%float
                          && (ticks (Z2double v / Z2double SDL_MIX_MAXVOLUME)%float
                              =? v * 2 ^ (1074 - 7)))
                ltac:(vm_compute; reflexivity) v Hv) as H.
  cbv beta in H. apply andb_prop in H. destruct H as [F T].
  apply Z.eqb_eq in T. split; [exact F |].
  unfold x. rewrite (value_dyadic _ v 7) by (lia || exact T).
  reflexivity.
Qed.

Lemma moderate_20 : SFmoderate (Prim2SF 20%float).
Proof. unfold SFmoderate. vm_compute. intuition discriminate. Qed.

Lemma value_20 : double_value 20%float = 20%R.
Proof. apply (value_integer _ 20). vm_compute. reflexivity. Qed.

Lemma value_10 : double_value 10%float = 10%R.
Proof. apply (value_integer _ 10). vm_compute. reflexivity. Qed.

Lemma moderate_128 : SFmoderate (Prim2SF (Z2double SDL_MIX_MAXVOLUME)).
Proof. unfold SFmoderate. vm_compute. intuition discriminate. Qed.

Lemma value_128 : double_value (Z2double SDL_MIX_MAXVOLUME) = 128%R.
Proof. apply (value_integer _ 128). vm_compute. reflexivity. Qed.

(** The signed step, [sign * 0.75]. *)
Lemma signed_step (sign : Z) :
  sign = 1 \/ sign = -1 ->
  let s := (Z2double sign * SDL_VOLUME_STEP)%float in
  SFmid (Prim2SF s)
  /\ double_value s = (IZR sign * (3 / 4))%R.
Proof.
  intros [-> | ->]; cbv zeta.
  - split; [unfold SFmid; vm_compute; intuition discriminate |].
    rewrite (value_dyadic _ 3 2) by (lia || (vm_compute; reflexivity)).
    change (IZR (2 ^ 2)) with 4%R. lra.
  - split; [unfold SFmid; vm_compute; intuition discriminate |].
    rewrite (value_dyadic _ (-3) 2) by (lia || (vm_compute; reflexivity)).
    change (IZR (2 ^ 2)) with 4%R. lra.
Qed.

Local Open Scope R_scope.

Lemma value_ge_Z (x : float) (k : Z) :
  IZR k <= double_value x -> (k * 2 ^ 1074 <= ticks x)%Z.
Proof.
  unfold double_value. intros H. pose proof tick_unit_pos as HU.
  apply le_IZR. rewrite mult_IZR.
  apply (Rmult_le_compat_r (IZR (2 ^ 1074))) in H; [| lra].
  unfold Rdiv in H. rewrite Rmult_assoc, Rinv_l in H by lra. lra.
Qed.

Lemma value_le_Z (x : float) (k : Z) :
  double_value x <= IZR k -> (ticks x <= k * 2 ^ 1074)%Z.
Proof.
  unfold double_value. intros H. pose proof tick_unit_pos as HU.
  apply le_IZR. rewrite mult_IZR.
  apply (Rmult_le_compat_r (IZR (2 ^ 1074))) in H; [| lra].
  unfold Rdiv in H. rewrite Rmult_assoc, Rinv_l in H by lra. lra.
Qed.

Section VolumeDirection.

Variable log : float -> float.
Variable pow : float -> float -> float.

(** With such a library the logarithmic step never lands on the other
    side of the current volume. *)
Lemma new_volume_direction (v sign : Z) :
  (0 < v < SDL_MIX_MAXVOLUME)%Z ->
  sign = 1%Z \/ sign = (-1)%Z ->
  libm_accurate log pow v sign ->
  (0 <= sign * (new_volume log pow v sign SDL_VOLUME_STEP - v))%Z.
Proof.
  intros Hv Hs (HL & HL10 & HP).
  unfold SDL_MIX_MAXVOLUME in Hv.
  assert (Hv0 : negb (v =? 0)%Z = true)
    by (destruct (Z.eqb_spec v 0); [lia | reflexivity]).
  unfold new_volume. unfold volume_level in *. rewrite Hv0 in *.
  destruct (volume_ratio v Hv) as [Fx Vx]. cbv zeta in Fx, Vx.
  set (x := (Z2double v / Z2double SDL_MIX_MAXVOLUME)%float) in *.
  destruct HL as [FL EL]. destruct HL10 as [FL10 EL10].
  rewrite value_10 in EL10.
  set (lam := ln (double_value x)) in *.
  set (Lam := ln 10) in *.
  assert (Rv : 1 <= IZR v <= 127) by (split; apply IZR_le; lia).
  assert (Hlam : -7 <= lam <= - / 128) by (apply ln_ratio_bounds; rewrite Vx; lra).
  pose proof ln_10_bounds as HLam. fold Lam in HLam.
  (* the level 20 * log x / log 10 *)
  destruct (level_error lam Lam _ _
              (double_value (20 * log x)%float)
              (double_value (20 * log x / log 10)%float)
              Hlam HLam EL EL10) as (Bl & Bl10 & Hstep1).
  assert (ML : SFmoderate (Prim2SF (log x)))
    by (apply moderate_R; [exact FL | split; [| apply Rabs_le]; [| lra];
        rewrite Rabs_left by lra; lra]).
  assert (ML10 : SFmoderate (Prim2SF (log 10%float)))
    by (apply moderate_R; [exact FL10 | rewrite Rabs_pos_eq by lra; lra]).
  destruct (mul_value 20%float (log x) moderate_20 ML) as [F1 E1].
  rewrite value_20 in E1.
  destruct (Hstep1 E1) as (Ba1 & Hstep2).
  assert (M1 : SFmoderate (Prim2SF (20 * log x)%float))
    by (apply moderate_R; [exact F1 | rewrite Rabs_left by lra; lra]).
  destruct (div_value _ (log 10%float) F1 (or_intror M1) ML10) as [F2 E2].
  destruct (Hstep2 E2) as (Ba2 & Ea2).
  set (level := (20 * log x / log 10)%float) in *.
  assert (M2 : SFmid (Prim2SF level))
    by (apply mid_R; [exact F2 | rewrite Rabs_left by lra; lra]).
  (* the exponent (level + sign * 0.75) / 20 *)
  destruct (signed_step sign Hs) as [Ms Vs]. cbv zeta in Ms, Vs.
  set (s := (Z2double sign * SDL_VOLUME_STEP)%float) in *.
  destruct (add_value level s M2 Ms) as (F3 & Z3 & E3).
  destruct (div_value _ 20.0%float F3 Z3 moderate_20) as [F4 E4].
  rewrite value_20 in E4.
  set (y := ((level + s) / 20.0)%float) in *.
  assert (As : Rabs (double_value s) <= 1)
    by (rewrite Vs; destruct Hs as [-> | ->]; apply Rabs_le; lra).
  pose proof (exponent_error lam Lam _ _ _ _ Hlam HLam Ba2 Ea2 As E3 E4) as Ey.
  (* the power and the product by 128 *)
  destruct HP as [FP EP]. rewrite value_10 in EP.
  unfold Rpower in EP. fold Lam in EP.
  assert (Hs' : double_value s = 3 / 4 \/ double_value s = - (3 / 4))
    by (rewrite Vs; destruct Hs as [-> | ->]; [left | right]; lra).
  destruct (power_error lam Lam (double_value y) (double_value s)
              (double_value (pow 10.0%float y))
              (double_value (Z2double SDL_MIX_MAXVOLUME * pow 10.0%float y)%float)
              Hlam HLam Hs' Ey EP) as (Bp & Hstep5).
  assert (MP : SFmoderate (Prim2SF (pow 10.0%float y)))
    by (apply moderate_R; [exact FP | rewrite Rabs_pos_eq by lra; lra]).
  destruct (mul_value _ _ moderate_128 MP) as [F5 E5].
  rewrite value_128 in E5.
  destruct (Hstep5 E5) as (B5 & Hup & Hdown).
  set (a5 := (Z2double SDL_MIX_MAXVOLUME * pow 10.0%float y)%float) in *.
  assert (Hexp : 128 * exp lam = IZR v).
  { unfold lam. rewrite exp_ln by (rewrite Vx; lra). rewrite Vx. lra. }
  rewrite Hexp in Hup, Hdown.
  (* rounding to an integer *)
  assert (T5 : (0 <= ticks a5 <= 2 ^ 1100)%Z).
  { split.
    - apply (value_ge_Z a5 0). lra.
    - replace (2 ^ 1100)%Z with (2 ^ 26 * 2 ^ 1074)%Z
        by (rewrite <- Z.pow_add_r by lia; reflexivity).
      apply value_le_Z. change (IZR (2 ^ 26)) with 67108864. lra. }
  destruct (lrint_bounds a5 v F5 T5) as (Br & Hge & Hle).
  assert (H32 : int32 (lrint a5) = lrint a5).
  { apply int32_id. unfold INT_MIN, INT_MAX.
    change (2 ^ 26)%Z with 67108864%Z in Br. change (2 ^ 31)%Z with 2147483648%Z. lia. }
  rewrite H32.
  destruct Hs as [-> | ->].
  - assert (v <= lrint a5)%Z by (apply Hge, value_ge_Z, Hup; rewrite Vs; lra). lia.
  - assert (lrint a5 <= v)%Z by (apply Hle, value_le_Z, Hdown; rewrite Vs; lra). lia.
Qed.

End VolumeDirection.

(** ** Checking a library at one argument *)

Lemma pow2k_down_le (P : Z) (K : nat) (x : Z) :
  (0 <= P)%Z -> (0 <= x)%Z ->
  (0 <= pow2k_down P K x)%Z
  /\ IZR (pow2k_down P K x) / IZR (2 ^ P) <= (IZR x / IZR (2 ^ P)) ^ (2 ^ K)%nat.
Proof.
  intros HP Hx.
  assert (HU : 0 < IZR (2 ^ P)) by (apply IZR_lt, pow2_pos; assumption).
  induction K as [|K [IH0 IH]].
  - cbn [pow2k_down Nat.pow]. split; [assumption |]. rewrite pow_1. lra.
  - cbn [pow2k_down]. set (y := pow2k_down P K x) in *.
    unfold sq_down. split.
    + apply Z.div_pos; [nia | apply pow2_pos; assumption].
    + assert (H1 : IZR (y * y / 2 ^ P) * IZR (2 ^ P) <= IZR y * IZR y).
      { rewrite <- !mult_IZR. apply IZR_le.
        rewrite Z.mul_comm. apply Z.mul_div_le. apply pow2_pos; assumption. }
      assert (Hy : 0 <= IZR y / IZR (2 ^ P)).
      { apply Rmult_le_pos; [apply IZR_le; assumption |].
        left. apply Rinv_0_lt_compat. assumption. }
      assert (H2 : IZR (y * y / 2 ^ P) / IZR (2 ^ P)
                   <= (IZR y / IZR (2 ^ P)) * (IZR y / IZR (2 ^ P))).
      { replace (IZR y / IZR (2 ^ P) * (IZR y / IZR (2 ^ P)))
          with (IZR y * IZR y * / IZR (2 ^ P) / IZR (2 ^ P)) by (field; lra).
        unfold Rdiv. apply Rmult_le_compat_r;
          [left; apply Rinv_0_lt_compat; assumption |].
        apply (Rmult_le_reg_r (IZR (2 ^ P))); [assumption |].
        rewrite Rmult_assoc, Rinv_l by lra. lra. }
      eapply Rle_trans; [exact H2 |].
      replace (2 ^ S K)%nat with (2 ^ K * 2)%nat by (cbn [Nat.pow]; lia).
      rewrite pow_mult. cbn [pow]. rewrite Rmult_1_r.
      apply Rmult_le_compat; assumption.
Qed.

Lemma exp_pow2 (K : nat) : forall t : R, exp t = exp (t / 2 ^ K) ^ (2 ^ K)%nat.
Proof.
  induction K as [|K IH]; intros t.
  - cbn [pow Nat.pow]. rewrite Rmult_1_r. f_equal. field.
  - replace (2 ^ S K)%nat with (2 * 2 ^ K)%nat by (cbn [Nat.pow]; lia).
    rewrite pow_mult. cbn [pow]. rewrite Rmult_1_r, <- exp_plus.
    replace (t / (2 * 2 ^ K) + t / (2 * 2 ^ K)) with (t / 2 ^ K)
      by (field; apply pow_nonzero; lra).
    apply IH.
Qed.

Lemma exp_floor_le (P : Z) (K : nat) (n d : Z) :
  (0 <= P)%Z -> (0 < d)%Z -> (0 <= d * 2 ^ Z.of_nat K + n)%Z ->
  IZR (exp_floor P K n d) / IZR (2 ^ P) <= exp (IZR n / IZR d).
Proof.
  intros HP Hd Hn. unfold exp_floor.
  set (D := (d * 2 ^ Z.of_nat K)%Z) in *.
  assert (HD : (0 < D)%Z).
  { unfold D. apply Z.mul_pos_pos; [assumption | apply pow2_pos; lia]. }
  set (x := (2 ^ P * (D + n) / D)%Z).
  assert (HU : 0 < IZR (2 ^ P)) by (apply IZR_lt, pow2_pos; assumption).
  assert (P0 : (0 < 2 ^ P)%Z) by (apply pow2_pos; assumption).
  assert (Hx0 : (0 <= x)%Z) by (unfold x; apply Z.div_pos; nia).
  destruct (pow2k_down_le P K x HP Hx0) as [_ H1].
  eapply Rle_trans; [exact H1 |].
  rewrite (exp_pow2 K (IZR n / IZR d)).
  assert (HK : 0 < 2 ^ K) by (apply pow_lt; lra).
  assert (HDR : IZR D = IZR d * 2 ^ K).
  { unfold D. rewrite mult_IZR. f_equal.
    rewrite <- (pow_IZR 2 K). reflexivity. }
  assert (HdR : 0 < IZR d) by (apply IZR_lt; assumption).
  assert (Hx : IZR x / IZR (2 ^ P) <= 1 + IZR n / IZR d / 2 ^ K).
  { assert (Hz : (x * D <= 2 ^ P * (D + n))%Z)
      by (unfold x; rewrite Z.mul_comm; apply Z.mul_div_le; assumption).
    apply IZR_le in Hz. rewrite !mult_IZR, plus_IZR in Hz.
    assert (HDp : 0 < IZR D) by (apply IZR_lt; assumption).
    replace (1 + IZR n / IZR d / 2 ^ K) with ((IZR D + IZR n) / IZR D)
      by (rewrite HDR; field; split; lra).
    apply (Rmult_le_reg_r (IZR (2 ^ P) * IZR D));
      [apply Rmult_lt_0_compat; assumption |].
    replace (IZR x / IZR (2 ^ P) * (IZR (2 ^ P) * IZR D)) with (IZR x * IZR D)
      by (field; lra).
    replace ((IZR D + IZR n) / IZR D * (IZR (2 ^ P) * IZR D))
      with (IZR (2 ^ P) * (IZR D + IZR n)) by (field; lra).
    exact Hz. }
  assert (Hx0R : 0 <= IZR x / IZR (2 ^ P)).
  { apply Rmult_le_pos; [apply IZR_le; assumption |].
    left. apply Rinv_0_lt_compat. assumption. }
  apply pow_incr. split; [exact Hx0R |].
  eapply Rle_trans; [exact Hx |]. apply exp_ineq1_le.
Qed.

Lemma ratio_le_trans (c1 c2 F : Z) (U e : R) :
  0 < U -> (0 < c2)%Z -> IZR c1 * U <= IZR c2 * IZR F -> IZR F / U <= e ->
  IZR c1 / IZR c2 <= e.
Proof.
  intros HU Hc H HF.
  assert (HcR : 0 < IZR c2) by (apply IZR_lt; assumption).
  eapply Rle_trans; [| exact HF].
  apply (Rmult_le_reg_r (IZR c2 * U));
    [apply Rmult_lt_0_compat; assumption |].
  replace (IZR c1 / IZR c2 * (IZR c2 * U)) with (IZR c1 * U)
    by (field; lra).
  replace (IZR F / U * (IZR c2 * U))
    with (IZR c2 * IZR F) by (field; lra).
  exact H.
Qed.

(** [c1 / c2 <= exp (n / d)], checked by computing [exp_floor] with 80
    fractional bits and 24 squarings. *)
Lemma exp_ge_check (n d c1 c2 : Z) :
  (0 < d)%Z -> (0 < c2)%Z -> (0 <= d * 2 ^ 24 + n)%Z ->
  (c1 * 2 ^ 80 <= c2 * exp_floor 80 24 n d)%Z ->
  IZR c1 / IZR c2 <= exp (IZR n / IZR d).
Proof.
  intros Hd Hc Hn H.
  apply IZR_le in H. rewrite !mult_IZR in H.
  apply (ratio_le_trans c1 c2 (exp_floor 80 24 n d) (IZR (2 ^ 80)));
    [apply IZR_lt; reflexivity | exact Hc | exact H |].
  exact (exp_floor_le 80 24 n d ltac:(lia) Hd Hn).
Qed.

(** [exp (n / d) <= c1 / c2], through [exp (- n / d) >= c2 / c1]. *)
Lemma exp_le_check (n d c1 c2 : Z) :
  (0 < d)%Z -> (0 < c1)%Z -> (0 < c2)%Z -> (0 <= d * 2 ^ 24 + - n)%Z ->
  (c2 * 2 ^ 80 <= c1 * exp_floor 80 24 (- n) d)%Z ->
  exp (IZR n / IZR d) <= IZR c1 / IZR c2.
Proof.
  intros Hd Hc1 Hc2 Hn H.
  pose proof (exp_ge_check (- n) d c2 c1 Hd Hc1 Hn H) as H1.
  rewrite opp_IZR in H1.
  replace (- IZR n / IZR d) with (- (IZR n / IZR d)) in H1 by (unfold Rdiv; ring).
  rewrite exp_Ropp in H1.
  pose proof (exp_pos (IZR n / IZR d)) as E0.
  assert (R1 : 0 < IZR c1) by (apply IZR_lt; assumption).
  assert (R2 : 0 < IZR c2) by (apply IZR_lt; assumption).
  assert (H2 : IZR c2 / IZR c1 * exp (IZR n / IZR d) <= 1).
  { apply (Rmult_le_compat_r (exp (IZR n / IZR d))) in H1; [| lra].
    rewrite Rinv_l in H1 by lra. exact H1. }
  apply (Rmult_le_reg_l (IZR c2 / IZR c1)).
  - apply Rmult_lt_0_compat; [assumption | apply Rinv_0_lt_compat; assumption].
  - replace (IZR c2 / IZR c1 * (IZR c1 / IZR c2)) with 1 by (field; lra).
    exact H2.
Qed.

(** The value of a double between two fractions. *)
Lemma value_between (x : float) (a b c : Z) :
  (0 < c)%Z ->
  (a * 2 ^ 1074 <= ticks x * c)%Z -> (ticks x * c <= b * 2 ^ 1074)%Z ->
  IZR a / IZR c <= double_value x <= IZR b / IZR c.
Proof.
  intros Hc Ha Hb. unfold double_value.
  pose proof tick_unit_pos as HU.
  assert (HcR : 0 < IZR c) by (apply IZR_lt; assumption).
  apply IZR_le in Ha, Hb. rewrite !mult_IZR in Ha, Hb.
  split.
  - apply (Rmult_le_reg_r (IZR c * IZR (2 ^ 1074)));
      [apply Rmult_lt_0_compat; assumption |].
    replace (IZR a / IZR c * (IZR c * IZR (2 ^ 1074))) with (IZR a * IZR (2 ^ 1074))
      by (field; lra).
    replace (IZR (ticks x) / IZR (2 ^ 1074) * (IZR c * IZR (2 ^ 1074)))
      with (IZR (ticks x) * IZR c) by (field; lra).
    exact Ha.
  - apply (Rmult_le_reg_r (IZR c * IZR (2 ^ 1074)));
      [apply Rmult_lt_0_compat; assumption |].
    replace (IZR b / IZR c * (IZR c * IZR (2 ^ 1074))) with (IZR b * IZR (2 ^ 1074))
      by (field; lra).
    replace (IZR (ticks x) / IZR (2 ^ 1074) * (IZR c * IZR (2 ^ 1074)))
      with (IZR (ticks x) * IZR c) by (field; lra).
    exact Hb.
Qed.

(** Enclosures of [ln (1/2)] and [ln 10]. *)
Lemma ln_half_enclosure : - (69320 / 100000) <= ln (1 / 2) <= - (69310 / 100000).
Proof.
  split.
  - apply ln_lower; [lra |].
    replace (- (69320 / 100000)) with (IZR (-69320) / IZR 100000) by lra.
    apply (exp_le_check (-69320) 100000 1 2); vm_compute; (reflexivity || discriminate).
  - apply ln_upper; [lra |].
    replace (- (69310 / 100000)) with (IZR (-69310) / IZR 100000) by lra.
    apply (exp_ge_check (-69310) 100000 1 2); vm_compute; (reflexivity || discriminate).
Qed.

Lemma ln_10_enclosure : 230258 / 100000 <= ln 10 <= 230259 / 100000.
Proof.
  split.
  - apply ln_lower; [lra |].
    apply (Rle_trans _ (IZR 10 / IZR 1)); [| lra].
    apply (exp_le_check 230258 100000 10 1); vm_compute; (reflexivity || discriminate).
  - apply ln_upper; [lra |].
    apply (Rle_trans _ (IZR 10 / IZR 1)); [lra |].
    apply (exp_ge_check 230259 100000 10 1); vm_compute; (reflexivity || discriminate).
Qed.

(** The stand-in library is accurate where volume up from 64 calls it. *)
Lemma series_accurate_64 : libm_accurate series_log series_pow 64 1.
Proof.
  unfold libm_accurate. cbv zeta.
  pose proof ln_half_enclosure as Hh. pose proof ln_10_enclosure as H10.
  set (x := (Z2double 64 / Z2double SDL_MIX_MAXVOLUME)%float).
  set (y := ((volume_level series_log 64 + Z2double 1 * SDL_VOLUME_STEP) / 20.0)%float).
  assert (Vx : double_value x = 1 / 2).
  { rewrite (value_dyadic x 1 1) by (lia || (vm_compute; reflexivity)).
    change (IZR (2 ^ 1)) with 2. reflexivity. }
  assert (VL : IZR (-69315) / IZR 100000 <= double_value (series_log x)
               <= IZR (-69314) / IZR 100000)
    by (apply value_between; vm_compute; (reflexivity || discriminate)).
  assert (VL10 : IZR 230258 / IZR 100000 <= double_value (series_log 10%float)
                 <= IZR 230259 / IZR 100000)
    by (apply value_between; vm_compute; (reflexivity || discriminate)).
  assert (Vy : IZR (-263530) / IZR 1000000 <= double_value y
               <= IZR (-263529) / IZR 1000000)
    by (apply value_between; vm_compute; (reflexivity || discriminate)).
  assert (VP : IZR 545092 / IZR 1000000 <= double_value (series_pow 10.0%float y)
               <= IZR 545093 / IZR 1000000)
    by (apply value_between; vm_compute; (reflexivity || discriminate)).
  split; [| split].
  - split; [vm_compute; reflexivity |]. rewrite Vx. apply Rabs_le. lra.
  - split; [vm_compute; reflexivity |]. rewrite value_10. apply Rabs_le. lra.
  - split; [vm_compute; reflexivity |]. rewrite value_10. unfold Rpower.
    set (t := double_value y * ln 10).
    assert (Bt : IZR (-60681) / IZR 100000 <= t <= IZR (-60679) / IZR 100000)
      by (unfold t; nra).
    assert (Elo : IZR 5450 / IZR 10000 <= exp t).
    { eapply Rle_trans; [| apply exp_le; exact (proj1 Bt)].
      apply exp_ge_check; vm_compute; (reflexivity || discriminate). }
    assert (Ehi : exp t <= IZR 5452 / IZR 10000).
    { eapply Rle_trans; [apply exp_le; exact (proj2 Bt) |].
      apply exp_le_check; vm_compute; (reflexivity || discriminate). }
    apply Rabs_le. lra.
Qed.

Close Scope R_scope.
Local Open Scope Z_scope.

(** ** Volume keys *)

Section VolumeFacts.

Variable log : float -> float.
Variable pow : float -> float -> float.

(** C10.  For a volume [v] in [0, SDL_MIX_MAXVOLUME] and a sign of +1 or
    -1, [update_volume] with the 0.75 dB step leaves a volume in
    [0, SDL_MIX_MAXVOLUME]; when the logarithmic step rounds back to [v]
    the result is [v + sign] clipped; and for [v] strictly between 0 and
    the maximum the volume changes, whatever [log] and [pow] return.  It
    changes upward for +1 and downward for -1 with any C library whose
    [log] and [pow] return, for the three calls made, numbers within
    1/1024 of the exact logarithm and (relatively) of the exact power. *)
Theorem volume_key_press (s : VideoState) (sign : Z) :
  0 <= audio_volume s <= SDL_MIX_MAXVOLUME ->
  sign = 1 \/ sign = -1 ->
  let v := audio_volume s in
  let nv := new_volume log pow v sign SDL_VOLUME_STEP in
  let v' := audio_volume (update_volume log pow s sign SDL_VOLUME_STEP) in
  0 <= v' <= SDL_MIX_MAXVOLUME
  /\ (nv = v -> v' = av_clip (v + sign) 0 SDL_MIX_MAXVOLUME)
  /\ (nv <> v -> v' = av_clip nv 0 SDL_MIX_MAXVOLUME)
  /\ (0 < v < SDL_MIX_MAXVOLUME -> v' <> v)
  /\ (0 < v < SDL_MIX_MAXVOLUME -> libm_accurate log pow v sign ->
      0 < sign * (v' - v)).
Proof.
  intros Hv Hs v nv v'. subst v'. unfold update_volume.
  rewrite audio_volume_set. fold v. fold nv.
  assert (H32 : int32 (v + sign) = v + sign).
  { apply int32_id. unfold INT_MIN, INT_MAX, SDL_MIX_MAXVOLUME in *.
    subst v. simpl. lia. }
  rewrite H32.
  assert (Hr : 0 <= SDL_MIX_MAXVOLUME) by (unfold SDL_MIX_MAXVOLUME; lia).
  split; [apply av_clip_range; assumption |].
  split.
  { intros E. destruct (Z.eqb_spec v nv); [reflexivity | congruence]. }
  split.
  { intros E. destruct (Z.eqb_spec v nv); [congruence | reflexivity]. }
  assert (Hne : 0 < v < SDL_MIX_MAXVOLUME ->
                av_clip (if v =? nv then v + sign else nv) 0 SDL_MIX_MAXVOLUME <> v).
  { intros Hin E. apply (av_clip_interior _ _ _ _ Hin) in E.
    destruct (Z.eqb_spec v nv); lia. }
  split; [exact Hne |].
  intros Hin Hacc. specialize (Hne Hin).
  pose proof (new_volume_direction log pow v sign Hin Hs Hacc) as Hdir.
  fold nv in Hdir.
  assert (Hinside : av_clip v 0 SDL_MIX_MAXVOLUME = v)
    by (apply av_clip_inside; lia).
  destruct Hs as [-> | ->].
  - pose proof (av_clip_mono v (if v =? nv then v + 1 else nv)
                  0 SDL_MIX_MAXVOLUME Hr
                  ltac:(destruct (Z.eqb_spec v nv); lia)) as Hm.
    rewrite Hinside in Hm. lia.
  - pose proof (av_clip_mono (if v =? nv then v + -1 else nv) v
                  0 SDL_MIX_MAXVOLUME Hr
                  ltac:(destruct (Z.eqb_spec v nv); lia)) as Hm.
    rewrite Hinside in Hm. lia.
Qed.

End VolumeFacts.

(** Volume up from 64 with the stand-in library, which is accurate
    there: the volume goes up. *)
Lemma volume_key_press_witness :
  0 < 1 * (audio_volume
             (update_volume series_log series_pow
                (example_state AV_SYNC_AUDIO_MASTER (-100) (-100) (-100))
                1 SDL_VOLUME_STEP)
           - audio_volume (example_state AV_SYNC_AUDIO_MASTER (-100) (-100) (-100))).
Proof.
  exact (proj2 (proj2 (proj2 (proj2
           (volume_key_press series_log series_pow
              (example_state AV_SYNC_AUDIO_MASTER (-100) (-100) (-100)) 1
              ltac:(vm_compute; split; discriminate) (or_introl eq_refl)))))
           ltac:(vm_compute; split; reflexivity)
           series_accurate_64).
Defined.

(** * Further properties *)

Local Open Scope Z_scope.

(** ** Bookkeeping of a packet queue *)

Lemma wrap_add_l (w a b : Z) : wrap w (wrap w a + b) = wrap w (a + b).
Proof.
  unfold wrap. f_equal.
  replace ((a + 2 ^ (w - 1)) mod 2 ^ w - 2 ^ (w - 1) + b + 2 ^ (w - 1))
    with ((a + 2 ^ (w - 1)) mod 2 ^ w + b) by lia.
  rewrite Zplus_mod_idemp_l. f_equal. lia.
Qed.

Lemma int32_add_l (a b : Z) : int32 (int32 a + b) = int32 (a + b).
Proof. apply wrap_add_l. Qed.

Lemma int64_add_l (a b : Z) : int64 (int64 a + b) = int64 (a + b).
Proof. apply wrap_add_l. Qed.

Lemma nodes_size_app sz l1 l2 :
  nodes_size sz (l1 ++ l2) = nodes_size sz l1 + nodes_size sz l2.
Proof. induction l1 as [|a l IH]; simpl; [reflexivity | rewrite IH; lia]. Qed.

Lemma nodes_duration_app l1 l2 :
  nodes_duration (l1 ++ l2) = nodes_duration l1 + nodes_duration l2.
Proof. induction l1 as [|a l IH]; simpl; [reflexivity | rewrite IH; lia]. Qed.

Section QueueBookkeeping.

Variable sz : Z.

Lemma put_private_counted ok q pkt :
  pq_counted sz q ->
  pq_counted sz (snd (packet_queue_put_private sz ok q pkt)).
Proof.
  intros (Hn & Hs & Hd). unfold packet_queue_put_private.
  destruct (negb (q_abort_request q =? 0)); [repeat split; assumption |].
  destruct (negb ok); [repeat split; assumption |].
  unfold pq_counted. cbn [snd q_pkts q_nb_packets q_size q_duration l_pkt].
  rewrite length_app, nodes_size_app, nodes_duration_app. cbn [length nodes_size nodes_duration].
  rewrite Hn, Hs, Hd, int32_add_l, int32_add_l, int64_add_l.
  cbn [l_pkt].
  split; [| split].
  - apply (f_equal int32). lia.
  - apply (f_equal int32). lia.
  - apply (f_equal int64). lia.
Qed.

Lemma exec_counted c q :
  pq_counted sz q -> pq_counted sz (snd (exec sz c q)).
Proof.
  intros H. destruct c as [ok pkt | ok si junk | block | | | ok]; cbn [exec].
  - unfold packet_queue_put.
    pose proof (put_private_counted ok q pkt H) as H'.
    destruct (packet_queue_put_private sz ok q pkt); exact H'.
  - unfold packet_queue_put_nullpacket, packet_queue_put.
    match goal with
    | |- context [packet_queue_put_private sz ok q ?r] =>
        pose proof (put_private_counted ok q r H) as H';
        destruct (packet_queue_put_private sz ok q r)
    end.
    exact H'.
  - unfold packet_queue_get.
    destruct (negb (q_abort_request q =? 0)); [exact H |].
    destruct (q_pkts q) as [|n rest] eqn:Hq.
    { destruct (block =? 0); exact H. }
    destruct H as (Hn & Hs & Hd). rewrite Hq in Hn, Hs, Hd.
    unfold pq_counted. cbn [snd q_pkts q_nb_packets q_size q_duration].
    cbn [length nodes_size nodes_duration] in Hn, Hs, Hd.
    rewrite Hn, Hs, Hd.
    replace (int32 (Z.of_nat (S (length rest))) - 1)
      with (int32 (Z.of_nat (S (length rest))) + -1) by lia.
    replace (int32 (pkt_size (l_pkt n) + sz + nodes_size sz rest)
             - (pkt_size (l_pkt n) + sz))
      with (int32 (pkt_size (l_pkt n) + sz + nodes_size sz rest)
            + - (pkt_size (l_pkt n) + sz)) by lia.
    replace (int64 (pkt_duration (l_pkt n) + nodes_duration rest)
             - pkt_duration (l_pkt n))
      with (int64 (pkt_duration (l_pkt n) + nodes_duration rest)
            + - pkt_duration (l_pkt n)) by lia.
    rewrite int32_add_l, int32_add_l, int64_add_l.
    split; [| split].
    + apply (f_equal int32). lia.
    + apply (f_equal int32). lia.
    + apply (f_equal int64). lia.
  - repeat split.
  - exact H.
  - unfold packet_queue_start. apply put_private_counted. exact H.
Qed.

(** X1.  The counters of a packet queue stay in step with its nodes over
    any history of calls: [nb_packets] is the number of queued nodes,
    [size] the sum of their packet sizes plus [sizeof(MyAVPacketList)]
    each, and [duration] the sum of their durations, each reduced to the
    width of its C type. *)
Theorem packet_queue_accounting cs q :
  pq_counted sz q -> pq_counted sz (snd (run sz cs q)).
Proof.
  revert q. induction cs as [|c cs IH]; intros q H; [exact H |].
  cbn [run]. pose proof (exec_counted c q H) as H1.
  destruct (exec sz c q) as [e q1]. cbn [snd] in H1.
  specialize (IH q1 H1). destruct (run sz cs q1) as [es q2]. exact IH.
Qed.

Lemma got_nodes_put_event fl ret q' : got_nodes [put_event fl ret q'] = [].
Proof.
  unfold put_event. destruct (ret =? 0); [| reflexivity].
  destruct (last (map Some (q_pkts q')) None); reflexivity.
Qed.

Lemma put_private_fifo ok q pkt fl :
  q_pkts q ++ entered_nodes
    [put_event fl (fst (packet_queue_put_private sz ok q pkt))
               (snd (packet_queue_put_private sz ok q pkt))]
  = q_pkts (snd (packet_queue_put_private sz ok q pkt)).
Proof.
  unfold packet_queue_put_private.
  destruct (negb (q_abort_request q =? 0)); [apply app_nil_r |].
  destruct (negb ok); [apply app_nil_r |].
  cbn [fst snd]. unfold put_event. cbn [Z.eqb q_pkts].
  rewrite last_Some_snoc. reflexivity.
Qed.

Lemma exec_fifo c q :
  is_flush_call c = false ->
  q_pkts q ++ entered_nodes [fst (exec sz c q)]
  = got_nodes [fst (exec sz c q)] ++ q_pkts (snd (exec sz c q)).
Proof.
  intros Hc. destruct c as [ok pkt | ok si junk | block | | | ok];
    try discriminate; cbn [exec].
  - unfold packet_queue_put.
    pose proof (put_private_fifo ok q pkt (is_flush_ref pkt)) as Hput.
    destruct (packet_queue_put_private sz ok q pkt).
    cbn [fst snd] in *. rewrite got_nodes_put_event. exact Hput.
  - unfold packet_queue_put_nullpacket, packet_queue_put.
    match goal with
    | |- context [packet_queue_put_private sz ok q ?r] =>
        pose proof (put_private_fifo ok q r false) as Hput;
        destruct (packet_queue_put_private sz ok q r)
    end.
    cbn [fst snd] in *. rewrite got_nodes_put_event. exact Hput.
  - unfold packet_queue_get.
    destruct (negb (q_abort_request q =? 0)); [apply app_nil_r |].
    destruct (q_pkts q) as [|n rest] eqn:Hq.
    { destruct (block =? 0); cbn; rewrite Hq; reflexivity. }
    cbn. rewrite app_nil_r. reflexivity.
  - apply app_nil_r.
  - unfold packet_queue_start.
    set (q0 := {| q_pkts := q_pkts q; q_nb_packets := q_nb_packets q;
                  q_size := q_size q; q_duration := q_duration q;
                  q_abort_request := 0; q_serial := q_serial q |}).
    cbn [fst snd].
    pose proof (put_private_fifo ok q0 ref_flush_pkt true) as Hput.
    destruct ok.
    + change (fst (packet_queue_put_private sz true q0 ref_flush_pkt)) with 0 in Hput.
      rewrite got_nodes_put_event. exact Hput.
    + cbn [got_nodes entered_nodes app]. apply app_nil_r.
Qed.

Lemma entered_nodes_cons e es :
  entered_nodes (e :: es) = entered_nodes [e] ++ entered_nodes es.
Proof. destruct e; reflexivity. Qed.

Lemma got_nodes_cons e es :
  got_nodes (e :: es) = got_nodes [e] ++ got_nodes es.
Proof. destruct e; reflexivity. Qed.

(** X2.  A packet queue is first-in first-out: over a history with no
    [packet_queue_flush], the nodes delivered by [packet_queue_get] followed
    by the nodes still queued are the nodes queued at the start followed by
    the nodes that entered, in the same order; none is lost, duplicated or
    overtaken. *)
Theorem packet_queue_fifo cs q :
  forallb (fun c => negb (is_flush_call c)) cs = true ->
  q_pkts q ++ entered_nodes (fst (run sz cs q))
  = got_nodes (fst (run sz cs q)) ++ q_pkts (snd (run sz cs q)).
Proof.
  revert q. induction cs as [|c cs IH]; intros q H.
  - cbn. apply app_nil_r.
  - cbn [forallb] in H. apply andb_prop in H. destruct H as [Hc H].
    apply negb_true_iff in Hc.
    pose proof (exec_fifo c q Hc) as H1. cbn [run].
    destruct (exec sz c q) as [e q1]. cbn [fst snd] in H1.
    specialize (IH q1 H). destruct (run sz cs q1) as [es q2].
    cbn [fst snd] in *.
    rewrite entered_nodes_cons, got_nodes_cons, app_assoc, H1.
    rewrite <- !app_assoc. f_equal. exact IH.
Qed.

(** X3.  Once a queue is aborted, and until [packet_queue_start], every
    put returns -1 and every get, blocking or not, returns -1 without a
    packet, whatever is queued; only [packet_queue_flush] changes the
    queue, and the serial stays. *)
Theorem aborted_queue_is_closed cs q :
  q_abort_request q = 1 ->
  forallb (fun c => negb (is_start c)) cs = true ->
  run sz cs q
  = (map (fun c => if is_put c then ev_rejected (-1) else ev_quiet) cs,
     if existsb is_flush_call cs then packet_queue_flush q else q)
  /\ (forall block, packet_queue_get sz q block = (get_ret (-1) None, q)).
Proof.
  intros Ha Hcs. split.
  - revert q Ha Hcs. induction cs as [|c cs IH]; intros q Ha Hcs; [reflexivity |].
    cbn [forallb] in Hcs. apply andb_prop in Hcs. destruct Hcs as [Hc Hcs].
    assert (Hn : negb (q_abort_request q =? 0) = true)
      by (rewrite Ha; reflexivity).
    assert (He : exec sz c q
                 = (if is_put c then ev_rejected (-1) else ev_quiet,
                    if is_flush_call c then packet_queue_flush q else q)).
    { destruct c as [ok pkt | ok si junk | block | | | ok]; cbn [exec is_put is_flush_call];
        try discriminate.
      - unfold packet_queue_put, packet_queue_put_private. rewrite Hn. reflexivity.
      - unfold packet_queue_put_nullpacket, packet_queue_put, packet_queue_put_private.
        rewrite Hn. reflexivity.
      - unfold packet_queue_get. rewrite Hn. reflexivity.
      - reflexivity.
      - unfold packet_queue_abort. destruct q; cbn in *. subst. reflexivity. }
    cbn [run map existsb]. rewrite He.
    destruct (is_flush_call c) eqn:Hf.
    + rewrite (IH (packet_queue_flush q)); [| exact Ha | exact Hcs].
      cbn [orb]. destruct (existsb is_flush_call cs); reflexivity.
    + rewrite (IH q Ha Hcs). reflexivity.
  - intros block. unfold packet_queue_get.
    rewrite Ha. reflexivity.
Qed.

End QueueBookkeeping.

(** The theorem on a fresh queue and [busy_history]. *)
Lemma packet_queue_accounting_witness :
  pq_counted 120 (snd (run 120 busy_history (snd (packet_queue_init true true)))).
Proof.
  apply (packet_queue_accounting 120 busy_history).
  split; [| split]; reflexivity.
Defined.

Lemma packet_queue_fifo_witness :
  q_pkts (snd (packet_queue_init true true))
    ++ entered_nodes (fst (run 120 busy_history (snd (packet_queue_init true true))))
  = got_nodes (fst (run 120 busy_history (snd (packet_queue_init true true))))
    ++ q_pkts (snd (run 120 busy_history (snd (packet_queue_init true true)))).
Proof.
  exact (packet_queue_fifo 120 busy_history (snd (packet_queue_init true true))
           eq_refl).
Defined.

(** A started queue holding a packet, aborted: a put, a blocking get and a
    flush. *)
Lemma aborted_queue_is_closed_witness :
  run 120 [call_put true (ref_pkt pkt_B); call_get 1; call_flush]
      (packet_queue_abort
         (snd (run 120 [call_start true; call_put true (ref_pkt pkt_A)]
                 (snd (packet_queue_init true true)))))
  = ([ev_rejected (-1); ev_quiet; ev_quiet],
     packet_queue_flush
       (packet_queue_abort
          (snd (run 120 [call_start true; call_put true (ref_pkt pkt_A)]
                  (snd (packet_queue_init true true)))))).
Proof.
  exact (proj1 (aborted_queue_is_closed 120
                  [call_put true (ref_pkt pkt_B); call_get 1; call_flush]
                  (packet_queue_abort
                     (snd (run 120 [call_start true; call_put true (ref_pkt pkt_A)]
                             (snd (packet_queue_init true true)))))
                  eq_refl eq_refl)).
Defined.

(** ** Frame queues *)

Lemma length_store {A : Type} (l : list A) (n : nat) (x : A) :
  length (store l n x) = length l.
Proof. revert n; induction l as [|a l IH]; intros [|n]; simpl; auto. Qed.

Lemma nth_store_eq {A : Type} (l : list A) (n : nat) (x d : A) :
  (n < length l)%nat -> nth n (store l n x) d = x.
Proof.
  revert n; induction l as [|a l IH]; intros [|n] H; simpl in *; try lia; auto.
  apply IH; lia.
Qed.

Lemma nth_store_neq {A : Type} (l : list A) (n k : nat) (x d : A) :
  n <> k -> nth k (store l n x) d = nth k l d.
Proof.
  revert n k; induction l as [|a l IH]; intros [|n] [|k] H; simpl;
    try reflexivity; try lia.
  apply IH; lia.
Qed.

Lemma mod_add_inj (r m k1 k2 : Z) :
  0 < m -> 0 <= k1 < m -> 0 <= k2 < m ->
  (r + k1) mod m = (r + k2) mod m -> k1 = k2.
Proof.
  intros Hm H1 H2 H.
  pose proof (Z.div_mod (r + k1) m ltac:(lia)) as E1.
  pose proof (Z.div_mod (r + k2) m ltac:(lia)) as E2.
  rewrite H in E1.
  assert (Hq : (r + k1) / m = (r + k2) / m) by nia.
  rewrite Hq in E1. lia.
Qed.

Lemma FRAME_QUEUE_SIZE_eq : FRAME_QUEUE_SIZE = 16.
Proof. reflexivity. Qed.

Lemma int32_small (x : Z) : -1 <= x <= 100 -> int32 x = x.
Proof. intros H. apply int32_id. unfold INT_MIN, INT_MAX. simpl. lia. Qed.

Lemma succ_wrap (i m : Z) :
  0 <= i < m -> (if i + 1 =? m then 0 else i + 1) = (i + 1) mod m.
Proof.
  intros H. destruct (Z.eqb_spec (i + 1) m) as [E | E].
  - rewrite E. symmetry. apply Z.mod_same. lia.
  - symmetry. apply Z.mod_small. lia.
Qed.

Lemma frame_at_write (f : FrameQueue) (i j : Z) (x : Frame) :
  0 <= i -> 0 <= j -> i <> j ->
  frame_at (frame_write f i x) j = frame_at f j.
Proof.
  intros Hi Hj Hij. unfold frame_at, frame_write, with_queue. cbn [fq_queue].
  apply nth_store_neq. lia.
Qed.

(** What a push of [x] through the write index does. *)
Lemma frame_queue_push_frames (f : FrameQueue) (x : Frame) :
  fq_wf f -> fq_size f < fq_max_size f ->
  let f' := frame_queue_push (frame_write f (fq_windex f) x) in
  fq_wf f' /\ fq_frames f' = fq_frames f ++ [x]
  /\ fq_rindex_shown f' = fq_rindex_shown f.
Proof.
  intros (Hm & Hlen & Hr & Hs & Hw & Hrs & Hrss & Hk) Hfull.
  rewrite FRAME_QUEUE_SIZE_eq in *.
  assert (Hwr : 0 <= fq_windex f < fq_max_size f)
    by (rewrite Hw; apply Z.mod_pos_bound; lia).
  cbv zeta. unfold frame_queue_push, frame_write, with_queue, fq_wf, fq_frames.
  cbn [fq_queue fq_rindex fq_windex fq_size fq_max_size fq_keep_last fq_rindex_shown].
  rewrite !int32_small by lia. rewrite succ_wrap by lia.
  split; [| split; [| reflexivity]].
  - rewrite length_store, FRAME_QUEUE_SIZE_eq.
    repeat (split; [first [assumption | lia] |]).
    split; [| split; [lia | split; [lia | assumption]]].
    rewrite Hw, Zplus_mod_idemp_l. f_equal. lia.
  - replace (Z.to_nat (fq_size f + 1)) with (Z.to_nat (fq_size f) + 1)%nat by lia.
    rewrite seq_app, map_app. cbn [seq map]. f_equal.
    + apply map_ext_in. intros k Hk'. apply in_seq in Hk'.
      unfold frame_at. cbn [fq_queue]. apply nth_store_neq.
      intros E. apply Z2Nat.inj in E; [| lia | apply Z.mod_pos_bound; lia].
      rewrite Hw in E.
      apply mod_add_inj in E; lia.
    + unfold frame_at. cbn [fq_queue]. f_equal.
      rewrite Nat.add_0_l, Z2Nat.id, <- Hw by lia.
      apply nth_store_eq. lia.
Qed.

(** What [frame_queue_next] does when a frame is waiting to be shown. *)
Lemma frame_queue_next_frames (f : FrameQueue) :
  fq_wf f -> 0 < fq_size f - fq_rindex_shown f ->
  fq_wf (frame_queue_next f)
  /\ fq_readable (frame_queue_next f) = tl (fq_readable f)
  /\ frame_at f (frame_queue_peek f) = hd frame_zero (fq_readable f)
  /\ fq_size (frame_queue_next f) - fq_rindex_shown (frame_queue_next f)
     = fq_size f - fq_rindex_shown f - 1.
Proof.
  intros (Hm & Hlen & Hr & Hs & Hw & Hrs & Hrss & Hk) Hrem.
  rewrite FRAME_QUEUE_SIZE_eq in *.
  assert (Hpeek : frame_at f (frame_queue_peek f) = hd frame_zero (fq_readable f)).
  { unfold frame_queue_peek, fq_readable, fq_frames.
    rewrite int32_small by lia. rewrite Z.rem_mod_nonneg by lia.
    destruct (Z.to_nat (fq_size f)) as [|n] eqn:En; [lia |].
    destruct (Z.eq_dec (fq_rindex_shown f) 0) as [E0 | E0].
    - rewrite E0. cbn [Z.to_nat skipn seq map hd]. reflexivity.
    - assert (E1 : fq_rindex_shown f = 1) by lia. rewrite E1.
      destruct n as [|n]; [lia |].
      cbn [Z.to_nat Pos.to_nat Pos.iter_op Nat.add skipn seq map hd]. reflexivity. }
  cut (fq_wf (frame_queue_next f)
       /\ fq_readable (frame_queue_next f) = tl (fq_readable f)
       /\ fq_size (frame_queue_next f) - fq_rindex_shown (frame_queue_next f)
          = fq_size f - fq_rindex_shown f - 1).
  { intros (H1 & H2 & H3).
    split; [exact H1 | split; [exact H2 | split; [exact Hpeek | exact H3]]]. }
  clear Hpeek. unfold frame_queue_next.
  destruct (negb (fq_keep_last f =? 0) && (fq_rindex_shown f =? 0)) eqn:Eb.
  - apply andb_prop in Eb. destruct Eb as [Ek E0].
    apply Z.eqb_eq in E0.
    unfold fq_wf, fq_readable, fq_frames, frame_at.
    cbn [fq_queue fq_rindex fq_windex fq_size fq_max_size fq_keep_last fq_rindex_shown].
    rewrite FRAME_QUEUE_SIZE_eq, E0.
    split; [| split; [| lia]].
    + repeat (split; [first [assumption | lia] |]). intros E. rewrite E in Ek. discriminate.
    + cbn [Z.to_nat skipn]. destruct (Z.to_nat (fq_size f)) as [|n] eqn:En; [lia |].
      reflexivity.
  - assert (Hadv : fq_keep_last f = 0 /\ fq_rindex_shown f = 0 \/ fq_rindex_shown f = 1).
    { apply andb_false_iff in Eb. destruct Eb as [Eb | Eb].
      - apply negb_false_iff, Z.eqb_eq in Eb. left. split; [assumption | auto].
      - apply Z.eqb_neq in Eb. right. lia. }
    unfold fq_wf, fq_readable, fq_frames.
    cbn [fq_queue fq_rindex fq_windex fq_size fq_max_size fq_keep_last fq_rindex_shown].
    rewrite !int32_small by lia. rewrite succ_wrap by lia.
    rewrite length_store, FRAME_QUEUE_SIZE_eq.
    split; [| split; [| lia]].
    + split; [lia |]. split; [assumption |].
      split; [apply Z.mod_pos_bound; lia |]. split; [lia |].
      split; [| split; [lia | split; [lia | assumption]]].
      rewrite Hw, Zplus_mod_idemp_l. f_equal. lia.
    + (* the frames from the slot after [rindex] are untouched *)
      set (q' := store (fq_queue f) (Z.to_nat (fq_rindex f))
                   (frame_queue_unref_item (frame_at f (fq_rindex f)))).
      assert (Hfr : map (fun k => frame_at
                            {| fq_queue := q'; fq_rindex := (fq_rindex f + 1) mod fq_max_size f;
                               fq_windex := fq_windex f; fq_size := fq_size f - 1;
                               fq_max_size := fq_max_size f; fq_keep_last := fq_keep_last f;
                               fq_rindex_shown := fq_rindex_shown f; fq_mutex := fq_mutex f;
                               fq_cond := fq_cond f; fq_pktq := fq_pktq f |}
                            (((fq_rindex f + 1) mod fq_max_size f + Z.of_nat k)
                               mod fq_max_size f))
                        (seq 0 (Z.to_nat (fq_size f - 1)))
                    = tl (map (fun k => frame_at f ((fq_rindex f + Z.of_nat k) mod fq_max_size f))
                              (seq 0 (Z.to_nat (fq_size f))))).
      { replace (Z.to_nat (fq_size f)) with (S (Z.to_nat (fq_size f - 1))) by lia.
        cbn [seq map tl]. rewrite <- seq_shift, map_map.
        apply map_ext_in. intros k Hk'. apply in_seq in Hk'.
        unfold frame_at. cbn [fq_queue]. rewrite Zplus_mod_idemp_l.
        replace (fq_rindex f + 1 + Z.of_nat k) with (fq_rindex f + Z.of_nat (S k)) by lia.
        unfold q'. apply nth_store_neq.
        intros E. apply Z2Nat.inj in E; [| lia | apply Z.mod_pos_bound; lia].
        rewrite <- (Z.mod_small (fq_rindex f) (fq_max_size f)) in E at 1 by lia.
        replace (fq_rindex f) with (fq_rindex f + 0) in E at 1 by lia.
        apply mod_add_inj in E; lia. }
      rewrite Hfr. destruct Hadv as [[_ E0] | E1].
      * rewrite E0. reflexivity.
      * rewrite E1. cbn [Z.to_nat Pos.to_nat Pos.iter_op Nat.add].
        destruct (map _ (seq 0 (Z.to_nat (fq_size f)))) as [|a [|b l]]; reflexivity.
Qed.

Lemma frame_queue_alloc_spec (ok : nat -> bool) (n : nat) : forall i queue,
  (i + n <= length queue)%nat ->
  let r := frame_queue_alloc n i ok queue in
  fst r = forallb ok (seq i n)
  /\ length (snd r) = length queue
  /\ (fst r = true ->
      forall k, (k < i + n)%nat ->
        nth k (snd r) frame_zero
        = if (i <=? k)%nat then with_frame (nth k queue frame_zero) (frame_buf None)
          else nth k queue frame_zero).
Proof.
  induction n as [|n IH]; intros i queue Hlen; cbn [frame_queue_alloc seq forallb].
  - cbn [fst snd]. split; [reflexivity |]. split; [reflexivity |].
    intros _ k Hk. destruct (Nat.leb_spec i k); [lia | reflexivity].
  - destruct (ok i) eqn:Eok; cbn [andb].
    + set (queue1 := store queue i (with_frame (nth i queue frame_zero) (frame_buf None))).
      assert (Hlen1 : (S i + n <= length queue1)%nat)
        by (unfold queue1; rewrite length_store; lia).
      destruct (IH (S i) queue1 Hlen1) as (H1 & H2 & H3).
      split; [exact H1 |]. split; [rewrite H2; apply length_store |].
      intros Hok k Hk. rewrite (H3 Hok k ltac:(lia)).
      destruct (Nat.eq_dec i k) as [-> | Hne].
      * destruct (Nat.leb_spec (S k) k); [lia |].
        destruct (Nat.leb_spec k k); [| lia].
        unfold queue1. rewrite nth_store_eq by lia. reflexivity.
      * unfold queue1. rewrite nth_store_neq by assumption.
        destruct (Nat.leb_spec (S i) k), (Nat.leb_spec i k); try lia; reflexivity.
    + cbn [fst snd]. split; [reflexivity |]. split; [reflexivity |]. discriminate.
Qed.

Lemma nth_repeat_zero (n k : nat) : nth k (repeat frame_zero n) frame_zero = frame_zero.
Proof.
  revert k. induction n as [|n IH]; intros [|k]; simpl; auto.
Qed.

(** X4.  [frame_queue_init] returns 0 when the mutex, the condition and
    the frames of all the slots in use are obtained, and [AVERROR(ENOMEM)]
    otherwise.  On success, for a positive [max_size], the queue is empty,
    uses [min(max_size, 16)] slots, each with an allocated frame holding no
    data, and [keep_last] is normalised to 0 or 1. *)
Theorem frame_queue_init_result (mutex_ok cond_ok : bool)
    (av_frame_alloc_ok : nat -> bool) (pktq : queue_ptr) (max_size keep_last : Z) :
  let m := Z.min max_size 16 in
  let r := frame_queue_init mutex_ok cond_ok av_frame_alloc_ok pktq max_size keep_last in
  fst r = (if mutex_ok && cond_ok
              && forallb av_frame_alloc_ok (seq 0 (Z.to_nat m))
           then 0 else AVERROR ENOMEM)
  /\ (fst r = 0 -> 0 < max_size ->
      fq_wf (snd r) /\ fq_frames (snd r) = []
      /\ fq_max_size (snd r) = m
      /\ fq_keep_last (snd r) = (if keep_last =? 0 then 0 else 1)
      /\ fq_pktq (snd r) = Some pktq
      /\ forall i, 0 <= i < m ->
           frame_at (snd r) i = with_frame frame_zero (frame_buf None)).
Proof.
  cbv zeta. unfold frame_queue_init.
  assert (Hmin : FFMIN_int max_size FRAME_QUEUE_SIZE = Z.min max_size 16).
  { unfold FFMIN_int. rewrite FRAME_QUEUE_SIZE_eq, Z.gtb_ltb.
    destruct (Z.ltb_spec 16 max_size); lia. }
  rewrite Hmin. set (m := Z.min max_size 16).
  destruct mutex_ok; cbn [negb andb]; [| split; [reflexivity | discriminate]].
  destruct cond_ok; cbn [negb andb]; [| split; [reflexivity | discriminate]].
  assert (Hlen : (0 + Z.to_nat m <= length (fq_queue frame_queue_zero))%nat).
  { cbn [fq_queue frame_queue_zero]. rewrite repeat_length, FRAME_QUEUE_SIZE_eq.
    unfold m. lia. }
  pose proof (frame_queue_alloc_spec av_frame_alloc_ok (Z.to_nat m) 0
                (fq_queue frame_queue_zero) Hlen) as (H1 & H2 & H3).
  destruct (frame_queue_alloc (Z.to_nat m) 0 av_frame_alloc_ok
              (fq_queue frame_queue_zero)) as [ok queue].
  cbn [fst snd] in *. rewrite <- H1.
  split; [destruct ok; reflexivity |].
  intros Hret Hpos. destruct ok; [| discriminate Hret].
  specialize (H3 eq_refl).
  unfold fq_wf, fq_frames.
  cbn [fq_queue fq_rindex fq_windex fq_size fq_max_size fq_keep_last
       fq_rindex_shown fq_pktq].
  rewrite FRAME_QUEUE_SIZE_eq.
  split; [| split; [reflexivity | split; [reflexivity | split; [| split; [reflexivity |]]]]].
  - split; [unfold m; lia |].
    split; [rewrite H2; cbn [fq_queue frame_queue_zero];
            rewrite repeat_length; reflexivity |].
    split; [unfold m; lia |]. split; [unfold m; lia |].
    split; [rewrite Z.add_0_r, Z.mod_0_l; [reflexivity | unfold m; lia] |].
    split; [lia |]. split; [lia | reflexivity].
  - unfold lnot. destruct (keep_last =? 0); reflexivity.
  - intros i Hi. unfold frame_at. cbn [fq_queue].
    rewrite (H3 (Z.to_nat i)) by lia. cbn [Nat.leb].
    cbn [fq_queue frame_queue_zero]. rewrite nth_repeat_zero. reflexivity.
Qed.

Lemma fresh_pictq_wf : fq_wf fresh_pictq.
Proof.
  unfold fq_wf. vm_compute. intuition discriminate.
Qed.

Lemma frame_queue_init_result_witness :
  fq_wf fresh_pictq /\ fq_max_size fresh_pictq = 3.
Proof.
  pose proof (proj2 (frame_queue_init_result true true (fun _ => true) p_videoq
                       VIDEO_PICTURE_QUEUE_SIZE 1) eq_refl eq_refl) as H.
  split; [exact (proj1 H) | exact (proj1 (proj2 (proj2 H)))].
Defined.

Lemma skipn_snoc {A : Type} (n : nat) (l : list A) (x : A) :
  (n <= length l)%nat -> skipn n (l ++ [x]) = skipn n l ++ [x].
Proof.
  revert n. induction l as [|a l IH]; intros [|n] H; simpl in *;
    try reflexivity; try lia.
  apply IH. lia.
Qed.

Lemma fq_frames_length (f : FrameQueue) :
  length (fq_frames f) = Z.to_nat (fq_size f).
Proof. unfold fq_frames. rewrite length_map, length_seq. reflexivity. Qed.

Lemma fq_readable_length (f : FrameQueue) :
  fq_wf f ->
  Z.of_nat (length (fq_readable f)) = fq_size f - fq_rindex_shown f.
Proof.
  intros (Hm & Hlen & Hr & Hs & Hw & Hrs & Hrss & Hk).
  unfold fq_readable. rewrite length_skipn, fq_frames_length. lia.
Qed.

Lemma peek_writable_slot (f : FrameQueue) (pktq : PacketQueue) (i : Z) :
  frame_queue_peek_writable f pktq = peek_slot i ->
  i = fq_windex f /\ fq_size f < fq_max_size f /\ q_abort_request pktq = 0.
Proof.
  unfold frame_queue_peek_writable.
  destruct (Z.eqb_spec (q_abort_request pktq) 0) as [Ea | Ea]; cbn [negb andb].
  - rewrite andb_true_r. destruct (Z.geb_spec (fq_size f) (fq_max_size f)).
    + discriminate.
    + intros Hp. inversion Hp. repeat split; [lia | assumption].
  - rewrite andb_false_r. discriminate.
Qed.

Lemma peek_readable_slot (f : FrameQueue) (pktq : PacketQueue) (i : Z) :
  fq_wf f ->
  frame_queue_peek_readable f pktq = peek_slot i ->
  i = frame_queue_peek f /\ 0 < fq_size f - fq_rindex_shown f
  /\ q_abort_request pktq = 0.
Proof.
  intros (Hm & Hlen & Hr & Hs & Hw & Hrs & Hrss & Hk).
  rewrite FRAME_QUEUE_SIZE_eq in *.
  unfold frame_queue_peek_readable, frame_queue_peek.
  rewrite (int32_small (fq_size f - fq_rindex_shown f)) by lia.
  destruct (Z.eqb_spec (q_abort_request pktq) 0) as [Ea | Ea]; cbn [negb andb].
  - rewrite andb_true_r. destruct (Z.leb_spec (fq_size f - fq_rindex_shown f) 0).
    + discriminate.
    + intros Hp. inversion Hp. repeat split; [lia | assumption].
  - rewrite andb_false_r. discriminate.
Qed.

Lemma frame_queue_push_step (f : FrameQueue) (pktq : PacketQueue)
    (i : Z) (x : Frame) :
  fq_wf f ->
  frame_queue_peek_writable f pktq = peek_slot i ->
  let f' := frame_queue_push (frame_write f i x) in
  fq_wf f'
  /\ fq_frames f' = fq_frames f ++ [x]
  /\ fq_readable f' = fq_readable f ++ [x].
Proof.
  intros Hwf Hp. destruct (peek_writable_slot f pktq i Hp) as (-> & Hfull & _).
  destruct (frame_queue_push_frames f x Hwf Hfull) as (Hwf' & Hfr & Hrs).
  cbv zeta. split; [exact Hwf' |]. split; [exact Hfr |].
  unfold fq_readable. rewrite Hrs, Hfr. apply skipn_snoc.
  rewrite fq_frames_length.
  destruct Hwf as (_ & _ & _ & Ha & _ & Hb & Hc & _). lia.
Qed.

(** X5.  When [frame_queue_peek_writable] hands out a slot, the queue is
    not full and the slot holds none of the queued frames: after the
    producer fills it with [x] and calls [frame_queue_push], the frames
    already queued (the kept last one included) are as they were, [x] is
    the newest, and one more frame is waiting to be shown. *)
Theorem frame_queue_push_appends (f : FrameQueue) (pktq : PacketQueue)
    (i : Z) (x : Frame) :
  fq_wf f ->
  frame_queue_peek_writable f pktq = peek_slot i ->
  let f' := frame_queue_push (frame_write f i x) in
  fq_wf f'
  /\ fq_frames f' = fq_frames f ++ [x]
  /\ fq_readable f' = fq_readable f ++ [x]
  /\ frame_queue_nb_remaining f' = frame_queue_nb_remaining f + 1
  /\ fq_size f' <= fq_max_size f'.
Proof.
  intros Hwf Hp.
  destruct (frame_queue_push_step f pktq i x Hwf Hp) as (Hwf' & Hfr & Hread).
  cbv zeta in *. split; [exact Hwf' |]. split; [exact Hfr |].
  split; [exact Hread |].
  pose proof (fq_readable_length _ Hwf) as L.
  pose proof (fq_readable_length _ Hwf') as L'.
  rewrite Hread, length_app in L'. cbn [length] in L'.
  destruct Hwf as (Hm & _ & _ & Hs & _ & Hrss & Hrs1 & _).
  destruct Hwf' as (Hm' & _ & _ & Hs' & _ & Hrss' & Hrs1' & _).
  rewrite FRAME_QUEUE_SIZE_eq in *.
  unfold frame_queue_nb_remaining. rewrite !int32_small by lia.
  split; lia.
Qed.

Lemma frame_queue_push_appends_witness :
  fq_readable (put_picture 1 fresh_pictq) = fq_readable fresh_pictq ++ [picture 1].
Proof.
  exact (proj1 (proj2 (proj2
    (frame_queue_push_appends fresh_pictq started_queue 0 (picture 1)
       fresh_pictq_wf eq_refl)))).
Defined.

Lemma frame_queue_next_step (f : FrameQueue) (pktq : PacketQueue) (i : Z) :
  fq_wf f ->
  frame_queue_peek_readable f pktq = peek_slot i ->
  i = frame_queue_peek f
  /\ fq_readable f = frame_at f i :: fq_readable (frame_queue_next f)
  /\ fq_wf (frame_queue_next f).
Proof.
  intros Hwf Hp. destruct (peek_readable_slot f pktq i Hwf Hp) as (-> & Hrem & _).
  destruct (frame_queue_next_frames f Hwf Hrem) as (Hwf' & Htl & Hhd & Hsz).
  split; [reflexivity |].
  pose proof (fq_readable_length _ Hwf) as L.
  split; [| exact Hwf'].
  rewrite Htl, Hhd. destruct (fq_readable f); [simpl in L; lia | reflexivity].
Qed.

(** X6.  When [frame_queue_peek_readable] hands out a frame, it is the
    oldest frame not shown yet (the one [frame_queue_peek] points to), and
    [frame_queue_next] removes exactly that frame from those waiting,
    leaving the others in order. *)
Theorem frame_queue_next_pops (f : FrameQueue) (pktq : PacketQueue) (i : Z) :
  fq_wf f ->
  frame_queue_peek_readable f pktq = peek_slot i ->
  i = frame_queue_peek f
  /\ fq_readable f = frame_at f i :: fq_readable (frame_queue_next f)
  /\ fq_wf (frame_queue_next f)
  /\ frame_queue_nb_remaining (frame_queue_next f)
     = frame_queue_nb_remaining f - 1.
Proof.
  intros Hwf Hp.
  destruct (frame_queue_next_step f pktq i Hwf Hp) as (Hi & Hrd & Hwf').
  split; [exact Hi |]. split; [exact Hrd |]. split; [exact Hwf' |].
  pose proof (fq_readable_length _ Hwf) as L.
  pose proof (fq_readable_length _ Hwf') as L'.
  rewrite Hrd in L. cbn [length] in L.
  destruct Hwf as (Hm & _ & _ & Hs & _ & Hrss & Hrs1 & _).
  destruct Hwf' as (Hm' & _ & _ & Hs' & _ & Hrss' & Hrs1' & _).
  rewrite FRAME_QUEUE_SIZE_eq in *.
  unfold frame_queue_nb_remaining. rewrite !int32_small by lia. lia.
Qed.

Lemma two_pictures_wf : fq_wf two_pictures.
Proof.
  unfold fq_wf. vm_compute. intuition discriminate.
Qed.

Lemma frame_queue_next_pops_witness :
  fq_readable two_pictures = frame_at two_pictures 0 :: fq_readable one_shown.
Proof.
  exact (proj1 (proj2
    (frame_queue_next_pops two_pictures started_queue 0 two_pictures_wf eq_refl))).
Defined.

Lemma pushed_frames_cons e es :
  pushed_frames (e :: es) = pushed_frames [e] ++ pushed_frames es.
Proof. destruct e; reflexivity. Qed.

Lemma shown_frames_cons e es :
  shown_frames (e :: es) = shown_frames [e] ++ shown_frames es.
Proof. destruct e; reflexivity. Qed.

Lemma fq_exec_step (pktq : PacketQueue) (o : fq_op) (f : FrameQueue) :
  fq_wf f ->
  fq_wf (snd (fq_exec pktq o f))
  /\ fq_readable f ++ pushed_frames [fst (fq_exec pktq o f)]
     = shown_frames [fst (fq_exec pktq o f)] ++ fq_readable (snd (fq_exec pktq o f)).
Proof.
  intros Hwf. destruct o as [x |]; cbn [fq_exec].
  - destruct (frame_queue_peek_writable f pktq) as [| | i] eqn:Hp;
      cbn [fst snd pushed_frames shown_frames app];
      [split; [assumption | apply app_nil_r] ..|].
    destruct (frame_queue_push_step f pktq i x Hwf Hp) as (H1 & _ & H2).
    split; [exact H1 | symmetry; exact H2].
  - destruct (frame_queue_peek_readable f pktq) as [| | i] eqn:Hp;
      cbn [fst snd pushed_frames shown_frames app];
      [split; [assumption | apply app_nil_r] ..|].
    destruct (frame_queue_next_step f pktq i Hwf Hp) as (_ & H1 & H2).
    split; [exact H2 | rewrite app_nil_r; exact H1].
Qed.

(** X7.  A frame queue is first-in first-out over any history of a
    producer and a consumer that go through the two waiting peeks: the
    frames shown, followed by the frames still waiting, are the frames
    that were waiting at the start followed by the frames pushed, in
    order; and the queue never holds more than [max_size] frames. *)
Theorem frame_queue_fifo (pktq : PacketQueue) (os : list fq_op) (f : FrameQueue) :
  fq_wf f ->
  fq_wf (snd (fq_run pktq os f))
  /\ fq_readable f ++ pushed_frames (fst (fq_run pktq os f))
     = shown_frames (fst (fq_run pktq os f)) ++ fq_readable (snd (fq_run pktq os f))
  /\ 0 <= fq_size (snd (fq_run pktq os f)) <= fq_max_size (snd (fq_run pktq os f)).
Proof.
  revert f. induction os as [|o os IH]; intros f Hwf.
  - cbn. split; [assumption |]. split; [apply app_nil_r |].
    destruct Hwf as (_ & _ & _ & Hs & _). exact Hs.
  - destruct (fq_exec_step pktq o f Hwf) as [Hwf1 H1]. cbn [fq_run].
    destruct (fq_exec pktq o f) as [e f1]. cbn [fst snd] in *.
    destruct (IH f1 Hwf1) as (Hwf2 & H2 & Hs2).
    destruct (fq_run pktq os f1) as [es f2]. cbn [fst snd] in *.
    split; [assumption |]. split; [| assumption].
    rewrite pushed_frames_cons, shown_frames_cons, app_assoc, H1.
    rewrite <- !app_assoc. f_equal. exact H2.
Qed.

Lemma frame_queue_fifo_witness :
  fq_readable fresh_pictq
    ++ pushed_frames (fst (fq_run started_queue picture_history fresh_pictq))
  = shown_frames (fst (fq_run started_queue picture_history fresh_pictq))
    ++ fq_readable (snd (fq_run started_queue picture_history fresh_pictq)).
Proof.
  exact (proj1 (proj2
    (frame_queue_fifo started_queue picture_history fresh_pictq fresh_pictq_wf))).
Defined.

Lemma frame_queue_next_keeps (f : FrameQueue) :
  fq_wf f ->
  0 < frame_queue_nb_remaining f ->
  fq_keep_last f <> 0 ->
  frame_at (frame_queue_next f) (frame_queue_peek_last (frame_queue_next f))
  = frame_at f (frame_queue_peek f)
  /\ fq_rindex_shown (frame_queue_next f) = 1.
Proof.
  intros (Hm & Hlen & Hr & Hs & Hw & Hrs & Hrss & Hk) Hrem Hkeep.
  rewrite FRAME_QUEUE_SIZE_eq in *.
  unfold frame_queue_nb_remaining in Hrem. rewrite int32_small in Hrem by lia.
  assert (Hpk : frame_queue_peek f = (fq_rindex f + fq_rindex_shown f) mod fq_max_size f).
  { unfold frame_queue_peek. rewrite int32_small by lia.
    apply Z.rem_mod_nonneg; lia. }
  rewrite Hpk. unfold frame_queue_next, frame_queue_peek_last.
  destruct (Z.eqb_spec (fq_keep_last f) 0) as [E | _]; [contradiction |].
  cbn [negb andb].
  destruct (Z.eqb_spec (fq_rindex_shown f) 0) as [E0 | E0].
  - cbn [fq_rindex fq_rindex_shown]. rewrite E0, Z.add_0_r, Z.mod_small by lia.
    split; reflexivity.
  - assert (E1 : fq_rindex_shown f = 1) by lia.
    cbn [fq_rindex fq_rindex_shown]. rewrite !int32_small by lia.
    rewrite succ_wrap by lia. rewrite E1. split; [| reflexivity].
    unfold frame_at. cbn [fq_queue]. apply nth_store_neq.
    intros E. apply Z2Nat.inj in E; [| lia | apply Z.mod_pos_bound; lia].
    rewrite <- (Z.mod_small (fq_rindex f) (fq_max_size f)) in E at 1 by lia.
    replace (fq_rindex f) with (fq_rindex f + 0) in E at 1 by lia.
    apply mod_add_inj in E; lia.
Qed.

(** X8.  In a queue that keeps the last frame, the frame
    [frame_queue_next] moves past stays in its slot with its data: it is
    what [frame_queue_peek_last] then points to, and [frame_queue_last_pos]
    reports its position while its serial is the packet queue's.  In a
    queue that does not, the slot moved past is unreferenced at once. *)
Theorem frame_queue_keeps_last (f : FrameQueue) (pktq : PacketQueue) :
  fq_wf f ->
  0 < frame_queue_nb_remaining f ->
  let x := frame_at f (frame_queue_peek f) in
  let f' := frame_queue_next f in
  (fq_keep_last f <> 0 ->
     frame_at f' (frame_queue_peek_last f') = x
     /\ fq_rindex_shown f' = 1
     /\ frame_queue_last_pos f' pktq
        = (if fr_serial x =? q_serial pktq then fr_pos x else -1))
  /\ (fq_keep_last f = 0 ->
     frame_at f' (frame_queue_peek f) = frame_queue_unref_item x
     /\ frame_queue_last_pos f' pktq = -1).
Proof.
  intros Hwf Hrem. cbv zeta. split.
  - intros Hkeep.
    destruct (frame_queue_next_keeps f Hwf Hrem Hkeep) as [G1 G2].
    split; [exact G1 |]. split; [exact G2 |].
    unfold frame_queue_last_pos. unfold frame_queue_peek_last in G1.
    rewrite G1, G2. reflexivity.
  - intros Hnk.
    destruct Hwf as (Hm & Hlen & Hr & Hs & Hw & Hrs & Hrss & Hk).
    rewrite FRAME_QUEUE_SIZE_eq in *.
    unfold frame_queue_nb_remaining in Hrem. rewrite int32_small in Hrem by lia.
    specialize (Hk Hnk).
    assert (Hpk : frame_queue_peek f = fq_rindex f).
    { unfold frame_queue_peek. rewrite int32_small by lia.
      rewrite Hk, Z.add_0_r. apply Z.rem_small; lia. }
    rewrite Hpk.
    unfold frame_queue_last_pos, frame_queue_next. rewrite Hnk.
    cbn [Z.eqb negb andb]. cbn [fq_rindex_shown fq_rindex].
    rewrite Hk. cbn [Z.eqb negb andb]. split; [| reflexivity].
    unfold frame_at at 1. cbn [fq_queue]. apply nth_store_eq. lia.
Qed.

Lemma frame_queue_keeps_last_witness :
  frame_at one_shown (frame_queue_peek_last one_shown)
  = frame_at two_pictures (frame_queue_peek two_pictures).
Proof.
  refine (proj1 (proj1
    (frame_queue_keeps_last two_pictures started_queue two_pictures_wf _) _)).
  - reflexivity.
  - discriminate.
Defined.

(** ** The decoder's packet fetch *)

Section DecoderFacts.

Variable sz : Z.

Lemma decoder_fetch_queue (l : list MyAVPacketList) : forall fuel d q signals,
  q_pkts q = l -> d_packet_pending d = 0 -> q_abort_request q = 0 ->
  (length l < fuel)%nat ->
  exists d' q' signals',
    decoder_fetch sz fuel d q signals
    = Some (fst (fetch_outcome d q), d', q', signals')
    /\ q_pkts q' = snd (fetch_outcome d q)
    /\ q_serial q' = q_serial q
    /\ q_abort_request q' = 0
    /\ d_packet_pending d' = 0
    /\ (forall p, fst (fetch_outcome d q) = fetch_pkt p ->
          d_pkt_serial d' = q_serial q).
Proof.
  induction l as [|n l IH]; intros fuel d q signals Hq Hp Ha Hf;
    (destruct fuel as [|fuel]; [simpl in Hf; lia |]);
    unfold fetch_outcome; cbn [decoder_fetch]; rewrite Hp, Ha, Hq;
    cbn [Z.eqb negb andb from_current]; unfold packet_queue_get;
    rewrite Ha, Hq; cbn [Z.eqb negb].
  - exists d, q. eexists. cbn [fst snd].
    split; [reflexivity |]. repeat split; try assumption. discriminate.
  - cbn [q_serial d_pkt_serial].
    destruct (Z.eqb_spec (l_serial n) (q_serial q)) as [E | E].
    + rewrite <- E, Z.eqb_refl. cbn [negb fst snd].
      do 3 eexists. split; [reflexivity |].
      cbn [q_pkts q_serial q_abort_request d_packet_pending d_pkt_serial].
      repeat split; assumption.
    + destruct (Z.eqb_spec (q_serial q) (l_serial n)) as [E' | _];
        [symmetry in E'; contradiction |]. cbn [negb].
      match goal with
      | |- context [decoder_fetch sz fuel ?d1 ?q1 ?s1] =>
          destruct (IH fuel d1 q1 s1 eq_refl ltac:(first [reflexivity | exact Hp])
                      ltac:(first [reflexivity | exact Ha]) ltac:(simpl in Hf; lia))
            as (d' & q' & s' & H1 & H2 & H3 & H4 & H5 & H6)
      end.
      unfold fetch_outcome in H1, H2, H6.
      cbn [d_packet_pending d_pkt_serial q_serial q_abort_request q_pkts] in H1, H2, H3, H6.
      cbn [Z.eqb negb andb] in H1, H2, H6.
      exists d', q', s'. split; [exact H1 |].
      split; [exact H2 |]. split; [exact H3 |]. split; [exact H4 |].
      split; [exact H5 | exact H6].
Qed.

(** X9.  The packet-fetching loop of [decoder_decode_frame] ends within
    one round per queued packet plus two, and as [fetch_outcome] says: a
    pending packet of the current serial is taken first; on an aborted
    queue the decoder gives up with -1; otherwise queued packets stamped
    with an older serial are popped and skipped, the first packet of the
    current serial is handed on with [pkt_serial] equal to the queue's
    serial, and when there is none the queue is left empty and the thread
    waits.  The queue's serial is not changed. *)
Theorem decoder_fetch_current (d : Decoder) (q : PacketQueue) (signals : nat) :
  exists d' q' signals',
    decoder_fetch sz (S (S (length (q_pkts q)))) d q signals
    = Some (fst (fetch_outcome d q), d', q', signals')
    /\ q_pkts q' = snd (fetch_outcome d q)
    /\ q_serial q' = q_serial q
    /\ (forall p, fst (fetch_outcome d q) = fetch_pkt p ->
          d_pkt_serial d' = q_serial q /\ d_packet_pending d' = 0).
Proof.
  set (d0 := {| d_pkt := blank_packet; d_queue := d_queue d;
                d_pkt_serial := d_pkt_serial d; d_finished := d_finished d;
                d_packet_pending := 0; d_start_pts := d_start_pts d;
                d_start_pts_tb := d_start_pts_tb d; d_next_pts := d_next_pts d;
                d_next_pts_tb := d_next_pts_tb d |}).
  assert (Haborted : forall fuel d1 s1, d_packet_pending d1 = 0 ->
            q_abort_request q <> 0 ->
            decoder_fetch sz (S fuel) d1 q s1
            = Some (fetch_abort, d1, q,
                    if q_nb_packets q =? 0 then S s1 else s1)).
  { intros fuel d1 s1 Hp Ha. cbn [decoder_fetch]. rewrite Hp. cbn [Z.eqb negb].
    unfold packet_queue_get.
    destruct (Z.eqb_spec (q_abort_request q) 0); [contradiction | reflexivity]. }
  destruct (Z.eqb_spec (d_packet_pending d) 0) as [Hp | Hp].
  - (* nothing pending *)
    destruct (Z.eqb_spec (q_abort_request q) 0) as [Ha | Ha].
    + destruct (decoder_fetch_queue (q_pkts q) (S (S (length (q_pkts q)))) d q
                  signals eq_refl Hp Ha ltac:(lia))
        as (d' & q' & s' & H1 & H2 & H3 & H4 & H5 & H6).
      exists d', q', s'. split; [exact H1 |]. split; [exact H2 |].
      split; [exact H3 |]. intros p Hpk. split; [exact (H6 p Hpk) | exact H5].
    + rewrite (Haborted _ d signals Hp Ha). unfold fetch_outcome.
      rewrite Hp. cbn [Z.eqb negb andb].
      destruct (Z.eqb_spec (q_abort_request q) 0); [contradiction |].
      cbn [negb fst snd]. do 3 eexists. split; [reflexivity |].
      split; [reflexivity |]. split; [reflexivity |]. discriminate.
  - (* a packet is pending *)
    cbn [decoder_fetch].
    destruct (Z.eqb_spec (d_packet_pending d) 0) as [E | _]; [contradiction |].
    cbn [negb]. fold d0. cbn [d_pkt_serial d0].
    unfold fetch_outcome.
    destruct (Z.eqb_spec (d_packet_pending d) 0) as [E | _]; [contradiction |].
    cbn [negb andb].
    destruct (Z.eqb_spec (q_serial q) (d_pkt_serial d)) as [Es | Es]; cbn [negb].
    + cbn [fst snd]. do 3 eexists. split; [reflexivity |].
      split; [reflexivity |]. split; [reflexivity |].
      intros p _. split; [symmetry; exact Es | reflexivity].
    + destruct (Z.eqb_spec (q_abort_request q) 0) as [Ha | Ha]; cbn [negb].
      * destruct (decoder_fetch_queue (q_pkts q) (S (length (q_pkts q))) d0 q
                    (if q_nb_packets q =? 0 then S signals else signals)
                    eq_refl eq_refl Ha ltac:(lia))
          as (d' & q' & s' & H1 & H2 & H3 & H4 & H5 & H6).
        unfold fetch_outcome in H1, H2, H6.
        cbn [d_packet_pending d0 Z.eqb negb andb] in H1, H2, H6.
        rewrite Ha in H1, H2, H6. cbn [Z.eqb negb] in H1, H2, H6.
        exists d', q', s'. split; [exact H1 |]. split; [exact H2 |].
        split; [exact H3 |]. intros p Hpk. split; [exact (H6 p Hpk) | exact H5].
      * pose proof (Haborted (length (q_pkts q)) d0
                      (if q_nb_packets q =? 0 then S signals else signals)
                      eq_refl Ha) as Hab.
        cbn [fst snd]. do 3 eexists. split; [exact Hab |].
        split; [reflexivity |]. split; [reflexivity |]. discriminate.
Qed.

End DecoderFacts.

Lemma decoder_fetch_current_witness :
  exists d' q' signals',
    decoder_fetch 120 5 (decoder_init p_videoq) reseeked_queue 0
    = Some (fetch_pkt flush_pkt, d', q', signals')
    /\ q_pkts q' = []
    /\ q_serial q' = 2
    /\ (forall p, fetch_pkt flush_pkt = fetch_pkt p ->
          d_pkt_serial d' = 2 /\ d_packet_pending d' = 0).
Proof.
  exact (decoder_fetch_current 120 (decoder_init p_videoq) reseeked_queue 0%nat).
Defined.

(** ** Clocks *)

Local Open Scope float_scope.

Lemma nan_sub_add_sub (v a b c : float) :
  isnan v = true -> isnan (v - a + b - c) = true.
Proof.
  rewrite !isnan_spec. intros Hv.
  rewrite sub_spec, add_spec, sub_spec, Hv. reflexivity.
Qed.

(** X10.  A clock left by [init_clock] has no value: whatever the serial
    its [queue_serial] points to holds (for the external clock, its own
    serial, -1 like the clock's) and whenever it is read, [get_clock]
    returns NaN.  It runs at speed 1, unpaused, with serial -1. *)
Theorem init_clock_unset (c : Clock) (queue_serial : serial_ptr) (w : World)
    (mem : serials) (w2 : World) :
  let c' := fst (init_clock c queue_serial w) in
  isnan (fst (get_clock mem c' w2)) = true
  /\ c_serial c' = (-1)%Z /\ c_paused c' = 0%Z /\ c_speed c' = 1.0
  /\ c_queue_serial c' = queue_serial.
Proof.
  cbv zeta. unfold init_clock, set_clock, time_now, av_gettime_relative.
  cbn [fst snd]. unfold set_clock_at.
  cbn [c_queue_serial c_serial c_paused c_pts_drift c_last_updated c_speed].
  split; [| repeat split].
  unfold get_clock.
  cbn [c_queue_serial c_serial c_paused c_pts_drift c_last_updated c_speed].
  destruct (negb (mem queue_serial =? -1)%Z); [reflexivity |].
  cbn [Z.eqb negb]. unfold time_now, av_gettime_relative. cbn [fst snd].
  apply nan_sub_add_sub. reflexivity.
Qed.

(** X11.  Reading a clock right after [set_clock]: NaN when the serial
    given is not the one its packet queue has; exactly [pts] when the
    clock is paused; and, when it runs and the wall clock has not advanced
    between the two calls, [pts] to within a microsecond (time, [pts] and
    speed at most 2^31 in absolute value). *)
Theorem set_clock_then_get (mem : serials) (c : Clock) (pts : float)
    (serial : Z) (w : World) :
  let c' := fst (set_clock c pts serial w) in
  let w' := snd (set_clock c pts serial w) in
  (mem (c_queue_serial c) <> serial ->
     get_clock mem c' w' = (NAN, w'))
  /\ (mem (c_queue_serial c) = serial -> c_paused c <> 0%Z ->
     get_clock mem c' w' = (pts, w'))
  /\ (mem (c_queue_serial c) = serial -> c_paused c = 0%Z ->
     wall w (S (reads w)) = wall w (reads w) ->
     within31 pts -> within31 (fst (time_now w)) -> within31 (c_speed c) ->
     within_1us (fst (get_clock mem c' w')) pts).
Proof.
  cbv zeta. unfold set_clock, time_now, av_gettime_relative.
  cbn [fst snd]. unfold get_clock, set_clock_at.
  cbn [c_queue_serial c_serial c_paused c_pts c_pts_drift
       c_last_updated c_speed].
  split; [| split].
  - intros Hne. destruct (Z.eqb_spec (mem (c_queue_serial c)) serial);
      [contradiction | reflexivity].
  - intros He Hp. rewrite He, Z.eqb_refl. cbn [negb].
    destruct (Z.eqb_spec (c_paused c) 0); [contradiction | reflexivity].
  - intros He Hp Hfrozen Hv Ht Hs. rewrite He, Z.eqb_refl, Hp. cbn [Z.eqb negb].
    unfold time_now, av_gettime_relative. cbn [fst snd wall reads].
    rewrite Hfrozen.
    destruct (within31_bound _ Hv) as [Fv _].
    destruct (restamp_close _ _ _ Hv Ht Hs) as [Fr Er].
    unfold within_1us. split; [exact Fr |]. split; [exact Fv | exact Er].
Qed.

Lemma set_clock_then_get_witness :
  within_1us
    (fst (get_clock (fun _ => 1%Z)
            (fst (set_clock clock_at_6 42 1 frozen_world))
            (snd (set_clock clock_at_6 42 1 frozen_world))))
    42.
Proof.
  exact (proj2 (proj2 (set_clock_then_get (fun _ => 1%Z) clock_at_6 42 1 frozen_world))
           eq_refl eq_refl eq_refl eq_refl eq_refl eq_refl).
Defined.

(** X12.  Pausing a playing player ([toggle_pause]) sets the four paused
    flags and clears [step]; from then on the clocks do not move: the
    external clock reads, at any later time, what it read at the moment
    of the pause, and the audio and video clocks read the [pts] they were
    last set to (NaN if obsolete), without looking at the wall clock. *)
Theorem pause_freezes_clocks (s : VideoState) (w : World) :
  paused s = 0%Z ->
  let s' := fst (toggle_pause s w) in
  let frozen (c : Clock) :=
    if (mem_of s (c_queue_serial c) =? c_serial c)%Z then c_pts c else NAN in
  paused s' = 1%Z /\ step s' = 0%Z
  /\ c_paused (audclk s') = 1%Z /\ c_paused (vidclk s') = 1%Z
  /\ c_paused (extclk s') = 1%Z
  /\ (forall w2, get_clock (mem_of s') (extclk s') w2
                 = (fst (get_clock (mem_of s) (extclk s) w), w2))
  /\ (forall w2, get_clock (mem_of s') (audclk s') w2 = (frozen (audclk s), w2))
  /\ (forall w2, get_clock (mem_of s') (vidclk s') w2 = (frozen (vidclk s), w2)).
Proof.
  intros Hp. destruct_state s. cbn [paused] in Hp. subst f0.
  cbv zeta. unfold toggle_pause, stream_toggle_pause.
  cbn [paused Z.eqb negb extclk].
  destruct (get_clock _ f9 w) as [v w2] eqn:Hv.
  unfold set_clock. destruct (time_now w2) as [t w3].
  cbn [fst snd set_extclk set_vidclk set_audclk set_paused set_step paused step
       extclk vidclk audclk lnot Z.eqb].
  unfold get_clock, mem_of in *.
  cbn [extclk vidclk audclk videoq audioq with_paused set_clock_at c_paused
       c_serial c_queue_serial c_pts Z.eqb negb] in *.
  repeat (split; [reflexivity |]).
  split; [| split].
  - intros w4. destruct f9 as [p0 d0 l0 sp0 se0 pa0 qs0].
    cbn [c_queue_serial c_serial c_paused c_pts] in *.
    destruct qs0; cbn in *;
      match goal with
      | |- context [negb (?a =? ?b)%Z] =>
          destruct (negb (a =? b)%Z); [inversion Hv; reflexivity |]
      end;
      destruct (negb (pa0 =? 0)%Z); inversion Hv; reflexivity.
  - intros w4. destruct (c_queue_serial f7);
      match goal with
      | |- context [(?a =? ?b)%Z] => destruct (a =? b)%Z; reflexivity
      end.
  - intros w4. destruct (c_queue_serial f8);
      match goal with
      | |- context [(?a =? ?b)%Z] => destruct (a =? b)%Z; reflexivity
      end.
Qed.

Lemma pause_freezes_clocks_witness :
  paused (fst (toggle_pause (example_state AV_SYNC_AUDIO_MASTER (-100) (-100) (-100))
                 frozen_world)) = 1%Z.
Proof.
  exact (proj1 (pause_freezes_clocks
                  (example_state AV_SYNC_AUDIO_MASTER (-100) (-100) (-100))
                  frozen_world eq_refl)).
Defined.

Lemma FFMAX_not_below (a b : float) : (FFMAX a b <? a) = false.
Proof.
  unfold FFMAX. destruct (b <? a) eqn:E; [| exact E].
  destruct (a <? a) eqn:E'; [| reflexivity].
  rewrite (ltb_asym _ _ E') in E'. discriminate.
Qed.

Lemma FFMIN_not_above (a b : float) : (a <? FFMIN a b) = false.
Proof.
  unfold FFMIN. destruct (b <? a) eqn:E.
  - apply ltb_asym. exact E.
  - destruct (a <? a) eqn:E'; [| reflexivity].
    rewrite (ltb_asym _ _ E') in E'. discriminate.
Qed.

Lemma set_clock_speed_fields (mem : serials) (c : Clock) (speed : float) (w : World) :
  let c' := fst (set_clock_speed mem c speed w) in
  c_speed c' = speed /\ c_serial c' = c_serial c /\ c_paused c' = c_paused c
  /\ c_queue_serial c' = c_queue_serial c.
Proof.
  cbv zeta. unfold set_clock_speed.
  destruct (get_clock mem c w) as [v w1]. unfold set_clock.
  destruct (time_now w1) as [t w2]. cbn. repeat split.
Qed.

(** X13.  [check_external_clock_speed] changes nothing but the external
    clock, and of it neither the serial nor the paused flag.  When an open
    stream's packet queue holds at most 2 packets the clock is slowed, but
    never to below 0.9; when every open stream's queue holds more than 10
    it is sped up, but never to above 1.01; and in between, a clock
    already at speed 1 is left alone and the wall clock is not read. *)
Theorem external_clock_speed_bounds (s : VideoState) (w : World) :
  let s' := fst (check_external_clock_speed s w) in
  s' = set_extclk (extclk s') s
  /\ c_serial (extclk s') = c_serial (extclk s)
  /\ c_paused (extclk s') = c_paused (extclk s)
  /\ c_queue_serial (extclk s') = c_queue_serial (extclk s)
  /\ (starving s = true ->
      c_speed (extclk s')
      = FFMAX EXTERNAL_CLOCK_SPEED_MIN
              (c_speed (extclk s) - EXTERNAL_CLOCK_SPEED_STEP)
      /\ (c_speed (extclk s') <? EXTERNAL_CLOCK_SPEED_MIN) = false)
  /\ (flooded s = true ->
      c_speed (extclk s')
      = FFMIN EXTERNAL_CLOCK_SPEED_MAX
              (c_speed (extclk s) + EXTERNAL_CLOCK_SPEED_STEP)
      /\ (EXTERNAL_CLOCK_SPEED_MAX <? c_speed (extclk s')) = false)
  /\ (starving s = false -> flooded s = false ->
      (c_speed (extclk s) =? 1.0) = true ->
      check_external_clock_speed s w = (s, w)).
Proof.
  cbv zeta. unfold check_external_clock_speed, flooded. fold (starving s).
  destruct (starving s) eqn:Est.
  - match goal with
    | |- context [set_clock_speed ?m ?c ?sp w] =>
        pose proof (set_clock_speed_fields m c sp w) as (H1 & H2 & H3 & H4);
        destruct (set_clock_speed m c sp w) as [c' w']
    end.
    cbn [fst snd] in *. destruct_state s.
    cbn [set_extclk extclk] in *.
    split; [reflexivity |]. split; [exact H2 |]. split; [exact H3 |].
    split; [exact H4 |]. split; [| split; discriminate].
    intros _. split; [exact H1 |]. rewrite H1. apply FFMAX_not_below.
  - cbn [negb andb].
    destruct (((video_stream s <? 0)%Z
               || (q_nb_packets (videoq s) >? EXTERNAL_CLOCK_MAX_FRAMES)%Z)
              && ((audio_stream s <? 0)%Z
                  || (q_nb_packets (audioq s) >? EXTERNAL_CLOCK_MAX_FRAMES)%Z))
      eqn:Efl.
    + match goal with
      | |- context [set_clock_speed ?m ?c ?sp w] =>
          pose proof (set_clock_speed_fields m c sp w) as (H1 & H2 & H3 & H4);
          destruct (set_clock_speed m c sp w) as [c' w']
      end.
      cbn [fst snd] in *. destruct_state s.
      cbn [set_extclk extclk] in *.
      split; [reflexivity |]. split; [exact H2 |]. split; [exact H3 |].
      split; [exact H4 |]. split; [discriminate |]. split; [| discriminate].
      intros _. split; [exact H1 |]. rewrite H1. apply FFMIN_not_above.
    + destruct (c_speed (extclk s) =? 1.0) eqn:Esp; cbn [negb].
      * cbn [fst]. destruct_state s. cbn [set_extclk extclk].
        repeat (split; [first [reflexivity | discriminate] |]).
        reflexivity.
      * match goal with
        | |- context [set_clock_speed ?m ?c ?sp w] =>
            pose proof (set_clock_speed_fields m c sp w) as (H1 & H2 & H3 & H4);
            destruct (set_clock_speed m c sp w) as [c' w']
        end.
        cbn [fst snd] in *. destruct_state s.
        cbn [set_extclk extclk] in *.
        split; [reflexivity |]. split; [exact H2 |]. split; [exact H3 |].
        split; [exact H4 |]. split; [discriminate |]. split; discriminate.
Qed.

Lemma external_clock_speed_bounds_witness :
  (EXTERNAL_CLOCK_SPEED_MAX
   <? c_speed (extclk (fst (check_external_clock_speed realtime_state frozen_world))))
  = false.
Proof.
  exact (proj2 (proj1 (proj2 (proj2 (proj2 (proj2 (proj2
           (external_clock_speed_bounds realtime_state frozen_world))))))
           eq_refl)).
Defined.

Local Open Scope Z_scope.

(** ** Requesting a seek *)

Lemma testbit_2 (i : Z) : Z.testbit 2 i = (i =? 1).
Proof.
  destruct i as [|p|p]; [reflexivity | | reflexivity].
  destruct p as [p | p |]; try reflexivity; destruct p; reflexivity.
Qed.

(** X14.  [stream_seek] records a request only when none is pending: a
    request made while [seek_req] is set is dropped and the state is left
    as it is.  Otherwise the position and the offset are stored,
    [seek_req] is set, and of [seek_flags] only the bit [AVSEEK_FLAG_BYTE]
    changes, to say whether the seek is by bytes; so a second request made
    before the reader has served the first is lost. *)
Theorem stream_seek_request (s : VideoState) (pos rel seek_by_bytes : Z) :
  (seek_req s <> 0 -> stream_seek s pos rel seek_by_bytes = s)
  /\ (seek_req s = 0 ->
      let s' := stream_seek s pos rel seek_by_bytes in
      seek_req s' = 1 /\ seek_pos s' = pos /\ seek_rel s' = rel
      /\ Z.testbit (seek_flags s') 1 = negb (seek_by_bytes =? 0)
      /\ (forall i, i <> 1 ->
            Z.testbit (seek_flags s') i = Z.testbit (seek_flags s) i)
      /\ s' = set_seek_req 1 (set_seek_flags (seek_flags s')
                                (set_seek_rel rel (set_seek_pos pos s)))
      /\ forall pos2 rel2 by_bytes2, stream_seek s' pos2 rel2 by_bytes2 = s').
Proof.
  unfold stream_seek. split.
  - intros H. destruct (Z.eqb_spec (seek_req s) 0); [contradiction | reflexivity].
  - intros H. rewrite H. cbn [Z.eqb]. cbv zeta. destruct_state s.
    cbn [set_seek_pos set_seek_rel set_seek_flags set_seek_req seek_flags].
    unfold AVSEEK_FLAG_BYTE.
    destruct (seek_by_bytes =? 0); cbn [negb];
      cbn [set_seek_pos set_seek_rel set_seek_flags set_seek_req seek_flags
           seek_req seek_pos seek_rel Z.eqb];
      (split; [reflexivity |]); (split; [reflexivity |]); (split; [reflexivity |]).
    + split; [| split; [| split; reflexivity]].
      * rewrite Z.land_spec, Z.lnot_spec, testbit_2 by lia.
        apply andb_false_r.
      * intros i Hi. destruct (Z.ltb_spec i 0) as [Hn | Hn].
        { rewrite !Z.testbit_neg_r by assumption. reflexivity. }
        rewrite Z.land_spec, Z.lnot_spec, testbit_2 by lia.
        destruct (Z.eqb_spec i 1); [contradiction |]. apply andb_true_r.
    + split; [| split; [| split; reflexivity]].
      * rewrite Z.lor_spec, testbit_2. apply orb_true_r.
      * intros i Hi. destruct (Z.ltb_spec i 0) as [Hn | Hn].
        { rewrite !Z.testbit_neg_r by assumption. reflexivity. }
        rewrite Z.lor_spec, Z.land_spec, Z.lnot_spec, testbit_2 by lia.
        destruct (Z.eqb_spec i 1); [contradiction |].
        cbn [negb]. rewrite andb_true_r, orb_false_r. reflexivity.
Qed.

Lemma stream_seek_request_witness :
  stream_seek (stream_seek (example_state 0 0 0 0) 5000000 10000000 0) 7 8 1
  = stream_seek (example_state 0 0 0 0) 5000000 10000000 0.
Proof.
  exact (proj2 (proj2 (proj2 (proj2 (proj2 (proj2
           (proj2 (stream_seek_request (example_state 0 0 0 0) 5000000 10000000 0)
              eq_refl))))))
           7 8 1).
Defined.

(** ** compute_mod *)

(** X15.  For a positive modulus, [compute_mod] is the least non-negative
    residue of a non-negative [a]; for a negative [a] it is the residue
    taken in the range 1 to [b]: congruent to [a], but [b] itself, not 0,
    when [b] divides [a]. *)
Theorem compute_mod_range (a b : Z) :
  0 < b <= INT_MAX -> INT_MIN <= a <= INT_MAX ->
  let r := compute_mod a b in
  (0 <= a -> r = a mod b)
  /\ (a < 0 -> r = b - (- a) mod b /\ 0 < r <= b)
  /\ r mod b = a mod b
  /\ (r = b <-> a < 0 /\ a mod b = 0).
Proof.
  intros Hb Ha. cbv zeta. unfold compute_mod, INT_MAX, INT_MIN in *.
  change (2 ^ 31) with 2147483648 in *.
  destruct (Z.ltb_spec a 0) as [Hneg | Hpos].
  - assert (Hrem : Z.rem a b = - ((- a) mod b)).
    { replace a with (- (- a)) at 1 by lia.
      rewrite Z.rem_opp_l by lia. rewrite Z.rem_mod_nonneg by lia. reflexivity. }
    pose proof (Z.mod_pos_bound (- a) b ltac:(lia)) as Hm.
    rewrite Hrem, int32_id by (unfold INT_MIN, INT_MAX; simpl; lia).
    assert (Hcong : (- ((- a) mod b) + b) mod b = a mod b).
    { rewrite <- (Z.mod_add a ((- a) / b + 1) b) by lia.
      f_equal. pose proof (Z.div_mod (- a) b ltac:(lia)) as Hd.
      clear - Hd. generalize dependent ((- a) / b). intros q Hd.
      generalize dependent ((- a) mod b). intros m Hd. nia. }
    split; [lia |]. split; [intros _; split; lia |]. split; [exact Hcong |].
    split.
    + intros E. split; [assumption |].
      rewrite <- Hcong, E. apply Z.mod_same. lia.
    + intros [_ E]. rewrite <- Hcong in E.
      destruct (Z.eq_dec ((- a) mod b) 0) as [E0 | E0]; [lia |].
      rewrite Z.mod_small in E by lia. lia.
  - rewrite Z.rem_mod_nonneg by lia.
    pose proof (Z.mod_pos_bound a b ltac:(lia)) as Hm.
    split; [reflexivity |]. split; [lia |]. split; [apply Z.mod_mod; lia |].
    split; [lia | intros [H _]; lia].
Qed.

Lemma compute_mod_range_witness : compute_mod (-6) 3 = 3 <-> -6 < 0 /\ (-6) mod 3 = 0.
Proof.
  refine (proj2 (proj2 (proj2 (compute_mod_range (-6) 3 _ _))));
    unfold INT_MIN, INT_MAX; simpl; lia.
Defined.

(** ** A seek that succeeds *)

Lemma step_to_next_frame_keeps (s : VideoState) (w : World) :
  let s' := fst (step_to_next_frame s w) in
  audioq s' = audioq s /\ videoq s' = videoq s /\ subtitleq s' = subtitleq s
  /\ seek_req s' = seek_req s
  /\ queue_attachments_req s' = queue_attachments_req s
  /\ eof s' = eof s
  /\ c_serial (extclk s') = c_serial (extclk s)
  /\ c_serial (audclk s') = c_serial (audclk s)
  /\ c_serial (vidclk s') = c_serial (vidclk s)
  /\ c_queue_serial (audclk s') = c_queue_serial (audclk s)
  /\ c_queue_serial (vidclk s') = c_queue_serial (vidclk s)
  /\ heap (snd (step_to_next_frame s w)) = heap w.
Proof.
  unfold step_to_next_frame, stream_toggle_pause, set_clock, get_clock, time_now,
    av_gettime_relative.
  destruct_state s. cbn -[Z.eqb AVERROR Z2double PrimFloat.div PrimFloat.sub
                          PrimFloat.add PrimFloat.mul].
  repeat match goal with
         | |- context [if ?b then _ else _] => destruct b; cbn -[Z2double]
         end;
  repeat split.
Qed.

Section SeekFacts.

Variable sz : Z.
Variable avformat_seek_file : Z -> Z -> Z -> Z -> Z -> Z.

Lemma reader_put_heap (q : PacketQueue) (pkt : AVPacket_ref) (w : World) :
  (forall k, heap w k = true) ->
  fst (reader_put sz q pkt w) = packet_queue_put sz true q pkt
  /\ heap (snd (reader_put sz q pkt w)) = heap w.
Proof.
  intros Hh. unfold reader_put.
  destruct (negb (q_abort_request q =? 0)); [split; reflexivity |].
  unfold av_malloc. rewrite Hh. split; reflexivity.
Qed.

Lemma reseek_step (stream : Z) (q : PacketQueue) (w : World) :
  (forall k, heap w k = true) ->
  let r := if stream >=? 0
           then let '(_, q', w') := reader_put sz (packet_queue_flush q) ref_flush_pkt w in
                (q', w')
           else (q, w) in
  fst r = reseeked sz stream q /\ heap (snd r) = heap w.
Proof.
  intros Hh. cbv zeta. unfold reseeked. destruct (stream >=? 0); [| split; reflexivity].
  destruct (reader_put_heap (packet_queue_flush q) ref_flush_pkt w Hh) as [H1 H2].
  destruct (reader_put sz (packet_queue_flush q) ref_flush_pkt w) as [[ret q'] w'].
  cbn [fst snd] in *. rewrite <- H1. split; [reflexivity | exact H2].
Qed.

Lemma reseeked_at_sentinel (stream : Z) (q : PacketQueue) :
  0 <= stream -> q_abort_request q = 0 ->
  INT_MIN <= q_serial q < INT_MAX ->
  at_sentinel sz q (reseeked sz stream q).
Proof.
  intros Hs Ha Hr. unfold reseeked, at_sentinel.
  destruct (Z.geb_spec stream 0) as [_ | H]; [| lia].
  unfold packet_queue_put, packet_queue_put_private, packet_queue_flush.
  cbn [q_abort_request q_pkts q_serial q_size q_nb_packets q_duration].
  rewrite Ha. cbn [Z.eqb negb snd is_flush_ref deref app l_pkt
                   q_abort_request q_pkts q_serial q_size q_nb_packets q_duration].
  rewrite (int32_id (q_serial q + 1)) by lia.
  repeat split.
Qed.

Lemma seek_success_state (s : VideoState) (w : World) :
  seek_req s <> 0 ->
  0 <= seek_result avformat_seek_file s ->
  (forall k, heap w k = true) ->
  let r := read_thread_loop_handle_seek sz avformat_seek_file s w in
  let s' := snd (fst r) in
  fst (fst r) = 0
  /\ seek_req s' = 0 /\ queue_attachments_req s' = 1 /\ eof s' = 0
  /\ audioq s' = reseeked sz (audio_stream s) (audioq s)
  /\ subtitleq s' = reseeked sz (subtitle_stream s) (subtitleq s)
  /\ videoq s' = reseeked sz (video_stream s) (videoq s)
  /\ c_serial (extclk s') = 0
  /\ (paused s = 0 ->
      c_pts (extclk s')
      = if negb (Z.land (seek_flags s) AVSEEK_FLAG_BYTE =? 0) then NAN
        else (Z2double (seek_pos s) / Z2double AV_TIME_BASE)%float)
  /\ (c_serial (audclk s') = c_serial (audclk s)
      /\ c_serial (vidclk s') = c_serial (vidclk s)
      /\ c_queue_serial (audclk s') = c_queue_serial (audclk s)
      /\ c_queue_serial (vidclk s') = c_queue_serial (vidclk s)).
Proof.
  intros Hreq Hok Hh r s'. subst s' r.
  unfold read_thread_loop_handle_seek. fold (seek_result avformat_seek_file s).
  destruct (Z.eqb_spec (seek_req s) 0) as [E | _]; [contradiction |].
  destruct (Z.ltb_spec (seek_result avformat_seek_file s) 0) as [E | _]; [lia |].
  cbn [negb]. cbv iota.
  (* the three queues *)
  pose proof (reseek_step (audio_stream s) (audioq s) w Hh) as [A1 A2].
  cbv zeta in A1, A2.
  assert (HA : (if audio_stream s >=? 0
                then let '(_, q, w') :=
                       reader_put sz (packet_queue_flush (audioq s)) ref_flush_pkt w in
                     (set_audioq q s, w')
                else (s, w))
               = (set_audioq (reseeked sz (audio_stream s) (audioq s)) s,
                  snd (if audio_stream s >=? 0
                       then let '(_, q', w') :=
                              reader_put sz (packet_queue_flush (audioq s)) ref_flush_pkt w in
                            (q', w')
                       else (audioq s, w)))).
  { rewrite <- A1. destruct (audio_stream s >=? 0).
    - destruct (reader_put sz (packet_queue_flush (audioq s)) ref_flush_pkt w)
        as [[ret q'] w']. reflexivity.
    - cbn [fst snd]. destruct_state s. reflexivity. }
  rewrite HA. clear HA.
  set (wa := snd (if audio_stream s >=? 0
                  then let '(_, q', w') :=
                         reader_put sz (packet_queue_flush (audioq s)) ref_flush_pkt w in
                       (q', w')
                  else (audioq s, w))) in *.
  set (sa := set_audioq (reseeked sz (audio_stream s) (audioq s)) s).
  assert (Hha : forall k, heap wa k = true) by (intros k; rewrite A2; apply Hh).
  pose proof (reseek_step (subtitle_stream sa) (subtitleq sa) wa Hha) as [B1 B2].
  cbv zeta in B1, B2.
  assert (HB : (if subtitle_stream sa >=? 0
                then let '(_, q, w') :=
                       reader_put sz (packet_queue_flush (subtitleq sa)) ref_flush_pkt wa in
                     (set_subtitleq q sa, w')
                else (sa, wa))
               = (set_subtitleq (reseeked sz (subtitle_stream sa) (subtitleq sa)) sa,
                  snd (if subtitle_stream sa >=? 0
                       then let '(_, q', w') :=
                              reader_put sz (packet_queue_flush (subtitleq sa)) ref_flush_pkt wa in
                            (q', w')
                       else (subtitleq sa, wa)))).
  { rewrite <- B1. destruct (subtitle_stream sa >=? 0).
    - destruct (reader_put sz (packet_queue_flush (subtitleq sa)) ref_flush_pkt wa)
        as [[ret q'] w']. reflexivity.
    - cbn [fst snd]. destruct sa. reflexivity. }
  rewrite HB. clear HB.
  set (wb := snd (if subtitle_stream sa >=? 0
                  then let '(_, q', w') :=
                         reader_put sz (packet_queue_flush (subtitleq sa)) ref_flush_pkt wa in
                       (q', w')
                  else (subtitleq sa, wa))) in *.
  set (sb := set_subtitleq (reseeked sz (subtitle_stream sa) (subtitleq sa)) sa).
  assert (Hhb : forall k, heap wb k = true) by (intros k; rewrite B2; apply Hha).
  pose proof (reseek_step (video_stream sb) (videoq sb) wb Hhb) as [C1 C2].
  cbv zeta in C1, C2.
  assert (HC : (if video_stream sb >=? 0
                then let '(_, q, w') :=
                       reader_put sz (packet_queue_flush (videoq sb)) ref_flush_pkt wb in
                     (set_videoq q sb, w')
                else (sb, wb))
               = (set_videoq (reseeked sz (video_stream sb) (videoq sb)) sb,
                  snd (if video_stream sb >=? 0
                       then let '(_, q', w') :=
                              reader_put sz (packet_queue_flush (videoq sb)) ref_flush_pkt wb in
                            (q', w')
                       else (videoq sb, wb)))).
  { rewrite <- C1. destruct (video_stream sb >=? 0).
    - destruct (reader_put sz (packet_queue_flush (videoq sb)) ref_flush_pkt wb)
        as [[ret q'] w']. reflexivity.
    - cbn [fst snd]. destruct sb. reflexivity. }
  rewrite HC. clear HC.
  set (wc := snd (if video_stream sb >=? 0
                  then let '(_, q', w') :=
                         reader_put sz (packet_queue_flush (videoq sb)) ref_flush_pkt wb in
                       (q', w')
                  else (videoq sb, wb))) in *.
  set (sc := set_videoq (reseeked sz (video_stream sb) (videoq sb)) sb).
  (* the external clock *)
  set (target := if negb (Z.land (seek_flags sc) AVSEEK_FLAG_BYTE =? 0) then NAN
                 else (Z2double (seek_pos s) / Z2double AV_TIME_BASE)%float).
  assert (HD : (if negb (Z.land (seek_flags sc) AVSEEK_FLAG_BYTE =? 0)
                then set_clock (extclk sc) NAN 0 wc
                else set_clock (extclk sc)
                       (Z2double (seek_pos s) / Z2double AV_TIME_BASE)%float 0 wc)
               = set_clock (extclk sc) target 0 wc).
  { unfold target. destruct (negb (Z.land (seek_flags sc) AVSEEK_FLAG_BYTE =? 0));
      reflexivity. }
  rewrite HD. clear HD.
  unfold set_clock. destruct (time_now wc) as [t wd].
  set (s2 := set_eof 0 (set_queue_attachments_req 1
               (set_seek_req 0 (set_extclk (set_clock_at (extclk sc) target 0 t) sc)))).
  assert (Hs2 : seek_req s2 = 0 /\ queue_attachments_req s2 = 1 /\ eof s2 = 0
                /\ audioq s2 = reseeked sz (audio_stream s) (audioq s)
                /\ subtitleq s2 = reseeked sz (subtitle_stream s) (subtitleq s)
                /\ videoq s2 = reseeked sz (video_stream s) (videoq s)
                /\ c_serial (extclk s2) = 0
                /\ c_pts (extclk s2)
                   = (if negb (Z.land (seek_flags s) AVSEEK_FLAG_BYTE =? 0) then NAN
                      else (Z2double (seek_pos s) / Z2double AV_TIME_BASE)%float)
                /\ paused s2 = paused s
                /\ c_serial (audclk s2) = c_serial (audclk s)
                /\ c_serial (vidclk s2) = c_serial (vidclk s)
                /\ c_queue_serial (audclk s2) = c_queue_serial (audclk s)
                /\ c_queue_serial (vidclk s2) = c_queue_serial (vidclk s)).
  { unfold s2, target, sc, sb, sa. destruct_state s.
    cbn [set_audioq set_subtitleq set_videoq set_extclk set_seek_req
         set_queue_attachments_req set_eof seek_req queue_attachments_req eof
         audioq subtitleq videoq extclk audclk vidclk seek_flags seek_pos paused
         audio_stream subtitle_stream video_stream set_clock_at c_serial c_pts].
    repeat split. }
  destruct Hs2 as (R1 & R2 & R3 & R4 & R5 & R6 & R7 & R8 & R9 & Q1 & Q2 & Q3 & Q4).
  rewrite R9. destruct (Z.eqb_spec (paused s) 0) as [Hz | Hnz]; cbn [negb]; cbv iota.
  - cbn [fst snd]. split; [reflexivity |].
    repeat (split; [assumption |]).
    split; [intros _; exact R8 |]. repeat split; assumption.
  - pose proof (step_to_next_frame_keeps s2 wd) as K. cbv zeta in K.
    destruct (step_to_next_frame s2 wd) as [s3 w3]. cbn [fst snd] in *.
    destruct K as (K1 & K2 & K3 & K4 & K5 & K6 & K7 & K8 & K9 & K10 & K11 & _).
    split; [reflexivity |].
    split; [congruence |]. split; [congruence |]. split; [congruence |].
    split; [congruence |]. split; [congruence |]. split; [congruence |].
    split; [congruence |]. split; [intros H; contradiction |].
    repeat split; congruence.
Qed.

(** X16.  When a seek is pending, the container's seek succeeds and the
    node allocations succeed, the seek step flushes the packet queue of
    every open stream and puts the flush sentinel into it, so that a queue
    that is not aborted holds the sentinel alone, stamped with the next
    serial; the queues of streams that are not open are left alone; the
    request is consumed; and the external clock carries serial 0 and, in a
    player that is not paused, the seek target in seconds (NaN for a seek
    by bytes). *)
Theorem seek_success (s : VideoState) (w : World) :
  seek_req s <> 0 ->
  0 <= seek_result avformat_seek_file s ->
  (forall k, heap w k = true) ->
  let r := read_thread_loop_handle_seek sz avformat_seek_file s w in
  let s' := snd (fst r) in
  fst (fst r) = 0
  /\ seek_req s' = 0 /\ queue_attachments_req s' = 1 /\ eof s' = 0
  /\ audioq s' = reseeked sz (audio_stream s) (audioq s)
  /\ subtitleq s' = reseeked sz (subtitle_stream s) (subtitleq s)
  /\ videoq s' = reseeked sz (video_stream s) (videoq s)
  /\ c_serial (extclk s') = 0
  /\ (paused s = 0 ->
      c_pts (extclk s')
      = if negb (Z.land (seek_flags s) AVSEEK_FLAG_BYTE =? 0) then NAN
        else (Z2double (seek_pos s) / Z2double AV_TIME_BASE)%float)
  /\ (forall stream q, 0 <= stream -> q_abort_request q = 0 ->
        INT_MIN <= q_serial q < INT_MAX ->
        at_sentinel sz q (reseeked sz stream q))
  /\ (forall stream q, stream < 0 -> reseeked sz stream q = q).
Proof.
  intros Hreq Hok Hh.
  destruct (seek_success_state s w Hreq Hok Hh)
    as (H0 & H1 & H2 & H3 & H4 & H5 & H6 & H7 & H8 & _).
  cbv zeta. repeat (split; [assumption |]).
  split; [intros; apply reseeked_at_sentinel; assumption |].
  intros stream q Hn. unfold reseeked.
  destruct (Z.geb_spec stream 0); [lia | reflexivity].
Qed.

(** X17.  After such a seek the audio and the video clock are obsolete:
    a clock whose serial was at most that of its (open, not aborted)
    stream's packet queue reads NaN at any later time, until it is set
    from a frame that comes after the sentinel. *)
Theorem seek_makes_clocks_obsolete (s : VideoState) (w : World) :
  seek_req s <> 0 ->
  0 <= seek_result avformat_seek_file s ->
  (forall k, heap w k = true) ->
  let s' := snd (fst (read_thread_loop_handle_seek sz avformat_seek_file s w)) in
  (0 <= audio_stream s -> q_abort_request (audioq s) = 0 ->
   c_queue_serial (audclk s) = p_audioq_serial ->
   INT_MIN <= q_serial (audioq s) < INT_MAX ->
   c_serial (audclk s) <= q_serial (audioq s) ->
   forall w2, get_clock (mem_of s') (audclk s') w2 = (NAN, w2))
  /\ (0 <= video_stream s -> q_abort_request (videoq s) = 0 ->
      c_queue_serial (vidclk s) = p_videoq_serial ->
      INT_MIN <= q_serial (videoq s) < INT_MAX ->
      c_serial (vidclk s) <= q_serial (videoq s) ->
      forall w2, get_clock (mem_of s') (vidclk s') w2 = (NAN, w2)).
Proof.
  intros Hreq Hok Hh.
  destruct (seek_success_state s w Hreq Hok Hh)
    as (_ & _ & _ & _ & Ha & _ & Hv & _ & _ & Sa & Sv & Pa & Pv).
  cbv zeta in *. split.
  - intros Hst Hab Hptr Hr Hle w2.
    destruct (reseeked_at_sentinel (audio_stream s) (audioq s) Hst Hab Hr)
      as (_ & Hser & _).
    apply get_clock_serial_mismatch. rewrite Pa, Hptr, Sa.
    unfold mem_of. rewrite Ha, Hser. lia.
  - intros Hst Hab Hptr Hr Hle w2.
    destruct (reseeked_at_sentinel (video_stream s) (videoq s) Hst Hab Hr)
      as (_ & Hser & _).
    apply get_clock_serial_mismatch. rewrite Pv, Hptr, Sv.
    unfold mem_of. rewrite Hv, Hser. lia.
Qed.

End SeekFacts.

Lemma seek_success_witness :
  audioq (snd (fst (read_thread_loop_handle_seek 120 working_seek seek_to_30
                      frozen_world)))
  = reseeked 120 (audio_stream seek_to_30) (audioq seek_to_30).
Proof.
  refine (proj1 (proj2 (proj2 (proj2 (proj2
    (seek_success 120 working_seek seek_to_30 frozen_world _ _ (fun _ => eq_refl))))))).
  - vm_compute. discriminate.
  - vm_compute. discriminate.
Defined.

Lemma seek_makes_clocks_obsolete_witness :
  get_clock
    (mem_of (snd (fst (read_thread_loop_handle_seek 120 working_seek seek_to_30
                         frozen_world))))
    (audclk (snd (fst (read_thread_loop_handle_seek 120 working_seek seek_to_30
                         frozen_world))))
    frozen_world
  = (NAN, frozen_world).
Proof.
  refine (proj1 (seek_makes_clocks_obsolete 120 working_seek seek_to_30
                   frozen_world _ _ (fun _ => eq_refl)) _ _ _ _ _ frozen_world).
  - vm_compute. discriminate.
  - vm_compute. discriminate.
  - vm_compute. discriminate.
  - reflexivity.
  - reflexivity.
  - vm_compute. split; [discriminate | reflexivity].
  - vm_compute. discriminate.
Defined.

(** ** Frame durations *)

Local Open Scope float_scope.

Lemma ltb_leb (x y : float) : (x <? y) = true -> (x <=? y) = true.
Proof.
  rewrite ltb_spec, leb_spec. unfold SFltb, SFleb.
  destruct (SFcompare (Prim2SF x) (Prim2SF y)) as [[| |]|]; try discriminate; reflexivity.
Qed.

Lemma leb_false_ltb (x y : float) : (x <=? y) = false -> (x <? y) = false.
Proof.
  intros H. destruct (x <? y) eqn:E; [| reflexivity].
  rewrite (ltb_leb _ _ E) in H. discriminate.
Qed.

(** X18.  The duration [vp_duration] gives a frame is 0 when the next
    frame is of another serial, the difference of the two timestamps when
    that is a number, positive and at most [max_frame_duration], and the
    frame's own [duration] otherwise.  So it is NaN or negative only if the
    frame's own [duration] is. *)
Theorem vp_duration_valid (s : VideoState) (vp nextvp : Frame) :
  let r := vp_duration s vp nextvp in
  let d := fr_pts nextvp - fr_pts vp in
  (fr_serial vp <> fr_serial nextvp -> r = 0.0)
  /\ (fr_serial vp = fr_serial nextvp ->
      (r = d /\ isnan d = false /\ (d <=? 0) = false
       /\ (max_frame_duration s <? d) = false)
      \/ (r = fr_duration vp
          /\ (isnan d || (d <=? 0) || (max_frame_duration s <? d)) = true))
  /\ (isnan (fr_duration vp) = false -> isnan r = false)
  /\ ((fr_duration vp <? 0) = false -> (r <? 0) = false).
Proof.
  cbv zeta. unfold vp_duration.
  destruct (Z.eqb_spec (fr_serial vp) (fr_serial nextvp)) as [E | E].
  - split; [intros H; contradiction |].
    destruct (isnan (fr_pts nextvp - fr_pts vp)) eqn:En; cbn [orb].
    { split; [intros _; right; split; reflexivity |]. split; auto. }
    destruct (fr_pts nextvp - fr_pts vp <=? 0) eqn:El; cbn [orb].
    { split; [intros _; right; split; reflexivity |]. split; auto. }
    destruct (max_frame_duration s <? fr_pts nextvp - fr_pts vp) eqn:Em.
    { split; [intros _; right; split; reflexivity |]. split; auto. }
    split; [intros _; left; repeat split; assumption |].
    split; [intros _; exact En |]. intros _. apply leb_false_ltb. exact El.
  - split; [intros _; reflexivity |]. split; [intros H; contradiction |].
    split; intros _; reflexivity.
Qed.

Lemma vp_duration_valid_witness :
  vp_duration (example_state 0 0 0 0) (picture 2) jump_picture
  = fr_duration (picture 2).
Proof.
  destruct (proj1 (proj2 (vp_duration_valid (example_state 0 0 0 0) (picture 2)
                            jump_picture)) eq_refl)
    as [(_ & _ & _ & H) | (H & _)].
  - vm_compute in H. discriminate H.
  - exact H.
Defined.

Local Open Scope Z_scope.

(** ** Audio sample compensation *)

(** X19.  Whatever the clocks read, [synchronize_audio] changes the
    number of samples by at most [SAMPLE_CORRECTION_PERCENT_MAX] percent:
    for a count from 0 to 19 000 000 the result lies between [n * 90 / 100]
    and [n * 110 / 100]. *)
Theorem audio_correction_bounded (s : VideoState) (n : Z) (w : World) :
  0 <= n <= 19000000 ->
  n * 90 / 100 <= fst (fst (synchronize_audio s n w)) <= n * 110 / 100.
Proof.
  intros Hn.
  assert (Hid : n * 90 / 100 <= n <= n * 110 / 100).
  { split.
    - apply Z.div_le_upper_bound; lia.
    - apply Z.div_le_lower_bound; lia. }
  unfold synchronize_audio.
  destruct (negb (get_master_sync_type s =? AV_SYNC_AUDIO_MASTER));
    [| exact Hid].
  destruct (get_clock (mem_of s) (audclk s) w) as [a w1].
  destruct (get_master_clock s w1) as [m w2].
  destruct (negb (isnan (a - m)) && (fabs (a - m) <? AV_NOSYNC_THRESHOLD))%float;
    [| exact Hid].
  match goal with
  | |- context [if (?c <? AUDIO_DIFF_AVG_NB) then _ else _] =>
      destruct (c <? AUDIO_DIFF_AVG_NB); [exact Hid |]
  end.
  cbn [fst].
  match goal with
  | |- context [if ?c then _ else n] => destruct c; [| exact Hid]
  end.
  unfold SAMPLE_CORRECTION_PERCENT_MAX.
  change (100 - 10) with 90. change (100 + 10) with 110.
  rewrite (int32_id (n * 90)), (int32_id (n * 110))
    by (unfold INT_MIN, INT_MAX; simpl; lia).
  rewrite !Z.quot_div_nonneg by lia.
  apply av_clip_range. lia.
Qed.

Lemma audio_correction_bounded_witness :
  1024 * 90 / 100 <= fst (fst (synchronize_audio slightly_ahead 1024 frozen_world))
  <= 1024 * 110 / 100.
Proof.
  apply (audio_correction_bounded slightly_ahead 1024 frozen_world). lia.
Defined.

(** ** Signs of doubles *)

Lemma shr_nonneg (m e n : Z) :
  0 <= m ->
  exists k, 0 <= k
    /\ shr_inv m k (fst (shr {| shr_m := m; shr_r := false; shr_s := false |} e n)).
Proof.
  intros Hm. unfold shr. destruct n as [|p|p].
  - exists 0. split; [lia | apply shr_inv_start; assumption].
  - exists (Zpos p). split; [lia |]. cbn [fst].
    pose proof (shr_inv_iter m p 0 _ ltac:(lia) (shr_inv_start m Hm)) as H.
    rewrite Z.add_0_l in H. exact H.
  - exists 0. split; [lia | apply shr_inv_start; assumption].
Qed.

(** Rounding keeps the sign it is given and never yields NaN. *)
Lemma binary_round_aux_sign (sx : bool) (m : positive) (e : Z) :
  match binary_round_aux prec emax sx (Zpos m) e loc_Exact with
  | S754_zero s | S754_infinity s | S754_finite s _ _ => s = sx
  | S754_nan => False
  end.
Proof.
  unfold binary_round_aux, shr_fexp. cbn [shr_record_of_loc].
  destruct (shr_nonneg (Zpos m) e (fexp prec emax (Zdigits2 (Zpos m) + e) - e)
              ltac:(lia)) as (k & Hk & Hinv).
  destruct (shr {| shr_m := Zpos m; shr_r := false; shr_s := false |} e
              (fexp prec emax (Zdigits2 (Zpos m) + e) - e)) as [mrs' e'].
  cbn [fst] in Hinv.
  pose proof (round_nearest_even_error (Zpos m) k mrs' Hk Hinv) as [Hr _].
  destruct Hinv as [Hm0 _].
  set (m1 := round_nearest_even (shr_m mrs') (loc_of_shr_record mrs')) in *.
  assert (Hm1 : 0 <= m1) by lia.
  destruct (shr_nonneg m1 e' (fexp prec emax (Zdigits2 m1 + e') - e') Hm1)
    as (k2 & Hk2 & [Hm2 _]).
  destruct (shr {| shr_m := m1; shr_r := false; shr_s := false |} e'
              (fexp prec emax (Zdigits2 m1 + e') - e')) as [mrs'' e''].
  cbn [fst] in Hm2.
  destruct (shr_m mrs''); [reflexivity | | lia].
  destruct (e'' <=? emax - prec); reflexivity.
Qed.

Lemma SFmul_not_neg (x y : spec_float) :
  SFnot_neg x = true -> SFnot_neg y = true -> SFnot_neg (SF64mul x y) = true.
Proof.
  unfold SF64mul.
  destruct x as [sx | sx | | sx mx ex], y as [sy | sy | | sy my ey];
    cbn [SFmul SFnot_neg]; intros Hx Hy; try reflexivity;
    try (destruct sx; try discriminate; destruct sy; try discriminate; reflexivity).
  destruct sx; [discriminate |]. destruct sy; [discriminate |]. cbn [xorb].
  pose proof (binary_round_aux_sign false (mx * my) (ex + ey)) as H.
  destruct (binary_round_aux prec emax false (Zpos (mx * my)) (ex + ey) loc_Exact);
    try subst; reflexivity.
Qed.

Lemma SFadd_not_neg (x y : spec_float) :
  SFnot_neg x = true -> SFnot_neg y = true -> SFnot_neg (SF64add x y) = true.
Proof.
  unfold SF64add.
  destruct x as [sx | sx | | sx mx ex], y as [sy | sy | | sy my ey];
    cbn [SFadd SFnot_neg]; intros Hx Hy; try reflexivity; try assumption;
    try (destruct sx; try discriminate; destruct sy; try discriminate; reflexivity).
  destruct sx; [discriminate |]. destruct sy; [discriminate |].
  cbn [cond_Zopp]. rewrite <- Pos2Z.inj_add.
  unfold binary_normalize, binary_round.
  match goal with
  | |- context [shl_align ?a ?b ?c] => destruct (shl_align a b c) as [mz ez]
  end.
  pose proof (binary_round_aux_sign false mz ez) as H.
  destruct (binary_round_aux prec emax false (Zpos mz) ez loc_Exact);
    try subst; reflexivity.
Qed.

Local Open Scope float_scope.

Lemma ltb_zero_not_neg (x : float) :
  (x <? 0) = false <-> SFnot_neg (Prim2SF x) = true.
Proof.
  rewrite ltb_spec. change (Prim2SF 0) with (S754_zero false).
  unfold SFltb. destruct (Prim2SF x) as [s | s | | s m e]; cbn.
  - split; reflexivity.
  - destruct s; split; intros H; try reflexivity; discriminate.
  - split; reflexivity.
  - destruct s; split; intros H; try reflexivity; discriminate.
Qed.

Lemma leb_tenth_not_neg (d : float) :
  (AV_SYNC_THRESHOLD_MAX <=? d) = true -> SFnot_neg (Prim2SF d) = true.
Proof.
  rewrite leb_spec. unfold SFleb.
  replace (Prim2SF AV_SYNC_THRESHOLD_MAX)
    with (S754_finite false 7205759403792794 (-56)) by (vm_compute; reflexivity).
  destruct (Prim2SF d) as [s | s | | s m e]; cbn; try reflexivity;
    destruct s; try reflexivity; discriminate.
Qed.

(** X20.  [compute_target_delay] never turns a delay that is not
    negative into a negative one, whatever the clocks read: the delay a
    frame is shown for is shortened to 0 at most. *)
Theorem target_delay_not_negative (delay : float) (s : VideoState) (w : World) :
  (delay <? 0) = false ->
  (fst (compute_target_delay delay s w) <? 0) = false.
Proof.
  intros Hd. unfold compute_target_delay.
  destruct (negb (get_master_sync_type s =? AV_SYNC_VIDEO_MASTER)%Z);
    [| exact Hd].
  destruct (get_clock (mem_of s) (vidclk s) w) as [v w1].
  destruct (get_master_clock s w1) as [m w2].
  destruct (negb (isnan (v - m)) && (fabs (v - m) <? max_frame_duration s));
    [| exact Hd].
  destruct (v - m <=? - FFMAX AV_SYNC_THRESHOLD_MIN (FFMIN AV_SYNC_THRESHOLD_MAX delay)).
  { cbn [fst]. apply FFMAX_not_below. }
  destruct ((FFMAX AV_SYNC_THRESHOLD_MIN (FFMIN AV_SYNC_THRESHOLD_MAX delay) <=? v - m)
            && (AV_SYNC_FRAMEDUP_THRESHOLD <? delay)) eqn:Edup.
  { cbn [fst]. apply andb_prop in Edup. destruct Edup as [Ethr Ebig].
    assert (Hthr : FFMAX AV_SYNC_THRESHOLD_MIN (FFMIN AV_SYNC_THRESHOLD_MAX delay)
                   = AV_SYNC_THRESHOLD_MAX).
    { unfold FFMIN. change AV_SYNC_FRAMEDUP_THRESHOLD with AV_SYNC_THRESHOLD_MAX in Ebig.
      rewrite (ltb_asym _ _ Ebig). reflexivity. }
    rewrite Hthr in Ethr.
    apply ltb_zero_not_neg. rewrite add_spec.
    apply SFadd_not_neg; [apply ltb_zero_not_neg; exact Hd |].
    apply leb_tenth_not_neg. exact Ethr. }
  destruct (FFMAX AV_SYNC_THRESHOLD_MIN (FFMIN AV_SYNC_THRESHOLD_MAX delay) <=? v - m);
    [| exact Hd].
  cbn [fst]. apply ltb_zero_not_neg. rewrite mul_spec.
  apply SFmul_not_neg; [reflexivity |]. apply ltb_zero_not_neg. exact Hd.
Qed.

Lemma target_delay_not_negative_witness :
  (fst (compute_target_delay 0.04
          (example_state AV_SYNC_AUDIO_MASTER (-100) (-101) (-100)) frozen_world)
   <? 0) = false.
Proof.
  exact (target_delay_not_negative 0.04
           (example_state AV_SYNC_AUDIO_MASTER (-100) (-101) (-100)) frozen_world
           eq_refl).
Defined.

Local Open Scope Z_scope.

(** ** The audio output's frame fetch *)

Lemma store_beyond {A : Type} (l : list A) (n : nat) (x : A) :
  (length l <= n)%nat -> store l n x = l.
Proof.
  revert n. induction l as [|a l IH]; intros [|n] H; simpl in *;
    try reflexivity; try lia.
  f_equal. apply IH. lia.
Qed.

(** [frame_queue_next] changes no frame's serial. *)
Lemma frame_at_next_serial (f : FrameQueue) (i : Z) :
  fr_serial (frame_at (frame_queue_next f) i) = fr_serial (frame_at f i).
Proof.
  unfold frame_queue_next.
  destruct (negb (fq_keep_last f =? 0) && (fq_rindex_shown f =? 0)); [reflexivity |].
  unfold frame_at. cbn [fq_queue].
  destruct (Nat.eq_dec (Z.to_nat (fq_rindex f)) (Z.to_nat i)) as [E | E].
  - rewrite <- E.
    destruct (Nat.lt_ge_cases (Z.to_nat (fq_rindex f)) (length (fq_queue f))) as [L | L].
    + rewrite nth_store_eq by assumption. reflexivity.
    + rewrite store_beyond by assumption. reflexivity.
  - rewrite nth_store_neq by assumption. reflexivity.
Qed.

Lemma audio_fetch_readable (q : PacketQueue) (l : list Frame) : forall fuel f,
  fq_wf f -> fq_readable f = l -> q_abort_request q = 0 ->
  (length l < fuel)%nat ->
  exists r f',
    audio_fetch_frame fuel f q = Some (r, f') /\ fq_wf f'
    /\ match frames_from_current (q_serial q) l with
       | x :: rest =>
           exists af, r = peek_slot af
             /\ fr_serial (frame_at f' af) = q_serial q
             /\ fr_serial x = q_serial q
             /\ (fq_keep_last f <> 0 ->
                 frame_at f' af = x /\ af = frame_queue_peek_last f')
             /\ fq_readable f' = rest
       | [] => r = peek_wait /\ fq_readable f' = []
       end.
Proof.
  induction l as [|x l IH]; intros fuel f Hwf Hl Ha Hf;
    (destruct fuel as [|fuel]; [simpl in Hf; lia |]); cbn [audio_fetch_frame].
  - (* nothing to read: the thread waits *)
    pose proof (fq_readable_length f Hwf) as L. rewrite Hl in L. cbn [length] in L.
    assert (Hp : frame_queue_peek_readable f q = peek_wait).
    { unfold frame_queue_peek_readable.
      destruct Hwf as (Hm & _ & _ & Hs & _ & Hrs & _).
      rewrite FRAME_QUEUE_SIZE_eq in Hm.
      rewrite (int32_small (fq_size f - fq_rindex_shown f)) by lia.
      rewrite Ha. destruct (Z.leb_spec (fq_size f - fq_rindex_shown f) 0); [| lia].
      reflexivity. }
    rewrite Hp. exists peek_wait, f. cbn [frames_from_current].
    split; [reflexivity |]. split; [assumption |]. split; [reflexivity | assumption].
  - pose proof (fq_readable_length f Hwf) as L. rewrite Hl in L. cbn [length] in L.
    assert (Hp : frame_queue_peek_readable f q = peek_slot (frame_queue_peek f)).
    { unfold frame_queue_peek_readable, frame_queue_peek.
      destruct Hwf as (Hm & _ & _ & Hs & _ & Hrs & _).
      rewrite FRAME_QUEUE_SIZE_eq in Hm.
      rewrite (int32_small (fq_size f - fq_rindex_shown f)) by lia.
      rewrite Ha. destruct (Z.leb_spec (fq_size f - fq_rindex_shown f) 0); [lia |].
      reflexivity. }
    rewrite Hp.
    destruct (frame_queue_next_step f q _ Hwf Hp) as (_ & Hrd & Hwf').
    rewrite Hl in Hrd. injection Hrd as Hx Hrest.
    rewrite frame_at_next_serial, <- Hx. cbn [frames_from_current].
    destruct (Z.eqb_spec (fr_serial x) (q_serial q)) as [E | E]; cbn [negb].
    + exists (peek_slot (frame_queue_peek f)), (frame_queue_next f).
      split; [reflexivity |]. split; [assumption |].
      exists (frame_queue_peek f). split; [reflexivity |].
      split; [rewrite frame_at_next_serial, <- Hx; exact E |].
      split; [exact E |]. split; [| symmetry; exact Hrest].
      intros Hk.
      assert (Hrem : 0 < frame_queue_nb_remaining f).
      { unfold frame_queue_nb_remaining.
        destruct Hwf as (Hm & _ & _ & Hs & _ & Hrs & _).
        rewrite FRAME_QUEUE_SIZE_eq in Hm. rewrite int32_small by lia. lia. }
      destruct (frame_queue_next_keeps f Hwf Hrem Hk) as (K1 & K2).
      (* the frame moved past is the kept last one *)
      assert (Hidx : frame_queue_peek f = frame_queue_peek_last (frame_queue_next f)).
      { destruct Hwf as (Hm & _ & Hr & Hs & _ & Hrs & Hrss & _).
        rewrite FRAME_QUEUE_SIZE_eq in Hm.
        unfold frame_queue_peek, frame_queue_peek_last, frame_queue_next.
        destruct (Z.eqb_spec (fq_keep_last f) 0) as [E0 | _]; [contradiction |].
        cbn [negb andb]. rewrite int32_small by lia. rewrite Z.rem_mod_nonneg by lia.
        destruct (Z.eqb_spec (fq_rindex_shown f) 0) as [E0 | E0].
        - cbn [fq_rindex]. rewrite E0, Z.add_0_r. apply Z.mod_small. lia.
        - cbn [fq_rindex]. rewrite int32_small by lia. rewrite succ_wrap by lia.
          replace (fq_rindex_shown f) with 1 by lia. reflexivity. }
      split; [| exact Hidx].
      rewrite Hidx at 1. rewrite K1. symmetry. exact Hx.
    + assert (Hl' : fq_readable (frame_queue_next f) = l) by (symmetry; exact Hrest).
      destruct (IH fuel (frame_queue_next f) Hwf' Hl' Ha ltac:(simpl in Hf; lia))
        as (r & f' & H1 & H2 & H3).
      exists r, f'. split; [exact H1 |]. split; [exact H2 |].
      destruct (frames_from_current (q_serial q) l) as [|y rest]; [exact H3 |].
      destruct H3 as (af & A1 & A2 & A3 & A4 & A5).
      exists af. split; [exact A1 |]. split; [exact A2 |]. split; [exact A3 |].
      split; [| exact A5].
      intros Hk. apply A4.
      unfold frame_queue_next.
      destruct (negb (fq_keep_last f =? 0) && (fq_rindex_shown f =? 0));
        cbn [fq_keep_last]; exact Hk.
Qed.

(** X21.  The frame-fetching loop of [audio_decode_frame] ends within
    one round per waiting frame plus one.  With the audio packet queue
    aborted it gives up at once.  Otherwise it moves past the waiting
    frames whose serial is not the packet queue's, and stops at the first
    frame of the current serial: that frame is handed on (in the sample
    queue, which keeps the last frame, still intact and now the kept last
    one) and the frames behind it stay waiting; if there is none, every
    waiting frame has been dropped and the thread waits. *)
Theorem audio_fetch_current (f : FrameQueue) (q : PacketQueue) :
  fq_wf f ->
  (q_abort_request q <> 0 ->
   audio_fetch_frame (S (length (fq_readable f))) f q = Some (peek_NULL, f))
  /\ (q_abort_request q = 0 ->
      exists r f',
        audio_fetch_frame (S (length (fq_readable f))) f q = Some (r, f')
        /\ fq_wf f'
        /\ match frames_from_current (q_serial q) (fq_readable f) with
           | x :: rest =>
               exists af, r = peek_slot af
                 /\ fr_serial (frame_at f' af) = q_serial q
                 /\ fr_serial x = q_serial q
                 /\ (fq_keep_last f <> 0 ->
                     frame_at f' af = x /\ af = frame_queue_peek_last f')
                 /\ fq_readable f' = rest
           | [] => r = peek_wait /\ fq_readable f' = []
           end).
Proof.
  intros Hwf. split.
  - intros Ha. cbn [audio_fetch_frame]. unfold frame_queue_peek_readable.
    destruct (Z.eqb_spec (q_abort_request q) 0) as [E | _]; [contradiction |].
    rewrite andb_false_r. reflexivity.
  - intros Ha.
    exact (audio_fetch_readable q (fq_readable f) (S (length (fq_readable f))) f
             Hwf eq_refl Ha ltac:(lia)).
Qed.

Lemma stale_samples_wf : fq_wf stale_samples.
Proof.
  unfold fq_wf. vm_compute. intuition discriminate.
Qed.

Lemma audio_fetch_current_witness :
  exists r f',
    audio_fetch_frame 4 stale_samples reseeked_queue = Some (r, f')
    /\ fq_wf f'
    /\ exists af, r = peek_slot af
         /\ fr_serial (frame_at f' af) = 2
         /\ fr_serial (sample 3 2) = 2
         /\ (fq_keep_last stale_samples <> 0 ->
             frame_at f' af = sample 3 2 /\ af = frame_queue_peek_last f')
         /\ fq_readable f' = [].
Proof.
  exact (proj2 (audio_fetch_current stale_samples reseeked_queue stale_samples_wf)
           eq_refl).
Defined.

(** ** Resuming *)

Local Open Scope float_scope.

Lemma resume_state (s : VideoState) (w : World) :
  paused s <> 0%Z ->
  c_queue_serial (extclk s) = p_extclk_serial ->
  c_paused (extclk s) <> 0%Z ->
  (forall k, wall w k = wall w (reads w)) ->
  let T := Z2double (wall w (reads w)) / 1000000 in
  let r := stream_toggle_pause s w in
  extclk (fst r)
  = with_paused (set_clock_at (extclk s) (c_pts (extclk s))
                   (c_serial (extclk s)) T) 0
  /\ wall (snd r) = wall w
  /\ paused (fst r) = 0%Z
  /\ c_paused (audclk (fst r)) = 0%Z /\ c_paused (vidclk (fst r)) = 0%Z
  /\ frame_timer (fst r) = frame_timer s + (T - c_last_updated (vidclk s)).
Proof.
  intros Hp Hptr Hcp Hwall. destruct_state s.
  destruct f9 as [p0 d0 l0 sp0 se0 pa0 qs0].
  destruct f8 as [p8 d8 l8 sp8 se8 pa8 qs8].
  cbn [paused extclk c_queue_serial c_paused] in Hp, Hptr, Hcp. subst qs0.
  cbv zeta.
  unfold stream_toggle_pause, set_clock, get_clock, time_now, av_gettime_relative,
    mem_of, lnot.
  destruct qs8;
  repeat (cbn -[Z.eqb AVERROR Z2double PrimFloat.div PrimFloat.sub PrimFloat.add
                PrimFloat.mul];
          rewrite ?Z.eqb_refl;
          match goal with
          | |- context [(f0 =? 0)%Z] =>
              destruct (Z.eqb_spec f0 0) as [E | _]; [contradiction |]
          | |- context [(pa0 =? 0)%Z] =>
              destruct (Z.eqb_spec pa0 0) as [E | _]; [contradiction |]
          | |- context [(?a =? ?b)%Z] =>
              lazymatch a with
              | context [if _ then _ else _] => fail
              | context [paused _] => fail
              | context [c_serial _] => fail
              | context [c_paused _] => fail
              | context [read_pause_return _] => fail
              | _ => destruct (a =? b)%Z
              end
          end);
    cbn -[Z.eqb AVERROR Z2double PrimFloat.div PrimFloat.sub PrimFloat.add
          PrimFloat.mul];
    rewrite ?(Hwall (S (reads w))), ?(Hwall (S (S (reads w)))),
      ?(Hwall (S (S (S (reads w)))));
    repeat split.
Qed.

(** X22.  Resuming a paused player ([toggle_pause]) clears the four
    paused flags and [step], and moves [frame_timer] on by the time since
    the video clock was last set.  The external clock (whose
    [queue_serial] is its own serial) picks up where it was frozen: read
    right after, with the wall clock stopped, it gives the value it was
    frozen at to within a microsecond (time, value and speed at most 2^31
    in absolute value). *)
Theorem resume_restarts_clocks (s : VideoState) (w : World) :
  paused s <> 0%Z ->
  c_queue_serial (extclk s) = p_extclk_serial ->
  c_paused (extclk s) <> 0%Z ->
  (forall k, wall w k = wall w (reads w)) ->
  within31 (c_pts (extclk s)) ->
  within31 (fst (time_now w)) ->
  within31 (c_speed (extclk s)) ->
  let s' := fst (toggle_pause s w) in
  let w' := snd (toggle_pause s w) in
  paused s' = 0%Z /\ step s' = 0%Z
  /\ c_paused (audclk s') = 0%Z /\ c_paused (vidclk s') = 0%Z
  /\ c_paused (extclk s') = 0%Z
  /\ frame_timer s'
     = frame_timer s + (fst (time_now w) - c_last_updated (vidclk s))
  /\ within_1us (fst (get_clock (mem_of s') (extclk s') w')) (c_pts (extclk s)).
Proof.
  intros Hp Hptr Hcp Hwall Hv Ht Hs.
  destruct (resume_state s w Hp Hptr Hcp Hwall) as (He & Hw & P1 & P2 & P3 & Pf).
  cbv zeta in *. unfold toggle_pause.
  destruct (stream_toggle_pause s w) as [s1 w1]. cbn [fst snd] in *.
  assert (Hst : paused (set_step 0 s1) = paused s1
                /\ step (set_step 0 s1) = 0%Z
                /\ audclk (set_step 0 s1) = audclk s1
                /\ vidclk (set_step 0 s1) = vidclk s1
                /\ extclk (set_step 0 s1) = extclk s1
                /\ frame_timer (set_step 0 s1) = frame_timer s1
                /\ mem_of (set_step 0 s1) = mem_of s1)
    by (destruct s1; repeat split).
  destruct Hst as (S1 & S2 & S3 & S4 & S5 & S6 & S7).
  rewrite S1, S3, S4, S5, S6, S7.
  split; [exact P1 |]. split; [exact S2 |]. split; [exact P2 |].
  split; [exact P3 |].
  assert (HT : fst (time_now w) = Z2double (wall w (reads w)) / 1000000)
    by reflexivity.
  split; [rewrite He; reflexivity |]. split; [rewrite HT; exact Pf |].
  rewrite He. unfold get_clock, mem_of. rewrite He.
  cbn [with_paused set_clock_at c_queue_serial c_serial c_paused c_pts
       c_pts_drift c_last_updated c_speed].
  rewrite Hptr, Z.eqb_refl. cbn [Z.eqb negb].
  unfold time_now, av_gettime_relative. cbn [fst].
  rewrite Hw, (Hwall (reads w1)).
  rewrite HT in Ht.
  destruct (within31_bound _ Hv) as [Fv _].
  destruct (restamp_close _ _ _ Hv Ht Hs) as [Fr Er].
  unfold within_1us. split; [exact Fr |]. split; [exact Fv | exact Er].
Qed.

Local Open Scope Z_scope.

Lemma resume_restarts_clocks_witness :
  paused (fst (toggle_pause paused_state frozen_world)) = 0.
Proof.
  exact (proj1 (resume_restarts_clocks paused_state frozen_world
                  ltac:(vm_compute; discriminate) eq_refl
                  ltac:(vm_compute; discriminate) (fun _ => eq_refl)
                  eq_refl eq_refl eq_refl)).
Defined.
